(** * socow_vector: a small-object, copy-on-write vector

    A shallow embedding of [socow-vector.h] and the properties of its
    storage engine: the inline/heap representation switch, the reference
    counted buffers, copy-on-write, growth and shrinking, and the strong
    exception guarantee of the operations that build a replacement buffer.

    Modelling decisions.
    - Heap buffers ([dynamic_storage]) live in a finite map from addresses
      to buffers; a handle holds an address, so two handles that share a
      buffer alias the same map entry.
    - The union of [_static_data] and [_dynamic_data] together with the
      flag [_is_small] is a tagged sum ([storage]); assigning the flag and
      the active union member is one update of [_store].
    - An array is represented by the list of its constructed slots (a
      prefix of the array); the slots past it are raw memory.
    - [size_t] values are natural numbers: no allocation is large enough
      to wrap around, and [operator new] is assumed to succeed.
    - The copy constructor of [T] may throw: the world carries a [budget],
      the number of copies that still succeed ([None]: it never throws),
      and counts the successful copies in [copies].  Swapping two elements
      and destroying one never throw.
    - [assert] failures, reads of raw memory and dangling dereferences end
      an execution in [Fault].
    - A handle is a value; the checks [this == &other] of [operator=] and
      [swap] compare object identities, and a self-assignment or self-swap
      (which returns at once) is not a call in this embedding. *)

From stdpp Require Import gmap list.

(** ** Executions: state, exceptions, faults *)

Inductive outcome (A : Type) : Type :=
  | Done (a : A)
  | Thrown
  | Fault
  | OutOfFuel.
Arguments Done {A} a.
Arguments Thrown {A}.
Arguments Fault {A}.
Arguments OutOfFuel {A}.

Definition ST (St A : Type) : Type := St → outcome A * St.

Definition ret {St A} (a : A) : ST St A := λ s, (Done a, s).

Definition bind {St A B} (m : ST St A) (k : A → ST St B) : ST St B :=
  λ s, match m s with
       | (Done a, s') => k a s'
       | (Thrown, s') => (Thrown, s')
       | (Fault, s') => (Fault, s')
       | (OutOfFuel, s') => (OutOfFuel, s')
       end.

Notation "x <- m ;; k" := (bind m (λ x, k))
  (at level 20, m at level 99, k at level 200, only parsing).
Notation "m ;; k" := (bind m (λ _, k))
  (at level 100, k at level 200, only parsing, right associativity).

Definition throw {St A} : ST St A := λ s, (Thrown, s).
Definition fault {St A} : ST St A := λ s, (Fault, s).
Definition out_of_fuel {St A} : ST St A := λ s, (OutOfFuel, s).
Definition assert {St} (b : bool) : ST St unit :=
  λ s, if b then (Done tt, s) else (Fault, s).
Definition get {St} : ST St St := λ s, (Done s, s).
Definition gets {St A} (f : St → A) : ST St A := λ s, (Done (f s), s).
Definition modify {St} (f : St → St) : ST St unit := λ s, (Done tt, f s).

(** [try { m } catch (...) { h; throw; }]: every handler of the source
    restores something and rethrows. *)
Definition try_rethrow {St A} (m : ST St A) (h : ST St unit) : ST St A :=
  λ s, match m s with
       | (Thrown, s') =>
           match h s' with
           | (Done _, s'') => (Thrown, s'')
           | (Thrown, s'') => (Thrown, s'')
           | (Fault, s'') => (Fault, s'')
           | (OutOfFuel, s'') => (OutOfFuel, s'')
           end
       | r => r
       end.

(** Run a computation on the second component of the state. *)
Definition lift {X St A} (m : ST St A) : ST (X * St) A :=
  λ s, match m s.2 with (r, s') => (r, (s.1, s')) end.

(** [for (size_t i = lo; i < lo + count; ++i) body(i)] *)
Fixpoint for_up {St} (count i : nat) (body : nat → ST St unit) : ST St unit :=
  match count with
  | 0 => ret tt
  | S c => body i ;; for_up c (S i) body
  end.

(** [for (size_t i = lo + count; i > lo; --i) body(i)] *)
Fixpoint for_down {St} (count lo : nat) (body : nat → ST St unit) : ST St unit :=
  match count with
  | 0 => ret tt
  | S c => body (lo + S c) ;; for_down c lo body
  end.

(** ** Data model *)

Definition addr := positive.

Section socow.

Context {T : Type}.
Variable SMALL_SIZE : nat.

(** [struct dynamic_storage]: [_data] lists the constructed slots. *)
Record dynamic_storage : Type := mk_storage {
  _capacity : nat;
  _references : nat;
  _data : list T
}.

(** The union of the object: inline elements or a pointer to a buffer. *)
Inductive storage : Type :=
  | Static (elems : list T)
  | Dynamic (p : addr).

Record socow_vector : Type := mk_vector {
  _size : nat;
  _store : storage
}.

Record world : Type := mk_world {
  heap : gmap addr dynamic_storage;
  budget : option nat;
  copies : nat
}.

Definition set_heap (f : gmap addr dynamic_storage → gmap addr dynamic_storage)
    (w : world) : world :=
  mk_world (f (heap w)) (budget w) (copies w).

(** A method runs on its receiver [*this] and the world; inside a scope
    with a local vector the local comes first. *)
Definition method (A : Type) : Type := ST (socow_vector * world) A.
Definition method2 (A : Type) : Type := ST (socow_vector * (socow_vector * world)) A.

(** Run a method on the local vector of a scope. *)
Definition on_local {A} (m : method A) : method2 A :=
  λ s, match m (s.1, s.2.2) with
       | (r, (nv, w)) => (r, (nv, (s.2.1, w)))
       end.

(** Exchange receiver and argument: [other.m] applied to the receiver. *)
Definition flipped {A} (m : method2 A) : method2 A :=
  λ s, match m (s.2.1, (s.1, s.2.2)) with
       | (r, (a, (b, w))) => (r, (b, (a, w)))
       end.

(** ** Elements and raw arrays *)

(** [T(const T&)]: the copy constructor. *)
Definition copy_construct (x : T) : ST world T :=
  λ w, match budget w with
       | Some 0 => (Thrown, w)
       | Some (S k) => (Done x, mk_world (heap w) (Some k) (S (copies w)))
       | None => (Done x, mk_world (heap w) None (S (copies w)))
       end.

Fixpoint uninitialized_copy (l : list T) : ST world (list T) :=
  match l with
  | [] => ret []
  | x :: l' =>
      y <- copy_construct x ;;
      ys <- uninitialized_copy l' ;;
      ret (y :: ys)
  end.

(** [std::uninitialized_copy_n(from, n, dest)]: the [n] new elements; when
    a copy throws, the ones already built are destroyed by the algorithm.
    Copying from raw memory is a fault. *)
Definition uninitialized_copy_n (from : list T) (n : nat) : ST world (list T) :=
  assert (n <=? length from) ;; uninitialized_copy (take n from).

(** The constructed slots after building [new] at [first], [first + 1], ... *)
Definition construct_at (first : nat) (new l : list T) : list T :=
  take first l ++ new.

(** [std::destroy_n(a + first, n)], for a range that ends the constructed
    slots. *)
Definition destroy_n (first n : nat) (l : list T) : list T := take first l.

(** [std::swap(a[i], a[j])] *)
Definition swap_slots (i j : nat) (l : list T) : list T :=
  match l !! i, l !! j with
  | Some x, Some y => <[j := x]> (<[i := y]> l)
  | _, _ => l
  end.

(** [std::swap_ranges(a, a + n, b)]: the new contents of [a] and of [b]. *)
Definition swap_ranges (n : nat) (a b : list T) : list T * list T :=
  (take n b ++ drop n a, take n a ++ drop n b).

(** ** The heap *)

Definition deref (p : addr) : ST world dynamic_storage :=
  λ w, match heap w !! p with
       | Some b => (Done b, w)
       | None => (Fault, w)
       end.

Definition store (p : addr) (b : dynamic_storage) : ST world unit :=
  modify (set_heap (insert p b)).

(** [operator delete(p)] *)
Definition operator_delete (p : addr) : ST world unit :=
  modify (set_heap (delete p)).

(** [operator new]: some address that is not in use. *)
Definition operator_new : ST world addr :=
  gets (λ w, fresh (dom (heap w))).

(** [dynamic_storage::inc_references] and [dec_references] *)
Definition inc_references (p : addr) : ST world unit :=
  b <- deref p ;;
  store p (mk_storage (_capacity b) (S (_references b)) (_data b)).

Definition storage_dec_references (p : addr) : ST world unit :=
  b <- deref p ;;
  assert (0 <? _references b) ;;
  store p (mk_storage (_capacity b) (_references b - 1) (_data b)).

(** [static void dec_references(dynamic_storage* data, size_t length)] *)
Definition dec_references_at (p : addr) (length : nat) : ST world unit :=
  storage_dec_references p ;;
  b <- deref p ;;
  if _references b =? 0 then
    store p (mk_storage (_capacity b) (_references b) (destroy_n 0 length (_data b))) ;;
    operator_delete p
  else ret tt.

(** [get_new_empty_storage(capacity)] *)
Definition get_new_empty_storage (capacity : nat) : ST world addr :=
  p <- operator_new ;;
  store p (mk_storage capacity 1 []) ;;
  ret p.

(** [get_copied_storage(from, size, capacity)] *)
Definition get_copied_storage (from : list T) (size capacity : nat) : ST world addr :=
  assert (size <=? capacity) ;;
  p <- get_new_empty_storage capacity ;;
  try_rethrow
    (ys <- uninitialized_copy_n from size ;;
     store p (mk_storage capacity 1 ys))
    (operator_delete p) ;;
  ret p.

(** ** Observers *)

Definition is_small (v : socow_vector) : bool :=
  match _store v with Static _ => true | Dynamic _ => false end.

Definition size (v : socow_vector) : nat := _size v.

Definition empty (v : socow_vector) : bool := size v =? 0.

(** [data() const]: the array the handle reads. *)
Definition data_const (v : socow_vector) : ST world (list T) :=
  match _store v with
  | Static l => ret l
  | Dynamic p => b <- deref p ;; ret (_data b)
  end.

Definition capacity (v : socow_vector) : ST world nat :=
  match _store v with
  | Static _ => ret SMALL_SIZE
  | Dynamic p => b <- deref p ;; ret (_capacity b)
  end.

Definition copied (v : socow_vector) : ST world bool :=
  match _store v with
  | Static _ => ret false
  | Dynamic p => b <- deref p ;; ret (1 <? _references b)
  end.

(** [operator[](index) const] *)
Definition at_const (v : socow_vector) (index : nat) : ST world T :=
  assert (index <? size v) ;;
  l <- data_const v ;;
  match l !! index with
  | Some x => ret x
  | None => fault
  end.

(** ** Receiver access *)

Definition this : method socow_vector := gets fst.
Definition set_size (n : nat) : method unit :=
  modify (λ s, (mk_vector n (_store s.1), s.2)).
Definition set_store (st : storage) : method unit :=
  modify (λ s, (mk_vector (_size s.1) st, s.2)).

(** Update the array the receiver currently designates. *)
Definition update_data (f : list T → list T) : method unit :=
  v <- this ;;
  match _store v with
  | Static l => set_store (Static (f l))
  | Dynamic p =>
      lift (b <- deref p ;;
            store p (mk_storage (_capacity b) (_references b) (f (_data b))))
  end.

(** ** Private members *)

(** [dec_references()] *)
Definition dec_references : method unit :=
  v <- this ;;
  match _store v with
  | Static l => set_store (Static (destroy_n 0 (size v) l))
  | Dynamic p => lift (dec_references_at p (size v))
  end.

(** [get_copied_storage(capacity)] *)
Definition get_copied_storage_this (capacity : nat) : method addr :=
  v <- this ;;
  assert (size v <=? capacity) ;;
  from <- lift (data_const v) ;;
  lift (get_copied_storage from (size v) capacity).

Definition copy_on_write (capacity : nat) : method unit :=
  new_dynamic_data <- get_copied_storage_this capacity ;;
  dec_references ;;
  set_store (Dynamic new_dynamic_data).

Definition check_cow : method unit :=
  v <- this ;;
  c <- lift (copied v) ;;
  if c then cap <- lift (capacity v) ;; copy_on_write cap
  else ret tt.

(** [socow_vector(const socow_vector& other, size_t size, size_t capacity)] *)
Definition socow_vector_from (other : socow_vector) (size capacity : nat)
    : ST world socow_vector :=
  assert (SMALL_SIZE <? capacity) ;;
  assert (size <? capacity) ;;
  from <- data_const other ;;
  p <- get_copied_storage from size capacity ;;
  ret (mk_vector size (Dynamic p)).

(** [socow_vector()] *)
Definition socow_vector_new : socow_vector := mk_vector 0 (Static []).

(** [data()] *)
Definition data : method unit :=
  v <- this ;; if is_small v then ret tt else check_cow.

(** The destructor. *)
Definition destroy (v : socow_vector) : ST world unit :=
  λ w, match dec_references (v, w) with (r, (_, w')) => (r, w') end.

(** A scope with one local vector: the body runs with the local first in
    the state, and the local is destroyed when the scope is left, by
    completion or by an exception. *)
Definition scope {A} (local : socow_vector) (body : method2 A) : method A :=
  λ s, match body (local, s) with
       | (Done a, (nv, s')) => (lift (destroy nv) ;; ret a) s'
       | (Thrown, (nv, s')) => (lift (destroy nv) ;; throw) s'
       | (Fault, (_, s')) => (Fault, s')
       | (OutOfFuel, (_, s')) => (OutOfFuel, s')
       end.

(** The members of the union; reading the inactive one is a fault. *)
Definition _dynamic_data (v : socow_vector) : ST world addr :=
  match _store v with
  | Dynamic p => ret p
  | Static _ => fault
  end.

Definition _static_data (v : socow_vector) : ST world (list T) :=
  match _store v with
  | Static l => ret l
  | Dynamic _ => fault
  end.

(** [_dynamic_data->references()] *)
Definition references (v : socow_vector) : ST world nat :=
  p <- _dynamic_data v ;;
  b <- deref p ;;
  ret (_references b).

(** Inside a scope: the local vector and the receiver. *)
Definition local : method2 socow_vector := gets fst.
Definition receiver : method2 socow_vector := gets (λ s, s.2.1).

(** [std::swap_ranges] over the first [n] slots of the receiver's array
    and of the local's array ([begin()] is [data()] on both sides). *)
Definition exchange_prefix (n : nat) : method2 unit :=
  on_local data ;;
  lift data ;;
  v <- receiver ;;
  other <- local ;;
  a <- lift (lift (data_const v)) ;;
  b <- lift (lift (data_const other)) ;;
  assert ((n <=? length a) && (n <=? length b)) ;;
  lift (update_data (λ _, (swap_ranges n a b).1)) ;;
  on_local (update_data (λ _, (swap_ranges n a b).2)).

(** ** Element access *)

(** [operator[](index)]: the check and the copy-on-write of mutable
    access; the caller then reads or writes slot [index]. *)
Definition index_mut (index : nat) : method unit :=
  v <- this ;;
  assert (index <? size v) ;;
  data.

(** [v[index] = value] *)
Definition assign_at (index : nat) (value : T) : method unit :=
  index_mut index ;;
  update_data (λ l, <[index := value]> l).

(** [std::swap(v[i], v[j])] *)
Definition swap_at (i j : nat) : method unit :=
  index_mut i ;;
  index_mut j ;;
  update_data (swap_slots i j).

(** ** Capacity *)

Definition shrink_big_to_small : method unit :=
  v <- this ;;
  _data_ptr <- lift (_dynamic_data v) ;;
  try_rethrow
    (b <- lift (deref _data_ptr) ;;
     ys <- lift (uninitialized_copy_n (_data b) (size v)) ;;
     set_store (Static ys))
    (set_store (Dynamic _data_ptr)) ;;
  lift (dec_references_at _data_ptr (size v)).

Definition reserve (new_capacity : nat) : method unit :=
  v <- this ;;
  if new_capacity <? size v then ret tt
  else if is_small v && (new_capacity <=? SMALL_SIZE) then ret tt
  else
    to_small <- (if is_small v then ret false
                 else r <- lift (references v) ;;
                      ret ((1 <? r) && (new_capacity <=? SMALL_SIZE))) ;;
    if to_small then shrink_big_to_small
    else
      realloc <- (if is_small v then ret true
                  else r <- lift (references v) ;;
                       if 1 <? r then ret true
                       else cap <- lift (capacity v) ;;
                            ret ((r =? 1) && (cap <? new_capacity))) ;;
      if realloc then copy_on_write new_capacity else ret tt.

Definition shrink_to_fit : method unit :=
  v <- this ;;
  cap <- lift (capacity v) ;;
  if (size v =? cap) || is_small v then ret tt
  else if size v <=? SMALL_SIZE then shrink_big_to_small
  else copy_on_write (size v).

(** ** swap *)

Fixpoint swap_fuel (fuel : nat) : method2 unit :=
  match fuel with
  | 0 => out_of_fuel
  | S fuel' =>
      v <- receiver ;;
      other <- local ;;
      if (negb (is_small v) && is_small other)
         || (is_small v && is_small other && (size other <? size v))
      then flipped (swap_fuel fuel')
      else
        (if is_small v && is_small other then
           let common_len := size v in
           let diff := size other - size v in
           on_local data ;;
           lift data ;;
           from <- lift (lift (data_const other)) ;;
           ys <- lift (lift (uninitialized_copy_n (drop common_len from) diff)) ;;
           lift (update_data (construct_at common_len ys)) ;;
           exchange_prefix common_len ;;
           on_local (data ;; update_data (destroy_n common_len diff))
         else if negb (is_small v) && negb (is_small other) then
           p <- lift (lift (_dynamic_data v)) ;;
           q <- lift (lift (_dynamic_data other)) ;;
           lift (set_store (Dynamic q)) ;;
           on_local (set_store (Dynamic p))
         else
           tmp <- lift (lift (_dynamic_data other)) ;;
           try_rethrow
             (from <- lift (lift (_static_data v)) ;;
              ys <- lift (lift (uninitialized_copy_n from (size v))) ;;
              on_local (set_store (Static ys)))
             (on_local (set_store (Dynamic tmp))) ;;
           lift (data ;; update_data (destroy_n 0 (size v))) ;;
           lift (set_store (Dynamic tmp))) ;;
        lift (set_size (size other)) ;;
        on_local (set_size (size v))
  end.

(** [swap(other)] on the receiver, [other] being the local of the scope:
    the nested call [other.swap] never nests again. *)
Definition swap : method2 unit := swap_fuel 2.

(** ** push_back and copy assignment *)

(** [push_back] calls itself on the temporary and then [operator=];
    [operator=] calls [push_back] on its temporary. *)
Fixpoint push_back_fuel (fuel : nat) (value : T) : method unit :=
  match fuel with
  | 0 => out_of_fuel
  | S fuel' =>
      v <- this ;;
      cap <- lift (capacity v) ;;
      grow <- (if size v =? cap then ret true else lift (copied v)) ;;
      if grow then
        new_vector <- lift (socow_vector_from v (size v) (cap * 2)) ;;
        scope new_vector
          (on_local (push_back_fuel fuel' value) ;;
           new_vector' <- local ;;
           lift (operator_assign_fuel fuel' new_vector'))
      else
        data ;;
        y <- lift (copy_construct value) ;;
        update_data (construct_at (size v) [y]) ;;
        set_size (S (size v))
  end
with operator_assign_fuel (fuel : nat) (other : socow_vector) : method unit :=
  match fuel with
  | 0 => out_of_fuel
  | S fuel' =>
      v <- this ;;
      (if is_small v && is_small other then
         let common_len := size v `min` size other in
         scope socow_vector_new
           (on_local (reserve common_len) ;;
            for_up common_len 0 (λ i,
              x <- lift (lift (at_const other i)) ;;
              on_local (push_back_fuel fuel' x)) ;;
            (if size v <? size other then
               lift data ;;
               from <- lift (lift (data_const other)) ;;
               ys <- lift (lift (uninitialized_copy_n (drop (size v) from)
                                   (size other - size v))) ;;
               lift (update_data (construct_at (size v) ys))
             else if size other <? size v then
               lift data ;;
               lift (update_data (destroy_n (size other) (size v - size other)))
             else ret tt) ;;
            lift (set_size (size other)) ;;
            tmp <- local ;;
            exchange_prefix (size tmp))
       else if negb (is_small v) && is_small other then
         _data_ptr <- lift (_dynamic_data v) ;;
         try_rethrow
           (from <- lift (_static_data other) ;;
            ys <- lift (uninitialized_copy_n from (size other)) ;;
            set_store (Static ys))
           (set_store (Dynamic _data_ptr)) ;;
         lift (dec_references_at _data_ptr (size v))
       else
         dec_references ;;
         p <- lift (_dynamic_data other) ;;
         set_store (Dynamic p) ;;
         lift (inc_references p)) ;;
      set_size (size other)
  end.

(** Nesting is at most three deep from [operator=] and two from
    [push_back]; on well-formed vectors any fuel above one gives the same
    result ([push_back_fuel_enough], [operator_assign_fuel_enough]). *)
Definition push_back (value : T) : method unit := push_back_fuel 3 value.
Definition operator_assign (other : socow_vector) : method unit :=
  operator_assign_fuel 3 other.

(** [socow_vector(const socow_vector& other)] *)
Definition socow_vector_copy (other : socow_vector) : ST world socow_vector :=
  λ w, match operator_assign other (mk_vector 0 (Static []), w) with
       | (Done _, (v, w')) => (Done v, w')
       | (Thrown, (_, w')) => (Thrown, w')
       | (Fault, (_, w')) => (Fault, w')
       | (OutOfFuel, (_, w')) => (OutOfFuel, w')
       end.

(** ** pop_back, clear *)

Definition pop_back : method unit :=
  v <- this ;;
  assert (0 <? size v) ;;
  c <- lift (copied v) ;;
  if c then
    cap <- lift (capacity v) ;;
    new_vector <- lift (socow_vector_from v (size v - 1) cap) ;;
    scope new_vector swap
  else
    data ;;
    update_data (destroy_n (size v - 1) 1) ;;
    set_size (size v - 1).

Definition clear : method unit :=
  v <- this ;;
  in_place <- (if is_small v then ret true
               else r <- lift (references v) ;; ret (r =? 1)) ;;
  if in_place then
    for_up (size v) 0 (λ _, pop_back)
  else
    dec_references ;;
    set_store (Static []) ;;
    set_size 0.

(** ** insert, erase: positions are offsets from [data()] *)

(** [new_vector.push_back(std::as_const(v)[i])] with [v] the receiver *)
Definition push_back_from_receiver (i : nat) : method2 unit :=
  v <- receiver ;;
  x <- lift (lift (at_const v i)) ;;
  on_local (push_back x).

Definition insert (pos : nat) (value : T) : method nat :=
  let diff := pos in
  v <- this ;;
  cap <- lift (capacity v) ;;
  grow <- (if size v =? cap then ret true else lift (copied v)) ;;
  (if grow then
     shared <- lift (copied v) ;;
     scope socow_vector_new
       (on_local (reserve (if shared then cap + 1 else 2 * cap)) ;;
        for_up diff 0 push_back_from_receiver ;;
        on_local (push_back value) ;;
        for_up (size v - diff) diff push_back_from_receiver ;;
        new_vector <- local ;;
        lift (operator_assign new_vector))
   else
     push_back value ;;
     v' <- this ;;
     for_down (size v' - 1 - diff) diff (λ i, swap_at i (i - 1))) ;;
  data ;;
  ret diff.

Definition erase_range (first last : nat) : method nat :=
  let range := last - first in
  let start := first in
  if first =? last then data ;; ret start
  else
    v <- this ;;
    c <- lift (copied v) ;;
    if c then
      cap <- lift (capacity v) ;;
      scope socow_vector_new
        (on_local (reserve (cap - range)) ;;
         for_up start 0 push_back_from_receiver ;;
         for_up (size v - (start + range)) (start + range) push_back_from_receiver ;;
         swap ;;
         lift data) ;;
      ret start
    else
      for_up (size v - range - start) start (λ i, swap_at i (i + range)) ;;
      for_up range 0 (λ _, pop_back) ;;
      data ;;
      ret start.


End socow.

(** * Closed forms of the operations

    Every operation is computed, under the well-formedness of its
    receiver, to one of two results: completion, which spends a known
    number of copies, or the exception of a copy that cannot be afforded. *)

#[global] Arguments Nat.leb : simpl never.
#[global] Arguments Nat.ltb : simpl never.
#[global] Arguments Nat.eqb : simpl never.
#[global] Arguments Nat.add : simpl never.
#[global] Arguments Nat.sub : simpl never.
#[global] Arguments Nat.mul : simpl never.
#[global] Arguments Nat.min : simpl never.
#[global] Arguments andb : simpl never.
#[global] Arguments orb : simpl never.
#[global] Arguments negb : simpl never.

#[global] Arguments copy_construct : simpl never.
#[global] Arguments is_small : simpl never.
#[global] Arguments size : simpl never.
#[global] Arguments _dynamic_data : simpl never.
#[global] Arguments _static_data : simpl never.
#[global] Arguments uninitialized_copy_n : simpl never.
#[global] Arguments dec_references_at : simpl never.
#[global] Arguments get_copied_storage : simpl never.
#[global] Arguments capacity : simpl never.
#[global] Arguments copied : simpl never.
#[global] Arguments data_const : simpl never.
#[global] Arguments at_const : simpl never.
#[global] Arguments update_data : simpl never.
#[global] Arguments dec_references : simpl never.
#[global] Arguments destroy : simpl never.
#[global] Arguments copy_on_write : simpl never.
#[global] Arguments check_cow : simpl never.
#[global] Arguments data : simpl never.
#[global] Arguments socow_vector_from : simpl never.
#[global] Arguments reserve : simpl never.
#[global] Arguments push_back : simpl never.
#[global] Arguments operator_assign : simpl never.
#[global] Arguments swap : simpl never.
#[global] Arguments socow_vector_copy : simpl never.
#[global] Arguments shrink_to_fit : simpl never.
#[global] Arguments shrink_big_to_small : simpl never.
#[global] Arguments pop_back : simpl never.
#[global] Arguments clear : simpl never.
#[global] Arguments insert : simpl never.
#[global] Arguments erase_range : simpl never.
#[global] Arguments scope : simpl never.
#[global] Arguments exchange_prefix : simpl never.
#[global] Arguments index_mut : simpl never.
#[global] Arguments swap_at : simpl never.
#[global] Arguments assign_at : simpl never.
#[global] Arguments push_back_from_receiver : simpl never.
#[global] Arguments inc_references : simpl never.
#[global] Arguments references : simpl never.

Ltac st_unfold :=
  unfold bind, ret, assert, gets, modify, get, throw, fault, out_of_fuel, lift,
    try_rethrow, on_local, flipped, this, local, receiver, set_size, set_store,
    deref, store, operator_delete, operator_new, set_heap, size in *.

Lemma negb_true_eq : negb true = false.
Proof. reflexivity. Qed.
Lemma negb_false_eq : negb false = true.
Proof. reflexivity. Qed.

Ltac bool_simpl :=
  rewrite ?negb_true_eq, ?negb_false_eq, ?andb_true_l, ?andb_false_l,
    ?andb_true_r, ?andb_false_r, ?orb_true_l, ?orb_false_l, ?orb_true_r,
    ?orb_false_r.

Ltac run := repeat (st_unfold; simpl in *; bool_simpl).

(** Give the value of a conditional computation of the goal. *)
Ltac resolve_if val :=
  match goal with
  | |- context [?f ?s] =>
      lazymatch f with
      | (if _ then _ else _) =>
          let H := fresh in
          assert (f s = val) as H; [ | rewrite H; clear H ]
      end
  end.

Ltac nat_cases :=
  repeat match goal with
  | |- context [?a <=? ?b] => destruct (Nat.leb_spec a b)
  | |- context [?a <? ?b] => destruct (Nat.ltb_spec a b)
  | |- context [?a =? ?b] => destruct (Nat.eqb_spec a b)
  | H : context [?a <=? ?b] |- _ => destruct (Nat.leb_spec a b)
  | H : context [?a <? ?b] |- _ => destruct (Nat.ltb_spec a b)
  | H : context [?a =? ?b] |- _ => destruct (Nat.eqb_spec a b)
  end.

(** Decide the comparison [t] of the goal by arithmetic. *)
Ltac decide_nat :=
  repeat match goal with
  | |- context [?a <=? ?b] =>
      first [ rewrite (proj2 (Nat.leb_le a b)) by lia
            | rewrite (proj2 (Nat.leb_gt a b)) by lia ]
  | |- context [?a <? ?b] =>
      first [ rewrite (proj2 (Nat.ltb_lt a b)) by lia
            | rewrite (proj2 (Nat.ltb_ge a b)) by lia ]
  | |- context [?a =? ?b] =>
      first [ rewrite (proj2 (Nat.eqb_eq a b)) by lia
            | rewrite (proj2 (Nat.eqb_neq a b)) by lia ]
  end.

Lemma for_up_0 {St} i (body : nat → ST St unit) s :
  for_up 0 i body s = (Done tt, s).
Proof. reflexivity. Qed.

Lemma for_up_S {St} count i (body : nat → ST St unit) s :
  for_up (S count) i body s = bind (body i) (λ _, for_up count (S i) body) s.
Proof. reflexivity. Qed.

Lemma for_down_0 {St} lo (body : nat → ST St unit) s :
  for_down 0 lo body s = (Done tt, s).
Proof. reflexivity. Qed.

Lemma for_down_S {St} count lo (body : nat → ST St unit) s :
  for_down (S count) lo body s
  = bind (body (lo + S count)) (λ _, for_down count lo body) s.
Proof. reflexivity. Qed.

(** ** The budget of copies *)

Definition afford (bd : option nat) (k : nat) : bool :=
  match bd with None => true | Some n => k <=? n end.

Definition spend (bd : option nat) (k : nat) : option nat :=
  match bd with None => None | Some n => Some (n - k) end.

Ltac eq_arith := repeat first [ done | lia | progress f_equal ].

Ltac budget :=
  intros;
  repeat match goal with
  | bd : option nat |- _ => destruct bd as [?|]
  end;
  unfold afford, spend in *; simpl in *;
  nat_cases; simpl in *; try lia; try done; eq_arith.

Lemma afford_0 bd : afford bd 0 = true.
Proof. budget. Qed.

Lemma afford_spend bd j k :
  afford bd j = true → afford (spend bd j) k = afford bd (j + k).
Proof. budget. Qed.

Lemma afford_le bd j k : j ≤ k → afford bd k = true → afford bd j = true.
Proof. budget. Qed.

Lemma spend_spend bd j k : afford bd j = true → spend (spend bd j) k = spend bd (j + k).
Proof. budget. Qed.

Lemma spend_0 bd : spend bd 0 = bd.
Proof. budget. Qed.

Section closed_forms.

Context {T : Type}.
Variable N : nat.
Implicit Types (v other : @socow_vector T) (h : gmap addr (@dynamic_storage T)).
Implicit Types (bd : option nat) (b : @dynamic_storage T) (l from : list T).
Implicit Types (p q : addr) (w : @world T).

(** The world in which a copy has thrown: the budget is used up. *)
Definition thrown_world h bd (c : nat) : @world T :=
  mk_world h (Some 0) (c + default 0 bd).

Lemma thrown_world_spend h bd c j k :
  afford bd j = true → afford (spend bd j) k = false →
  thrown_world h (spend bd j) (c + j) = thrown_world h bd c.
Proof. unfold thrown_world. budget. Qed.

Lemma copy_construct_eq (x : T) h bd c :
  copy_construct x (mk_world h bd c) =
  if afford bd 1 then (Done x, mk_world h (spend bd 1) (c + 1))
  else (Thrown, thrown_world h bd c).
Proof.
  unfold copy_construct, thrown_world; simpl. destruct bd as [[|n]|]; budget.
Qed.

Lemma uninitialized_copy_eq l h bd c :
  uninitialized_copy l (mk_world h bd c) =
  if afford bd (length l)
  then (Done l, mk_world h (spend bd (length l)) (c + length l))
  else (Thrown, thrown_world h bd c).
Proof.
  revert bd c. induction l as [|x l IH]; intros bd c; simpl.
  - unfold ret. budget.
  - unfold bind. rewrite copy_construct_eq.
    destruct (afford bd 1) eqn:E1.
    + rewrite IH. unfold thrown_world.
      destruct (afford (spend bd 1) (length l)) eqn:E2; unfold ret; budget.
    + unfold thrown_world. budget.
Qed.

Lemma uninitialized_copy_n_eq l n h bd c :
  n ≤ length l →
  uninitialized_copy_n l n (mk_world h bd c) =
  if afford bd n then (Done (take n l), mk_world h (spend bd n) (c + n))
  else (Thrown, thrown_world h bd c).
Proof.
  intros Hn. unfold uninitialized_copy_n. run. decide_nat.
  rewrite uninitialized_copy_eq, length_take_le by done. done.
Qed.

(** ** Buffers *)

(** The heap after one reference to the buffer at [p] is dropped. *)
Definition drop_ref p h : gmap addr (@dynamic_storage T) :=
  match h !! p with
  | Some b =>
      if _references b =? 1 then delete p h
      else <[p := mk_storage (_capacity b) (_references b - 1) (_data b)]> h
  | None => h
  end.

Lemma dec_references_at_eq p len h bd c b :
  h !! p = Some b → 0 < _references b →
  dec_references_at p len (mk_world h bd c) = (Done tt, mk_world (drop_ref p h) bd c).
Proof.
  intros Hp Hr. unfold dec_references_at, storage_dec_references, drop_ref.
  run. rewrite Hp. run. decide_nat. run.
  rewrite lookup_insert_eq. run.
  destruct (Nat.eqb_spec (_references b - 1) 0), (Nat.eqb_spec (_references b) 1);
    try lia; run; [|done].
  by rewrite !delete_insert_eq.
Qed.

Lemma fresh_lookup h : h !! fresh (dom h) = None.
Proof. apply not_elem_of_dom, is_fresh. Qed.

Lemma fresh_ne h p b : h !! p = Some b → p ≠ fresh (dom h).
Proof. intros Hp ->. by rewrite fresh_lookup in Hp. Qed.

Lemma get_copied_storage_eq from size capacity h bd c :
  size ≤ capacity → size ≤ length from →
  get_copied_storage from size capacity (mk_world h bd c) =
  if afford bd size then
    (Done (fresh (dom h)),
     mk_world (<[fresh (dom h) := mk_storage capacity 1 (take size from)]> h)
              (spend bd size) (c + size))
  else (Thrown, thrown_world h bd c).
Proof.
  intros H1 H2. unfold get_copied_storage, get_new_empty_storage.
  run. decide_nat. run.
  rewrite uninitialized_copy_n_eq by done.
  destruct (afford bd size); run.
  - by rewrite insert_insert_eq.
  - unfold thrown_world. by rewrite delete_insert_id by apply fresh_lookup.
Qed.

(** ** Handles in a heap *)

(** The pointer of a heap handle is live. *)
Definition valid v h : Prop :=
  match _store v with
  | Static _ => True
  | Dynamic p => ∃ b, h !! p = Some b ∧ 0 < _references b
  end.

(** The array the handle designates. *)
Definition contents v h : list T :=
  match _store v with
  | Static l => l
  | Dynamic p => match h !! p with Some b => _data b | None => [] end
  end.

Definition cap_of v h : nat :=
  match _store v with
  | Static _ => N
  | Dynamic p => match h !! p with Some b => _capacity b | None => 0 end
  end.

Definition shared v h : bool :=
  match _store v with
  | Static _ => false
  | Dynamic p => match h !! p with Some b => 1 <? _references b | None => false end
  end.

(** The heap after the handle gives up its storage. *)
Definition release v h : gmap addr (@dynamic_storage T) :=
  match _store v with
  | Static _ => h
  | Dynamic p => drop_ref p h
  end.

(** The handle and the heap after the handle's array becomes [l']. *)
Definition put_store v h (l' : list T) : @storage T :=
  match _store v with
  | Static _ => Static l'
  | Dynamic p => Dynamic p
  end.

Definition put_heap v h (l' : list T) : gmap addr (@dynamic_storage T) :=
  match _store v with
  | Static _ => h
  | Dynamic p =>
      match h !! p with
      | Some b => <[p := mk_storage (_capacity b) (_references b) l']> h
      | None => h
      end
  end.

(** Well-formed handle: the size is the number of constructed slots, it
    fits the capacity, and a buffer is larger than the inline array. *)
Definition wf v h : bool :=
  match _store v with
  | Static l => (_size v =? length l) && (_size v <=? N)
  | Dynamic p =>
      match h !! p with
      | Some b =>
          (_size v =? length (_data b)) && (_size v <=? _capacity b)
          && (0 <? _references b) && (N <? _capacity b)
      | None => false
      end
  end.

Lemma wf_valid v h : wf v h = true → valid v h.
Proof.
  unfold wf, valid. destruct (_store v) as [l|p]; [done|].
  destruct (h !! p) as [b|]; [|done]. intros H. exists b. split; [done|].
  repeat (apply andb_prop in H as [H ?]). by apply Nat.ltb_lt.
Qed.

Lemma wf_size v h : wf v h = true → _size v = length (contents v h).
Proof.
  unfold wf, contents. destruct (_store v) as [l|p].
  - intros [H _]%andb_prop. by apply Nat.eqb_eq.
  - destruct (h !! p) as [b|]; [|done]. intros H.
    repeat (apply andb_prop in H as [H ?]). by apply Nat.eqb_eq.
Qed.

Lemma wf_cap v h : wf v h = true → _size v ≤ cap_of v h.
Proof.
  unfold wf, cap_of. destruct (_store v) as [l|p].
  - intros [_ H]%andb_prop. by apply Nat.leb_le.
  - destruct (h !! p) as [b|]; [|done]. intros H.
    repeat (apply andb_prop in H as [H ?]). by apply Nat.leb_le.
Qed.

Lemma wf_cap_small v h : wf v h = true → N ≤ cap_of v h.
Proof.
  unfold wf, cap_of. destruct (_store v) as [l|p]; [done|].
  destruct (h !! p) as [b|]; [|done]. intros H.
  repeat (apply andb_prop in H as [H ?]). apply Nat.ltb_lt in H0. lia.
Qed.

Lemma wf_cap_heap v h : wf v h = true → is_small v = false → N < cap_of v h.
Proof.
  unfold wf, cap_of, is_small. destruct (_store v) as [l|p]; [done|].
  destruct (h !! p) as [b|]; [|done]. intros H _.
  repeat (apply andb_prop in H as [H ?]). by apply Nat.ltb_lt in H0.
Qed.

Lemma valid_ne_fresh v h : valid v h → _store v ≠ Dynamic (fresh (dom h)).
Proof.
  unfold valid. destruct (_store v) as [l|p]; [done|].
  intros (b & Hp & _) [= ->]. by rewrite fresh_lookup in Hp.
Qed.

(** ** Observers *)

Lemma capacity_eq v h bd c :
  valid v h → capacity N v (mk_world h bd c) = (Done (cap_of v h), mk_world h bd c).
Proof.
  unfold valid, capacity, cap_of. destruct (_store v) as [l|p]; [done|].
  intros (b & Hp & _). run. by rewrite Hp.
Qed.

Lemma copied_eq v h bd c :
  valid v h → copied v (mk_world h bd c) = (Done (shared v h), mk_world h bd c).
Proof.
  unfold valid, copied, shared. destruct (_store v) as [l|p]; [done|].
  intros (b & Hp & _). run. by rewrite Hp.
Qed.

Lemma data_const_eq v h bd c :
  valid v h → data_const v (mk_world h bd c) = (Done (contents v h), mk_world h bd c).
Proof.
  unfold valid, data_const, contents. destruct (_store v) as [l|p]; [done|].
  intros (b & Hp & _). run. by rewrite Hp.
Qed.

Lemma at_const_eq v i x h bd c :
  valid v h → i < _size v → contents v h !! i = Some x →
  at_const v i (mk_world h bd c) = (Done x, mk_world h bd c).
Proof.
  intros Hv Hi Hx. unfold at_const. run. unfold size. decide_nat. run.
  rewrite data_const_eq by done. by rewrite Hx.
Qed.

Lemma update_data_eq f v h bd c :
  valid v h →
  update_data f (v, mk_world h bd c) =
  (Done tt, (mk_vector (_size v) (put_store v h (f (contents v h))),
             mk_world (put_heap v h (f (contents v h))) bd c)).
Proof.
  unfold valid, update_data, put_store, put_heap, contents.
  destruct v as [n [l|p]]; simpl; [done|].
  intros (b & Hp & _). run. by rewrite Hp.
Qed.

Lemma dec_references_eq v h bd c :
  valid v h →
  dec_references (v, mk_world h bd c) =
  (Done tt, (mk_vector (_size v) (put_store v h (destroy_n 0 (_size v) (contents v h))),
             mk_world (release v h) bd c)).
Proof.
  unfold valid, dec_references, put_store, release, contents.
  destruct v as [n [l|p]]; simpl; [done|].
  intros (b & Hp & Hr). run. by rewrite (dec_references_at_eq _ _ _ _ _ b).
Qed.

Lemma destroy_eq v h bd c :
  valid v h → destroy v (mk_world h bd c) = (Done tt, mk_world (release v h) bd c).
Proof. intros Hv. unfold destroy. by rewrite dec_references_eq. Qed.

End closed_forms.

#[global] Arguments contents : simpl never.
#[global] Arguments cap_of : simpl never.
#[global] Arguments shared : simpl never.
#[global] Arguments release : simpl never.
#[global] Arguments valid : simpl never.
#[global] Arguments wf : simpl never.

Section frames.

Context {T : Type}.
Variable N : nat.
Implicit Types (v other : @socow_vector T) (h : gmap addr (@dynamic_storage T)).
Implicit Types (bd : option nat) (b : @dynamic_storage T) (l from : list T).
Implicit Types (p q : addr) (w : @world T).

(** ** A handle and a buffer it does not designate *)

Lemma valid_insert_ne v h q b :
  valid v h → _store v ≠ Dynamic q → valid v (<[q:=b]> h).
Proof.
  unfold valid. destruct (_store v) as [l|p]; [done|].
  intros (b' & Hp & Hr) Hne. exists b'. rewrite lookup_insert_ne; [done|congruence].
Qed.

Lemma contents_insert_ne v h q b :
  _store v ≠ Dynamic q → contents v (<[q:=b]> h) = contents v h.
Proof.
  unfold contents. destruct (_store v) as [l|p]; [done|].
  intros Hne. rewrite lookup_insert_ne; [done|congruence].
Qed.

Lemma cap_of_insert_ne v h q b :
  _store v ≠ Dynamic q → cap_of N v (<[q:=b]> h) = cap_of N v h.
Proof.
  unfold cap_of. destruct (_store v) as [l|p]; [done|].
  intros Hne. rewrite lookup_insert_ne; [done|congruence].
Qed.

Lemma shared_insert_ne v h q b :
  _store v ≠ Dynamic q → shared v (<[q:=b]> h) = shared v h.
Proof.
  unfold shared. destruct (_store v) as [l|p]; [done|].
  intros Hne. rewrite lookup_insert_ne; [done|congruence].
Qed.

Lemma drop_ref_insert_ne p q b h :
  p ≠ q → drop_ref p (<[q:=b]> h) = <[q:=b]> (drop_ref p h).
Proof.
  intros Hne. unfold drop_ref. rewrite lookup_insert_ne by done.
  destruct (h !! p) as [b'|]; [|done].
  destruct (_references b' =? 1).
  - by rewrite delete_insert_ne.
  - by rewrite insert_insert_ne.
Qed.

Lemma release_insert_ne v h q b :
  _store v ≠ Dynamic q → release v (<[q:=b]> h) = <[q:=b]> (release v h).
Proof.
  unfold release. destruct (_store v) as [l|p]; [done|].
  intros Hne. apply drop_ref_insert_ne. congruence.
Qed.

Lemma wf_insert_ne v h q b :
  _store v ≠ Dynamic q → wf N v (<[q:=b]> h) = wf N v h.
Proof.
  unfold wf. destruct (_store v) as [l|p]; [done|].
  intros Hne. rewrite lookup_insert_ne; [done|congruence].
Qed.

(** ** A heap handle and its own buffer *)

Lemma valid_dyn n q b h :
  h !! q = Some b → 0 < _references b → valid (mk_vector n (Dynamic q)) h.
Proof. intros. exists b. done. Qed.

Lemma contents_dyn n q b h :
  h !! q = Some b → contents (mk_vector n (Dynamic q)) h = _data b.
Proof. unfold contents; simpl. by intros ->. Qed.

Lemma cap_of_dyn n q b h :
  h !! q = Some b → cap_of N (mk_vector n (Dynamic q)) h = _capacity b.
Proof. unfold cap_of; simpl. by intros ->. Qed.

Lemma shared_dyn n q b h :
  h !! q = Some b → shared (mk_vector n (Dynamic q)) h = (1 <? _references b).
Proof. unfold shared; simpl. by intros ->. Qed.

Lemma put_heap_dyn n q b h l :
  h !! q = Some b →
  put_heap (mk_vector n (Dynamic q)) h l
  = <[q := mk_storage (_capacity b) (_references b) l]> h.
Proof. unfold put_heap; simpl. by intros ->. Qed.

Lemma release_dyn n q b h :
  h !! q = Some b →
  release (mk_vector n (Dynamic q)) h
  = if _references b =? 1 then delete q h
    else <[q := mk_storage (_capacity b) (_references b - 1) (_data b)]> h.
Proof. unfold release, drop_ref; simpl. by intros ->. Qed.

(** ** Copy-on-write *)

Lemma copy_on_write_eq cap v h bd c :
  valid v h → _size v ≤ cap → _size v ≤ length (contents v h) →
  copy_on_write cap (v, mk_world h bd c) =
  if afford bd (_size v) then
    (Done tt,
     (mk_vector (_size v) (Dynamic (fresh (dom h))),
      mk_world (<[fresh (dom h) := mk_storage cap 1 (take (_size v) (contents v h))]>
                  (release v h))
               (spend bd (_size v)) (c + _size v)))
  else (Thrown, (v, thrown_world h bd c)).
Proof.
  intros Hv Hc Hl. unfold copy_on_write, get_copied_storage_this. run.
  unfold size. decide_nat. run.
  rewrite data_const_eq by done. run.
  rewrite get_copied_storage_eq by done.
  destruct (afford bd (_size v)); run; [|by destruct v].
  pose proof (valid_ne_fresh _ _ Hv) as Hne.
  rewrite dec_references_eq by (by apply valid_insert_ne). run.
  by rewrite release_insert_ne.
Qed.

Lemma check_cow_unshared_eq v h bd c :
  valid v h → shared v h = false →
  check_cow N (v, mk_world h bd c) = (Done tt, (v, mk_world h bd c)).
Proof.
  intros Hv Hs. unfold check_cow. run. rewrite copied_eq by done. run.
  rewrite Hs. by destruct v.
Qed.

Lemma data_unshared_eq v h bd c :
  valid v h → shared v h = false →
  data N (v, mk_world h bd c) = (Done tt, (v, mk_world h bd c)).
Proof.
  intros Hv Hs. unfold data. run. destruct (is_small v); [by destruct v|].
  by rewrite check_cow_unshared_eq.
Qed.

Lemma shared_not_small v h : shared v h = true → is_small v = false.
Proof. unfold shared, is_small. by destruct (_store v). Qed.

Lemma data_shared_eq v h bd c :
  valid v h → shared v h = true →
  _size v ≤ cap_of N v h → _size v ≤ length (contents v h) →
  data N (v, mk_world h bd c) =
  if afford bd (_size v) then
    (Done tt,
     (mk_vector (_size v) (Dynamic (fresh (dom h))),
      mk_world (<[fresh (dom h) :=
                    mk_storage (cap_of N v h) 1 (take (_size v) (contents v h))]>
                  (release v h))
               (spend bd (_size v)) (c + _size v)))
  else (Thrown, (v, thrown_world h bd c)).
Proof.
  intros Hv Hs Hc Hl. unfold data. run. rewrite (shared_not_small _ _ Hs).
  unfold check_cow. run. rewrite copied_eq by done. run. rewrite Hs. run.
  rewrite capacity_eq by done. run.
  by rewrite copy_on_write_eq.
Qed.

Lemma socow_vector_from_eq other size cap h bd c :
  valid other h → N < cap → size < cap → size ≤ length (contents other h) →
  socow_vector_from N other size cap (mk_world h bd c) =
  if afford bd size then
    (Done (mk_vector size (Dynamic (fresh (dom h)))),
     mk_world (<[fresh (dom h) := mk_storage cap 1 (take size (contents other h))]> h)
              (spend bd size) (c + size))
  else (Thrown, thrown_world h bd c).
Proof.
  intros Hv H1 H2 H3. unfold socow_vector_from. run. decide_nat. run.
  rewrite data_const_eq by done. run.
  rewrite get_copied_storage_eq by (done || lia).
  by destruct (afford bd size).
Qed.

(** ** push_back without reallocation *)

Lemma push_back_fast_eq fuel x v h bd c :
  0 < fuel →
  valid v h → shared v h = false → _size v < cap_of N v h →
  push_back_fuel N fuel x (v, mk_world h bd c) =
  if afford bd 1 then
    (Done tt,
     (mk_vector (S (_size v))
        (put_store v h (take (_size v) (contents v h) ++ [x])),
      mk_world (put_heap v h (take (_size v) (contents v h) ++ [x]))
               (spend bd 1) (c + 1)))
  else (Thrown, (v, thrown_world h bd c)).
Proof.
  intros Hf Hv Hs Hc. destruct fuel as [|fuel]; [lia|].
  simpl. run. rewrite capacity_eq by done. run.
  unfold size. decide_nat. run. rewrite copied_eq by done. run. rewrite Hs.
  rewrite data_unshared_eq by done. run.
  rewrite copy_construct_eq. destruct (afford bd 1); run; [|by destruct v].
  rewrite update_data_eq by done. done.
Qed.

(** ** Copy assignment from a heap handle *)

Lemma is_small_dyn other q : _store other = Dynamic q → is_small other = false.
Proof. unfold is_small. by intros ->. Qed.

Lemma operator_assign_share_eq fuel other q b v h bd c :
  0 < fuel →
  _store other = Dynamic q →
  valid v h → release v h !! q = Some b →
  operator_assign_fuel N fuel other (v, mk_world h bd c) =
  (Done tt,
   (mk_vector (_size other) (Dynamic q),
    mk_world (<[q := mk_storage (_capacity b) (S (_references b)) (_data b)]>
                (release v h)) bd c)).
Proof.
  intros Hf Hq Hv Hb. destruct fuel as [|fuel]; [lia|].
  simpl. rewrite (is_small_dyn _ _ Hq). run.
  rewrite dec_references_eq by done. run.
  unfold _dynamic_data, inc_references. rewrite Hq. run. rewrite Hb. done.
Qed.

End frames.

Section growth.

Context {T : Type}.
Variable N : nat.
Implicit Types (v other : @socow_vector T) (h : gmap addr (@dynamic_storage T)).
Implicit Types (bd : option nat) (b : @dynamic_storage T) (l from : list T).
Implicit Types (p q : addr) (w : @world T).

(** ** push_back with reallocation *)

Lemma push_back_realloc_eq fuel x v h bd c :
  1 < fuel →
  wf N v h = true → 0 < cap_of N v h →
  _size v = cap_of N v h ∨ shared v h = true →
  push_back_fuel N fuel x (v, mk_world h bd c) =
  if afford bd (_size v + 1) then
    (Done tt,
     (mk_vector (S (_size v)) (Dynamic (fresh (dom h))),
      mk_world (<[fresh (dom h) :=
                    mk_storage (cap_of N v h * 2) 1 (contents v h ++ [x])]>
                  (release v h))
               (spend bd (_size v + 1)) (c + (_size v + 1))))
  else (Thrown, (v, thrown_world h bd c)).
Proof.
  intros Hf Hwf Hpos Hgrow.
  pose proof (wf_valid _ _ _ Hwf) as Hv.
  pose proof (wf_size _ _ _ Hwf) as Hsz.
  pose proof (wf_cap _ _ _ Hwf) as Hcap.
  pose proof (wf_cap_small _ _ _ Hwf) as HN.
  pose proof (valid_ne_fresh _ _ Hv) as Hne.
  destruct fuel as [|f1]; [lia|]. simpl. run.
  rewrite capacity_eq by done. run.
  resolve_if (Done true, (v, mk_world h bd c)).
  { unfold size. destruct (Nat.eqb_spec (_size v) (cap_of N v h)); [done|].
    simpl. rewrite copied_eq by done. destruct Hgrow as [?| ->]; [lia|done]. }
  run. unfold size.
  rewrite socow_vector_from_eq by (done || lia).
  destruct (afford bd (_size v)) eqn:E1; run; [|budget].
  unfold scope. run.
  set (q := fresh (dom h)) in *.
  set (nb := mk_storage (cap_of N v h * 2) 1 (take (_size v) (contents v h))).
  assert (<[q:=nb]> h !! q = Some nb) as Hq by apply lookup_insert_eq.
  rewrite push_back_fast_eq; cycle 1.
  { lia. }
  { by apply (valid_dyn _ _ nb); [|simpl; lia]. }
  { by rewrite (shared_dyn _ _ nb). }
  { rewrite (cap_of_dyn _ _ _ nb) by done. simpl. lia. }
  rewrite (contents_dyn _ _ nb), (put_heap_dyn _ _ nb) by done.
  rewrite insert_insert_eq. simpl.
  rewrite take_take, Nat.min_id, Hsz, firstn_all, <- Hsz.
  destruct (afford (spend bd (_size v)) 1) eqn:E2; run.
  - set (nb' := mk_storage (cap_of N v h * 2) 1 (contents v h ++ [x])).
    rewrite (operator_assign_share_eq _ _ _ q nb'); cycle 1.
    { lia. }
    { done. }
    { by apply valid_insert_ne. }
    { rewrite release_insert_ne by done. apply lookup_insert_eq. }
    run. rewrite release_insert_ne by done. rewrite insert_insert_eq.
    rewrite destroy_eq; cycle 1.
    { eapply valid_dyn; [apply lookup_insert_eq|simpl; lia]. }
    unfold put_store; simpl. erewrite release_dyn by apply lookup_insert_eq. simpl.
    rewrite insert_insert_eq. run.
    rewrite afford_spend in E2 by done. rewrite E2.
    rewrite spend_spend by done. eq_arith.
  - unfold thrown_world. rewrite destroy_eq; cycle 1.
    { by apply (valid_dyn _ _ nb); [|simpl; lia]. }
    rewrite (release_dyn _ _ nb) by done. simpl.
    rewrite delete_insert_id by apply fresh_lookup. run.
    rewrite afford_spend in E2 by done. rewrite E2.
    unfold thrown_world. budget.
Qed.

End growth.

Section shrinking.

Context {T : Type}.
Variable N : nat.
Implicit Types (v other : @socow_vector T) (h : gmap addr (@dynamic_storage T)).
Implicit Types (bd : option nat) (b : @dynamic_storage T) (l from : list T).
Implicit Types (p q : addr) (w : @world T).

Lemma vector_eta v : mk_vector (_size v) (_store v) = v.
Proof. by destruct v. Qed.

Lemma shared_true_inv v h :
  shared v h = true →
  ∃ p b, _store v = Dynamic p ∧ h !! p = Some b ∧ 1 < _references b.
Proof.
  unfold shared. destruct (_store v) as [l|p] eqn:E; [done|].
  destruct (h !! p) as [b|] eqn:E'; [|done]. intros H%Nat.ltb_lt.
  exists p, b. done.
Qed.

(** ** swap *)

Lemma swap_heap_heap_eq fuel v other w :
  0 < fuel → is_small v = false → is_small other = false →
  swap_fuel N fuel (other, (v, w)) = (Done tt, (v, (other, w))).
Proof.
  intros Hf Hv Ho. destruct fuel as [|f]; [lia|]. simpl. run.
  rewrite Hv, Ho. run.
  destruct v as [n [l|p]]; [done|]. destruct other as [m [l|q]]; [done|].
  unfold _dynamic_data. run. done.
Qed.

Lemma swap_heap_small_eq fuel v other l h bd c :
  1 < fuel → is_small v = false → _store other = Static l →
  _size other ≤ length l →
  swap_fuel N fuel (other, (v, mk_world h bd c)) =
  if afford bd (_size other) then
    (Done tt,
     (mk_vector (_size v) (_store v),
      (mk_vector (_size other) (Static (take (_size other) l)),
       mk_world h (spend bd (_size other)) (c + _size other))))
  else (Thrown, (other, (v, thrown_world h bd c))).
Proof.
  intros Hf Hv Ho Hl. destruct fuel as [|[|f]]; [lia|lia|].
  assert (is_small other = true) as Hos by (unfold is_small; by rewrite Ho).
  simpl. run. rewrite Hv, Hos. run. rewrite Hv, Hos. run.
  destruct v as [n [l'|p]]; [done|]. destruct other as [m [l'|q]]; [|done].
  simpl in *. simplify_eq. unfold _dynamic_data, _static_data. run.
  rewrite uninitialized_copy_n_eq by done.
  destruct (afford bd m); run; done.
Qed.

(** ** pop_back *)

Lemma pop_back_in_place_eq v h bd c :
  valid v h → shared v h = false → 0 < _size v →
  pop_back N (v, mk_world h bd c) =
  (Done tt,
   (mk_vector (_size v - 1) (put_store v h (take (_size v - 1) (contents v h))),
    mk_world (put_heap v h (take (_size v - 1) (contents v h))) bd c)).
Proof.
  intros Hv Hs Hn. unfold pop_back. run. unfold size. decide_nat. run.
  rewrite copied_eq by done. run. rewrite Hs.
  rewrite data_unshared_eq by done. run.
  rewrite update_data_eq by done. done.
Qed.

Lemma pop_back_shared_eq v h bd c :
  wf N v h = true → shared v h = true → 0 < _size v →
  pop_back N (v, mk_world h bd c) =
  if afford bd (_size v - 1) then
    (Done tt,
     (mk_vector (_size v - 1) (Dynamic (fresh (dom h))),
      mk_world (<[fresh (dom h) :=
                    mk_storage (cap_of N v h) 1 (take (_size v - 1) (contents v h))]>
                  (release v h))
               (spend bd (_size v - 1)) (c + (_size v - 1))))
  else (Thrown, (v, thrown_world h bd c)).
Proof.
  intros Hwf Hs Hn.
  pose proof (wf_valid _ _ _ Hwf) as Hv.
  pose proof (wf_size _ _ _ Hwf) as Hsz.
  pose proof (wf_cap _ _ _ Hwf) as Hcap.
  pose proof (wf_cap_heap _ _ _ Hwf (shared_not_small _ _ Hs)) as HN.
  pose proof (valid_ne_fresh _ _ Hv) as Hne.
  unfold pop_back. run. unfold size. decide_nat. run.
  rewrite copied_eq by done. run. rewrite Hs. run.
  rewrite capacity_eq by done. run.
  rewrite socow_vector_from_eq by (done || lia).
  destruct (afford bd (_size v - 1)); run; [|done].
  unfold scope, swap.
  rewrite swap_heap_heap_eq by (done || lia || by apply shared_not_small in Hs).
  run. rewrite destroy_eq by (by apply valid_insert_ne).
  run. by rewrite release_insert_ne.
Qed.

(** ** shrink_big_to_small, reserve, shrink_to_fit *)

Lemma shrink_big_to_small_eq v h bd c :
  valid v h → is_small v = false → _size v ≤ length (contents v h) →
  shrink_big_to_small (v, mk_world h bd c) =
  if afford bd (_size v) then
    (Done tt,
     (mk_vector (_size v) (Static (take (_size v) (contents v h))),
      mk_world (release v h) (spend bd (_size v)) (c + _size v)))
  else (Thrown, (v, thrown_world h bd c)).
Proof.
  intros Hv Hs Hl. destruct v as [n [l|p]]; [done|].
  destruct Hv as (b & Hp & Hr). simpl in *.
  unfold shrink_big_to_small, contents, release in *. simpl in *.
  rewrite Hp in *. unfold _dynamic_data. run. rewrite Hp. run. unfold size; simpl.
  rewrite uninitialized_copy_n_eq by done.
  destruct (afford bd n); run; [|done].
  by rewrite (dec_references_at_eq _ _ _ _ _ b).
Qed.

Lemma reserve_less_eq new_capacity v w :
  new_capacity < _size v →
  reserve N new_capacity (v, w) = (Done tt, (v, w)).
Proof. intros H. unfold reserve. run. unfold size. decide_nat. done. Qed.

Lemma reserve_small_eq new_capacity v w :
  is_small v = true → new_capacity ≤ N →
  reserve N new_capacity (v, w) = (Done tt, (v, w)).
Proof.
  intros Hs H. unfold reserve. run. rewrite Hs. decide_nat. run.
  by destruct (new_capacity <? _size v).
Qed.

Lemma references_eq v h bd c p b :
  _store v = Dynamic p → h !! p = Some b →
  references v (mk_world h bd c) = (Done (_references b), mk_world h bd c).
Proof.
  intros Hv Hp. unfold references, _dynamic_data. rewrite Hv. run. by rewrite Hp.
Qed.

Lemma reserve_to_small_eq new_capacity v h bd c :
  valid v h → shared v h = true →
  _size v ≤ new_capacity → new_capacity ≤ N → _size v ≤ length (contents v h) →
  reserve N new_capacity (v, mk_world h bd c) =
  if afford bd (_size v) then
    (Done tt,
     (mk_vector (_size v) (Static (take (_size v) (contents v h))),
      mk_world (release v h) (spend bd (_size v)) (c + _size v)))
  else (Thrown, (v, thrown_world h bd c)).
Proof.
  intros Hv Hs H1 H2 H3.
  destruct (shared_true_inv _ _ Hs) as (p & b & Hst & Hp & Hr).
  unfold reserve. run. unfold size. decide_nat. run.
  rewrite (shared_not_small _ _ Hs). run.
  rewrite (references_eq _ _ _ _ p b) by done. run. decide_nat. run.
  rewrite shrink_big_to_small_eq by (done || by eapply shared_not_small).
  done.
Qed.

Lemma reserve_realloc_eq new_capacity v h bd c :
  valid v h → _size v ≤ new_capacity → _size v ≤ length (contents v h) →
  (is_small v = true ∧ N < new_capacity)
  ∨ (shared v h = true ∧ N < new_capacity)
  ∨ (is_small v = false ∧ shared v h = false ∧ cap_of N v h < new_capacity) →
  reserve N new_capacity (v, mk_world h bd c) =
  if afford bd (_size v) then
    (Done tt,
     (mk_vector (_size v) (Dynamic (fresh (dom h))),
      mk_world (<[fresh (dom h) :=
                    mk_storage new_capacity 1 (take (_size v) (contents v h))]>
                  (release v h))
               (spend bd (_size v)) (c + _size v)))
  else (Thrown, (v, thrown_world h bd c)).
Proof.
  intros Hv H1 H2 Hcase.
  unfold reserve. run. unfold size. decide_nat. run.
  destruct Hcase as [[Hs HN]|[[Hs HN]|(Hns & Hs & Hc)]].
  - rewrite Hs. decide_nat. run. by rewrite copy_on_write_eq.
  - destruct (shared_true_inv _ _ Hs) as (p & b & Hst & Hp & Hr).
    rewrite (shared_not_small _ _ Hs). run.
    rewrite (references_eq _ _ _ _ p b) by done. run. decide_nat. run.
    rewrite (references_eq _ _ _ _ p b) by done. run. decide_nat. run.
    by rewrite copy_on_write_eq.
  - rewrite Hns. run. destruct v as [n [l|p]]; [done|].
    destruct Hv as (b & Hp & Hr). unfold shared, cap_of in *. simpl in *.
    rewrite Hp in *. apply Nat.ltb_ge in Hs.
    rewrite (references_eq _ _ _ _ p b) by done. run. decide_nat. run.
    rewrite (references_eq _ _ _ _ p b) by done. run. decide_nat. run.
    rewrite capacity_eq by (by exists b). run.
    unfold cap_of; simpl. rewrite Hp. decide_nat. run.
    rewrite copy_on_write_eq; [|by exists b|done|done].
    unfold contents, release; simpl. by rewrite Hp.
Qed.

Lemma reserve_exclusive_eq new_capacity v h bd c :
  valid v h → is_small v = false → shared v h = false →
  new_capacity ≤ cap_of N v h →
  reserve N new_capacity (v, mk_world h bd c) = (Done tt, (v, mk_world h bd c)).
Proof.
  intros Hv Hns Hs Hc. unfold reserve. run. rewrite Hns. run.
  destruct (new_capacity <? _size v); [done|].
  destruct v as [n [l|p]]; [done|].
  destruct Hv as (b & Hp & Hr). unfold shared, cap_of in *. simpl in *.
  rewrite Hp in *. apply Nat.ltb_ge in Hs.
  rewrite (references_eq _ _ _ _ p b) by done. run. decide_nat. run.
  rewrite (references_eq _ _ _ _ p b) by done. run. decide_nat. run.
  rewrite capacity_eq by (by exists b). run.
  unfold cap_of; simpl. rewrite Hp. decide_nat. run. done.
Qed.

Lemma shrink_to_fit_keep_eq v h bd c :
  valid v h → _size v = cap_of N v h ∨ is_small v = true →
  shrink_to_fit N (v, mk_world h bd c) = (Done tt, (v, mk_world h bd c)).
Proof.
  intros Hv Hc. unfold shrink_to_fit. run. rewrite capacity_eq by done. run.
  unfold size. destruct Hc as [<-| ->]; [rewrite Nat.eqb_refl|]; run; done.
Qed.

Lemma shrink_to_fit_small_eq v h bd c :
  valid v h → _size v ≠ cap_of N v h → is_small v = false → _size v ≤ N →
  _size v ≤ length (contents v h) →
  shrink_to_fit N (v, mk_world h bd c) =
  if afford bd (_size v) then
    (Done tt,
     (mk_vector (_size v) (Static (take (_size v) (contents v h))),
      mk_world (release v h) (spend bd (_size v)) (c + _size v)))
  else (Thrown, (v, thrown_world h bd c)).
Proof.
  intros Hv Hc Hs HN Hl. unfold shrink_to_fit. run.
  rewrite capacity_eq by done. run. unfold size. rewrite Hs. decide_nat. run.
  by rewrite shrink_big_to_small_eq.
Qed.

Lemma shrink_to_fit_realloc_eq v h bd c :
  valid v h → _size v ≠ cap_of N v h → is_small v = false → N < _size v →
  _size v ≤ length (contents v h) →
  shrink_to_fit N (v, mk_world h bd c) =
  if afford bd (_size v) then
    (Done tt,
     (mk_vector (_size v) (Dynamic (fresh (dom h))),
      mk_world (<[fresh (dom h) :=
                    mk_storage (_size v) 1 (take (_size v) (contents v h))]>
                  (release v h))
               (spend bd (_size v)) (c + _size v)))
  else (Thrown, (v, thrown_world h bd c)).
Proof.
  intros Hv Hc Hs HN Hl. unfold shrink_to_fit. run.
  rewrite capacity_eq by done. run. unfold size. rewrite Hs. decide_nat. run.
  by rewrite copy_on_write_eq.
Qed.

End shrinking.

Section in_place.

Context {T : Type}.
Variable N : nat.
Implicit Types (v other : @socow_vector T) (h : gmap addr (@dynamic_storage T)).
Implicit Types (bd : option nat) (b : @dynamic_storage T) (l from : list T).
Implicit Types (p q : addr) (w : @world T).

(** ** A handle after an update of its array *)

Lemma put_valid v h l m :
  valid v h → valid (mk_vector m (put_store v h l)) (put_heap v h l).
Proof.
  destruct v as [n [l0|p]]; [done|]. intros (b & Hp & Hr).
  unfold valid, put_store, put_heap; simpl. rewrite Hp.
  eexists. by rewrite lookup_insert_eq.
Qed.

Lemma put_shared v h l m :
  valid v h → shared (mk_vector m (put_store v h l)) (put_heap v h l) = shared v h.
Proof.
  destruct v as [n [l0|p]]; [done|]. intros (b & Hp & Hr).
  unfold shared, put_store, put_heap; simpl. rewrite Hp.
  by rewrite lookup_insert_eq.
Qed.

Lemma put_contents v h l m :
  valid v h → contents (mk_vector m (put_store v h l)) (put_heap v h l) = l.
Proof.
  destruct v as [n [l0|p]]; [done|]. intros (b & Hp & Hr).
  unfold contents, put_store, put_heap; simpl. rewrite Hp.
  by rewrite lookup_insert_eq.
Qed.

Lemma put_cap_of v h l m :
  valid v h → cap_of N (mk_vector m (put_store v h l)) (put_heap v h l) = cap_of N v h.
Proof.
  destruct v as [n [l0|p]]; [done|]. intros (b & Hp & Hr).
  unfold cap_of, put_store, put_heap; simpl. rewrite Hp.
  by rewrite lookup_insert_eq.
Qed.

Lemma put_put_store v h l l' m :
  put_store (mk_vector m (put_store v h l)) (put_heap v h l) l' = put_store v h l'.
Proof. by destruct v as [n [l0|p]]. Qed.

Lemma put_put_heap v h l l' m :
  valid v h →
  put_heap (mk_vector m (put_store v h l)) (put_heap v h l) l' = put_heap v h l'.
Proof.
  destruct v as [n [l0|p]]; [done|]. intros (b & Hp & Hr).
  unfold put_store, put_heap; simpl. rewrite Hp.
  by rewrite lookup_insert_eq, insert_insert_eq.
Qed.

Lemma put_is_small v h l m :
  is_small (mk_vector m (put_store v h l)) = is_small v.
Proof. by destruct v as [n [l0|p]]. Qed.

(** Releasing an exclusively owned handle forgets what its array held. *)
Lemma put_release v h l m :
  valid v h → shared v h = false →
  release (mk_vector m (put_store v h l)) (put_heap v h l) = release v h.
Proof.
  destruct v as [n [l0|p]]; [done|]. intros (b & Hp & Hr) Hs.
  unfold shared, release, drop_ref, put_store, put_heap in *; simpl in *.
  rewrite Hp in *. rewrite lookup_insert_eq. simpl.
  apply Nat.ltb_ge in Hs. assert (_references b = 1) as -> by lia.
  by rewrite delete_insert_eq.
Qed.

(** A handle whose storage is not the one that is updated. *)
Definition apart (v nv : @socow_vector T) : Prop :=
  ∀ q, _store nv = Dynamic q → _store v ≠ Dynamic q.

Lemma apart_static v nv l : _store nv = Static l → apart v nv.
Proof. intros H q. by rewrite H. Qed.

Lemma apart_fresh v h n : valid v h → apart v (mk_vector n (Dynamic (fresh (dom h)))).
Proof. intros Hv q [= <-]. by apply valid_ne_fresh. Qed.

Lemma apart_put v nv h l m :
  apart v nv → apart v (mk_vector m (put_store nv h l)).
Proof. destruct nv as [n [l0|p]]; [done|]. intros H q. apply H. Qed.

Lemma put_valid_apart v nv h l :
  apart v nv → valid v h → valid v (put_heap nv h l).
Proof.
  intros Ha Hv. unfold put_heap. destruct (_store nv) as [l0|q] eqn:E; [done|].
  destruct (h !! q); [|done]. apply valid_insert_ne; [done|]. by apply Ha.
Qed.

Lemma put_contents_apart v nv h l :
  apart v nv → contents v (put_heap nv h l) = contents v h.
Proof.
  intros Ha. unfold put_heap. destruct (_store nv) as [l0|q] eqn:E; [done|].
  destruct (h !! q); [|done]. apply contents_insert_ne. by apply Ha.
Qed.

(** ** clear *)

Lemma pops_eq k i v h bd c :
  valid v h → shared v h = false → S k ≤ _size v →
  for_up (S k) i (λ _, pop_back N) (v, mk_world h bd c) =
  (Done tt,
   (mk_vector (_size v - S k) (put_store v h (take (_size v - S k) (contents v h))),
    mk_world (put_heap v h (take (_size v - S k) (contents v h))) bd c)).
Proof.
  revert i v h. induction k as [|k IH]; intros i v h Hv Hs Hk.
  - simpl. run. rewrite pop_back_in_place_eq by (done || lia). done.
  - rewrite for_up_S. unfold bind at 1.
    rewrite pop_back_in_place_eq by (done || lia).
    rewrite IH; cycle 1.
    { by apply put_valid. }
    { by rewrite put_shared. }
    { simpl. lia. }
    simpl. rewrite put_put_store, put_put_heap, put_contents by done.
    rewrite take_take.
    replace ((_size v - 1 - S k) `min` (_size v - 1)) with (_size v - 1 - S k) by lia.
    replace (_size v - 1 - S k) with (_size v - S (S k)) by lia. done.
Qed.

Lemma put_same_heap v h :
  valid v h → put_heap v h (contents v h) = h.
Proof.
  destruct v as [n [l0|p]]; [done|]. intros (b & Hp & Hr).
  unfold contents, put_heap; simpl. rewrite Hp. apply insert_id.
  rewrite Hp. by destruct b.
Qed.

Lemma clear_in_place_eq v h bd c :
  wf N v h = true → shared v h = false →
  clear N (v, mk_world h bd c) =
  (Done tt,
   (mk_vector 0 (put_store v h []), mk_world (put_heap v h []) bd c)).
Proof.
  intros Hwf Hs.
  pose proof (wf_valid _ _ _ Hwf) as Hv.
  pose proof (wf_size _ _ _ Hwf) as Hsz.
  unfold clear. run.
  resolve_if (Done true, (v, mk_world h bd c)).
  { destruct v as [n [l|p]]; [done|]. destruct Hv as (b & Hp & Hr).
    unfold is_small; simpl.
    rewrite (references_eq _ _ _ _ p b) by done.
    unfold shared in Hs; simpl in Hs. rewrite Hp in Hs.
    apply Nat.ltb_ge in Hs. by decide_nat. }
  run. destruct (_size v) as [|k] eqn:En.
  - symmetry in Hsz. apply nil_length_inv in Hsz.
    simpl. run. rewrite <- Hsz at 2. rewrite put_same_heap by done.
    destruct v as [n [l|p]]; unfold contents, put_store in *; simpl in *; by simplify_eq.
  - rewrite pops_eq by (done || lia). rewrite En, Nat.sub_diag. done.
Qed.

Lemma clear_shared_eq v h bd c :
  valid v h → shared v h = true →
  clear N (v, mk_world h bd c) =
  (Done tt, (mk_vector 0 (Static []), mk_world (release v h) bd c)).
Proof.
  intros Hv Hs.
  destruct (shared_true_inv _ _ Hs) as (p & b & Hst & Hp & Hr).
  unfold clear. run. rewrite (shared_not_small _ _ Hs). run.
  rewrite (references_eq _ _ _ _ p b) by done. run. decide_nat. run.
  rewrite dec_references_eq by done. done.
Qed.

(** ** Mutable element access *)

Lemma assign_at_in_place_eq i x v h bd c :
  valid v h → shared v h = false → i < _size v →
  assign_at N i x (v, mk_world h bd c) =
  (Done tt,
   (mk_vector (_size v) (put_store v h (<[i:=x]> (contents v h))),
    mk_world (put_heap v h (<[i:=x]> (contents v h))) bd c)).
Proof.
  intros Hv Hs Hi. unfold assign_at, index_mut. run. decide_nat. run.
  rewrite data_unshared_eq by done. run.
  by rewrite update_data_eq.
Qed.

Lemma assign_at_shared_eq i x v h bd c :
  wf N v h = true → shared v h = true → i < _size v →
  assign_at N i x (v, mk_world h bd c) =
  if afford bd (_size v) then
    (Done tt,
     (mk_vector (_size v) (Dynamic (fresh (dom h))),
      mk_world (<[fresh (dom h) :=
                    mk_storage (cap_of N v h) 1 (<[i:=x]> (contents v h))]>
                  (release v h))
               (spend bd (_size v)) (c + _size v)))
  else (Thrown, (v, thrown_world h bd c)).
Proof.
  intros Hwf Hs Hi.
  pose proof (wf_valid _ _ _ Hwf) as Hv.
  pose proof (wf_size _ _ _ Hwf) as Hsz.
  pose proof (wf_cap _ _ _ Hwf) as Hcap.
  unfold assign_at, index_mut. run. decide_nat. run.
  rewrite data_shared_eq by (done || lia).
  destruct (afford bd (_size v)); run; [|done].
  rewrite update_data_eq by (eapply valid_dyn; [apply lookup_insert_eq|simpl; lia]).
  erewrite contents_dyn, put_heap_dyn by apply lookup_insert_eq.
  rewrite insert_insert_eq. simpl.
  by rewrite Hsz, firstn_all.
Qed.

End in_place.

Section filling.

Context {T : Type}.
Variable N : nat.
Implicit Types (v other src nv : @socow_vector T) (h : gmap addr (@dynamic_storage T)).
Implicit Types (bd : option nat) (b : @dynamic_storage T) (l from xs : list T).
Implicit Types (p q : addr) (w : @world T).

(** ** Filling a fresh vector, one push_back per element *)

(** The body of the loops that fill a temporary: [tmp.push_back(src[i])]. *)
Definition push_from src (fuel i : nat) : @method2 T unit :=
  x <- lift (lift (at_const src i)) ;;
  on_local (push_back_fuel N fuel x).

Definition pushed_vec nv h xs : @socow_vector T :=
  mk_vector (_size nv + length xs) (put_store nv h (contents nv h ++ xs)).

Definition pushed_heap nv h xs : gmap addr (@dynamic_storage T) :=
  put_heap nv h (contents nv h ++ xs).

Lemma pushed_vec_nil nv h : pushed_vec nv h [] = nv.
Proof.
  unfold pushed_vec, put_store, contents. destruct nv as [n [l|p]]; simpl.
  - by rewrite Nat.add_0_r, app_nil_r.
  - by rewrite Nat.add_0_r.
Qed.

Lemma pushed_heap_nil nv h : valid nv h → pushed_heap nv h [] = h.
Proof. intros Hv. unfold pushed_heap. rewrite app_nil_r. by apply put_same_heap. Qed.

Lemma push_loop_eq fuel body src v k :
  0 < fuel →
  (∀ j nv' w', body j (nv', (v, w')) = push_from src fuel j (nv', (v, w'))) →
  ∀ i nv h bd c,
  valid src h → apart src nv → valid nv h → shared nv h = false →
  _size nv = length (contents nv h) → _size nv + k ≤ cap_of N nv h →
  i + k ≤ _size src → _size src ≤ length (contents src h) →
  for_up k i body (nv, (v, mk_world h bd c)) =
  if afford bd k then
    (Done tt,
     (pushed_vec nv h (take k (drop i (contents src h))),
      (v, mk_world (pushed_heap nv h (take k (drop i (contents src h))))
                   (spend bd k) (c + k))))
  else
    (Thrown,
     (pushed_vec nv h (take (default 0 bd) (drop i (contents src h))),
      (v, thrown_world
            (pushed_heap nv h (take (default 0 bd) (drop i (contents src h))))
            bd c))).
Proof.
  intros Hf Hbody. induction k as [|k IH];
    intros i nv h bd c Hsrc Hap Hnv Hs Hsz Hcap Hik Hlen.
  - rewrite for_up_0, afford_0. rewrite take_0, pushed_vec_nil, pushed_heap_nil by done.
    rewrite spend_0. eq_arith.
  - rewrite for_up_S. unfold bind at 1. rewrite Hbody. unfold push_from.
    destruct (lookup_lt_is_Some_2 (contents src h) i) as [x Hx]; [lia|].
    run. rewrite (at_const_eq _ _ x) by (done || lia). run.
    rewrite push_back_fast_eq by (done || lia).
    rewrite Hsz, firstn_all, <- Hsz.
    assert (∀ j, take (S j) (drop i (contents src h))
                 = x :: take j (drop (S i) (contents src h))) as Htake.
    { intros j. by rewrite (drop_S _ x) by done. }
    destruct (afford bd 1) eqn:E1; run.
    + rewrite IH; cycle 1.
      { by apply put_valid_apart. }
      { by apply apart_put. }
      { by apply put_valid. }
      { by rewrite put_shared. }
      { rewrite put_contents by done. rewrite length_app. simpl. lia. }
      { rewrite put_cap_of by done. simpl. lia. }
      { lia. }
      { by rewrite put_contents_apart. }
      rewrite put_contents_apart by done.
      unfold pushed_vec, pushed_heap.
      rewrite !put_put_store, !put_put_heap, !put_contents by done.
      rewrite afford_spend by done. rewrite !Htake. simpl.
      rewrite <- !app_assoc. simpl.
      destruct (afford bd (1 + k)) eqn:E2.
      * rewrite spend_spend by done.
        replace (afford bd (S k)) with true by (by rewrite <- E2).
        rewrite !length_take, !length_drop.
        eq_arith.
      * replace (afford bd (S k)) with false by (by rewrite <- E2).
        destruct bd as [n|]; [|done]. simpl in *.
        apply Nat.leb_le in E1. destruct n as [|n]; [lia|].
        replace (S n - 1) with n by lia. rewrite Htake. simpl.
        unfold thrown_world. simpl. eq_arith.
    + destruct bd as [[|n]|]; try done. simpl.
      rewrite take_0, pushed_vec_nil, pushed_heap_nil by done. done.
Qed.

Lemma push_loop_dyn_eq fuel body src v k i m q cq lq h bd c :
  0 < fuel →
  (∀ j nv' w', body j (nv', (v, w')) = push_from src fuel j (nv', (v, w'))) →
  valid src h → _store src ≠ Dynamic q →
  m = length lq → m + k ≤ cq →
  i + k ≤ _size src → _size src ≤ length (contents src h) →
  for_up k i body
    (mk_vector m (Dynamic q), (v, mk_world (<[q := mk_storage cq 1 lq]> h) bd c)) =
  if afford bd k then
    (Done tt,
     (mk_vector (m + k) (Dynamic q),
      (v, mk_world (<[q := mk_storage cq 1 (lq ++ take k (drop i (contents src h)))]> h)
                   (spend bd k) (c + k))))
  else
    (Thrown,
     (mk_vector (m + length (take (default 0 bd) (drop i (contents src h)))) (Dynamic q),
      (v, thrown_world
            (<[q := mk_storage cq 1
                      (lq ++ take (default 0 bd) (drop i (contents src h)))]> h)
            bd c))).
Proof.
  intros Hf Hbody Hsrc Hne -> Hcap Hik Hlen.
  set (nb := mk_storage cq 1 lq).
  assert (<[q:=nb]> h !! q = Some nb) as Hq by apply lookup_insert_eq.
  rewrite (push_loop_eq fuel body src v k Hf Hbody); cycle 1.
  { by apply valid_insert_ne. }
  { intros q' [= <-]. done. }
  { by apply (valid_dyn _ _ nb); [|simpl; lia]. }
  { by rewrite (shared_dyn _ _ nb). }
  { by rewrite (contents_dyn _ _ nb). }
  { by rewrite (cap_of_dyn _ _ _ nb). }
  { done. }
  { by rewrite contents_insert_ne. }
  unfold pushed_vec, pushed_heap.
  rewrite !(put_heap_dyn _ _ nb), !(contents_dyn _ _ nb) by done.
  rewrite !insert_insert_eq, contents_insert_ne by done.
  unfold put_store. simpl.
  destruct (afford bd k); [|done].
  rewrite length_take, length_drop. eq_arith.
Qed.

Lemma push_loop_static_eq fuel body src v k i m lq h bd c :
  0 < fuel →
  (∀ j nv' w', body j (nv', (v, w')) = push_from src fuel j (nv', (v, w'))) →
  valid src h →
  m = length lq → m + k ≤ N →
  i + k ≤ _size src → _size src ≤ length (contents src h) →
  for_up k i body (mk_vector m (Static lq), (v, mk_world h bd c)) =
  if afford bd k then
    (Done tt,
     (mk_vector (m + k) (Static (lq ++ take k (drop i (contents src h)))),
      (v, mk_world h (spend bd k) (c + k))))
  else
    (Thrown,
     (mk_vector (m + length (take (default 0 bd) (drop i (contents src h))))
                (Static (lq ++ take (default 0 bd) (drop i (contents src h)))),
      (v, thrown_world h bd c))).
Proof.
  intros Hf Hbody Hsrc -> Hcap Hik Hlen.
  rewrite (push_loop_eq fuel body src v k Hf Hbody); try done.
  set (cs := contents src h) in *.
  unfold pushed_vec, pushed_heap, put_store, put_heap, contents. simpl.
  destruct (afford bd k); [|done].
  rewrite length_take, length_drop. eq_arith.
Qed.

Lemma push_back_from_receiver_eq j nv v w :
  push_back_from_receiver N j (nv, (v, w)) = push_from v 3 j (nv, (v, w)).
Proof. reflexivity. Qed.

End filling.

Section inserting.

Context {T : Type}.
Variable N : nat.
Implicit Types (v other src nv : @socow_vector T) (h : gmap addr (@dynamic_storage T)).
Implicit Types (bd : option nat) (b : @dynamic_storage T) (l from xs : list T).
Implicit Types (p q : addr) (w : @world T).

Lemma destroy_fresh_eq m q cq lq h bd c :
  h !! q = None →
  destroy (mk_vector m (Dynamic q)) (mk_world (<[q := mk_storage cq 1 lq]> h) bd c)
  = (Done tt, mk_world h bd c).
Proof.
  intros Hq. rewrite destroy_eq by (eapply valid_dyn; [apply lookup_insert_eq|simpl; lia]).
  erewrite release_dyn by apply lookup_insert_eq. simpl.
  by rewrite delete_insert_id.
Qed.

Lemma destroy_static_eq m l w :
  destroy (mk_vector m (Static l)) w = (Done tt, w).
Proof. destruct w. by rewrite destroy_eq. Qed.

Lemma release_new h : release (@socow_vector_new T) h = h.
Proof. done. Qed.

(** ** insert with reallocation *)

Lemma insert_realloc_eq pos x v h bd c :
  wf N v h = true → 0 < cap_of N v h → pos ≤ _size v →
  _size v = cap_of N v h ∨ shared v h = true →
  insert N pos x (v, mk_world h bd c) =
  if afford bd (_size v + 1) then
    (Done pos,
     (mk_vector (S (_size v)) (Dynamic (fresh (dom h))),
      mk_world (<[fresh (dom h) :=
                    mk_storage (if shared v h then cap_of N v h + 1 else 2 * cap_of N v h)
                      1 (take pos (contents v h) ++ x :: drop pos (contents v h))]>
                  (release v h))
               (spend bd (_size v + 1)) (c + (_size v + 1))))
  else (Thrown, (v, thrown_world h bd c)).
Proof.
  intros Hwf Hpos Hp Hgrow.
  pose proof (wf_valid _ _ _ Hwf) as Hv.
  pose proof (wf_size _ _ _ Hwf) as Hsz.
  pose proof (wf_cap _ _ _ Hwf) as Hcap.
  pose proof (wf_cap_small _ _ _ Hwf) as HN.
  pose proof (valid_ne_fresh _ _ Hv) as Hne.
  unfold insert. run. rewrite capacity_eq by done. run.
  resolve_if (Done true, (v, mk_world h bd c)).
  { destruct (Nat.eqb_spec (_size v) (cap_of N v h)); [done|].
    simpl. rewrite copied_eq by done. destruct Hgrow as [?| ->]; [lia|done]. }
  run. rewrite copied_eq by done. run.
  set (c' := if shared v h then cap_of N v h + 1 else 2 * cap_of N v h).
  assert (N < c' ∧ _size v + 1 ≤ c') as [HNc Hc'].
  { unfold c'. destruct (shared v h); lia. }
  set (q := fresh (dom h)) in *.
  assert (h !! q = None) as Hq by apply fresh_lookup.
  unfold scope. run.
  rewrite reserve_realloc_eq; [|done|simpl; lia|simpl; lia|by left].
  simpl. rewrite afford_0, spend_0, Nat.add_0_r, release_new. run.
  fold q.
  rewrite (@push_loop_dyn_eq T N 3 (push_back_from_receiver N) v v pos 0 0);
    [|lia|intros; apply push_back_from_receiver_eq|done|done|done|lia|lia|lia].
  rewrite !drop_0.
  destruct (afford bd pos) eqn:E1; run;
    [|unfold thrown_world; rewrite destroy_fresh_eq by done; run; budget].
  unfold push_back.
  rewrite push_back_fast_eq; cycle 1.
  { lia. }
  { eapply valid_dyn; [apply lookup_insert_eq|simpl; lia]. }
  { by erewrite shared_dyn by apply lookup_insert_eq. }
  { erewrite cap_of_dyn by apply lookup_insert_eq. simpl. lia. }
  erewrite contents_dyn, put_heap_dyn by apply lookup_insert_eq.
  rewrite insert_insert_eq. unfold put_store. simpl.
  rewrite firstn_all2 by (rewrite length_take; lia).
  destruct (afford (spend bd pos) 1) eqn:E2; run;
    [|unfold thrown_world; rewrite destroy_fresh_eq by done; run;
      rewrite afford_spend in E2 by done; budget].
  rewrite (@push_loop_dyn_eq T N 3 (push_back_from_receiver N) v v (_size v - pos) pos (S pos));
    [|lia|intros; apply push_back_from_receiver_eq|done|done
     |rewrite length_app, length_take; simpl; lia|lia|lia|lia].
  rewrite afford_spend in E2 by done.
  destruct (afford (spend (spend bd pos) 1) (_size v - pos)) eqn:E3; run.
  - set (l' := (take pos (contents v h) ++ [x]) ++ take (_size v - pos) (drop pos (contents v h))).
    unfold operator_assign.
    rewrite (operator_assign_share_eq _ _ _ q (mk_storage c' 1 l')); cycle 1.
    { lia. }
    { done. }
    { by apply valid_insert_ne. }
    { rewrite release_insert_ne by done. apply lookup_insert_eq. }
    run. rewrite release_insert_ne by done. rewrite insert_insert_eq.
    rewrite destroy_eq by (eapply valid_dyn; [apply lookup_insert_eq|simpl; lia]).
    erewrite release_dyn by apply lookup_insert_eq. simpl.
    rewrite insert_insert_eq. run.
    rewrite data_unshared_eq; cycle 1.
    { eapply valid_dyn; [apply lookup_insert_eq|simpl; lia]. }
    { by erewrite shared_dyn by apply lookup_insert_eq. }
    run. unfold l'. rewrite <- app_assoc. simpl.
    rewrite (firstn_all2 (drop pos (contents v h)))
      by (rewrite length_drop; lia).
    clear -E1 E2 E3 Hp. budget.
  - unfold thrown_world. rewrite destroy_fresh_eq by done. run.
    clear -E1 E2 E3 Hp. budget.
Qed.

(** ** insert without reallocation *)

(** The array after the loop that moves the new last element down to
    [lo] by [k] adjacent swaps. *)
Fixpoint bubble (lo k : nat) (l : list T) : list T :=
  match k with
  | 0 => l
  | S k' => bubble lo k' (swap_slots (lo + S k') (lo + S k' - 1) l)
  end.

Lemma swap_slots_adjacent pre (y x : T) suf :
  swap_slots (length pre + 1) (length pre + 1 - 1) (pre ++ y :: x :: suf)
  = pre ++ x :: y :: suf.
Proof.
  unfold swap_slots. replace (length pre + 1 - 1) with (length pre) by lia.
  rewrite lookup_app_r by lia.
  replace (length pre + 1 - length pre) with 1 by lia. simpl.
  rewrite list_lookup_middle by done.
  rewrite insert_app_r_alt by lia.
  replace (length pre + 1 - length pre) with 1 by lia. simpl.
  rewrite insert_app_r_alt by lia. rewrite Nat.sub_diag. done.
Qed.

Lemma bubble_spec pre mid (x : T) suf :
  bubble (length pre) (length mid) (pre ++ mid ++ x :: suf)
  = pre ++ x :: mid ++ suf.
Proof.
  revert suf. induction mid as [|y mid IH] using rev_ind; intros suf; [done|].
  rewrite length_app. simpl. rewrite Nat.add_1_r. simpl.
  rewrite <- !app_assoc. simpl.
  replace (pre ++ mid ++ y :: x :: suf) with ((pre ++ mid) ++ y :: x :: suf)
    by (by rewrite <- app_assoc).
  replace (length pre + S (length mid)) with (length (pre ++ mid) + 1)
    by (rewrite length_app; lia).
  rewrite swap_slots_adjacent. rewrite <- app_assoc. apply IH.
Qed.

Lemma bubble_insert l pos (x : T) :
  pos ≤ length l →
  bubble pos (length l - pos) (l ++ [x]) = take pos l ++ x :: drop pos l.
Proof.
  intros Hp.
  pose proof (bubble_spec (take pos l) (drop pos l) x []) as H.
  rewrite length_take, length_drop, app_nil_r in H.
  replace (pos `min` length l) with pos in H by lia.
  rewrite <- H. f_equal. by rewrite app_assoc, take_drop.
Qed.

Lemma swap_at_eq i j v h bd c :
  valid v h → shared v h = false → i < _size v → j < _size v →
  swap_at N i j (v, mk_world h bd c) =
  (Done tt,
   (mk_vector (_size v) (put_store v h (swap_slots i j (contents v h))),
    mk_world (put_heap v h (swap_slots i j (contents v h))) bd c)).
Proof.
  intros Hv Hs Hi Hj. unfold swap_at, index_mut. run. decide_nat. run.
  rewrite data_unshared_eq by done. run. decide_nat. run.
  rewrite data_unshared_eq by done. run.
  by rewrite update_data_eq.
Qed.

Lemma put_same_vec v h : mk_vector (_size v) (put_store v h (contents v h)) = v.
Proof. by destruct v as [n [l|p]]. Qed.

Lemma bubble_loop_eq k lo v h bd c :
  valid v h → shared v h = false → lo + k < _size v →
  for_down k lo (λ i, swap_at N i (i - 1)) (v, mk_world h bd c) =
  (Done tt,
   (mk_vector (_size v) (put_store v h (bubble lo k (contents v h))),
    mk_world (put_heap v h (bubble lo k (contents v h))) bd c)).
Proof.
  revert v h. induction k as [|k IH]; intros v h Hv Hs Hk.
  - rewrite for_down_0. simpl. by rewrite put_same_vec, put_same_heap.
  - rewrite for_down_S. unfold bind at 1.
    rewrite swap_at_eq by (done || lia).
    rewrite IH; cycle 1.
    { by apply put_valid. }
    { by rewrite put_shared. }
    { simpl. lia. }
    simpl. by rewrite put_put_store, put_put_heap, put_contents.
Qed.

Lemma insert_in_place_eq pos x v h bd c :
  valid v h → shared v h = false → _size v < cap_of N v h →
  _size v = length (contents v h) → pos ≤ _size v →
  insert N pos x (v, mk_world h bd c) =
  if afford bd 1 then
    (Done pos,
     (mk_vector (S (_size v))
        (put_store v h (take pos (contents v h) ++ x :: drop pos (contents v h))),
      mk_world (put_heap v h (take pos (contents v h) ++ x :: drop pos (contents v h)))
               (spend bd 1) (c + 1)))
  else (Thrown, (v, thrown_world h bd c)).
Proof.
  intros Hv Hs Hcap Hsz Hp.
  unfold insert. run. rewrite capacity_eq by done. run.
  resolve_if (Done false, (v, mk_world h bd c)).
  { decide_nat. simpl. by rewrite copied_eq, Hs. }
  run. unfold push_back. rewrite push_back_fast_eq by (done || lia).
  destruct (afford bd 1); run; [|done].
  rewrite Hsz, firstn_all, <- Hsz.
  rewrite bubble_loop_eq; cycle 1.
  { by apply put_valid. }
  { by rewrite put_shared. }
  { simpl. lia. }
  simpl. rewrite put_put_store, put_put_heap, put_contents by done. run.
  rewrite data_unshared_eq; cycle 1.
  { by apply put_valid. }
  { by rewrite put_shared. }
  run.
  replace (S (_size v) - 1 - pos) with (length (contents v h) - pos) by lia.
  rewrite bubble_insert by lia. done.
Qed.

End inserting.

Section erasing.

Context {T : Type}.
Variable N : nat.
Implicit Types (v other src nv : @socow_vector T) (h : gmap addr (@dynamic_storage T)).
Implicit Types (bd : option nat) (b : @dynamic_storage T) (l from xs : list T).
Implicit Types (p q : addr) (w : @world T).

(** ** erase on a shared buffer *)

Lemma erase_empty_unshared_eq first v h bd c :
  valid v h → shared v h = false →
  erase_range N first first (v, mk_world h bd c) = (Done first, (v, mk_world h bd c)).
Proof.
  intros Hv Hs. unfold erase_range. rewrite Nat.eqb_refl. run.
  by rewrite data_unshared_eq.
Qed.

Lemma erase_empty_shared_eq first v h bd c :
  wf N v h = true → shared v h = true →
  erase_range N first first (v, mk_world h bd c) =
  if afford bd (_size v) then
    (Done first,
     (mk_vector (_size v) (Dynamic (fresh (dom h))),
      mk_world (<[fresh (dom h) := mk_storage (cap_of N v h) 1 (contents v h)]>
                  (release v h))
               (spend bd (_size v)) (c + _size v)))
  else (Thrown, (v, thrown_world h bd c)).
Proof.
  intros Hwf Hs.
  pose proof (wf_valid _ _ _ Hwf) as Hv.
  pose proof (wf_size _ _ _ Hwf) as Hsz.
  pose proof (wf_cap _ _ _ Hwf) as Hcap.
  unfold erase_range. rewrite Nat.eqb_refl. run.
  rewrite data_shared_eq by (done || lia).
  destruct (afford bd (_size v)); [|done].
  by rewrite Hsz, firstn_all.
Qed.

(** The temporary stays inline: the elements that remain fit [N]. *)
Lemma erase_shared_small_eq first last v h bd c :
  wf N v h = true → shared v h = true →
  first < last → last ≤ _size v →
  cap_of N v h - (last - first) ≤ N →
  erase_range N first last (v, mk_world h bd c) =
  if afford bd (2 * (_size v - (last - first))) then
    (Done first,
     (mk_vector (_size v - (last - first))
        (Static (take first (contents v h) ++ drop last (contents v h))),
      mk_world (release v h)
               (spend bd (2 * (_size v - (last - first))))
               (c + 2 * (_size v - (last - first)))))
  else (Thrown, (v, thrown_world h bd c)).
Proof.
  intros Hwf Hs Hfl Hl HcN.
  pose proof (wf_valid _ _ _ Hwf) as Hv.
  pose proof (wf_size _ _ _ Hwf) as Hsz.
  pose proof (wf_cap _ _ _ Hwf) as Hcap.
  unfold erase_range. decide_nat. run.
  rewrite copied_eq by done. run. rewrite Hs. run.
  rewrite capacity_eq by done. run. unfold scope. run.
  rewrite reserve_small_eq by (done || lia). unfold socow_vector_new. run.
  rewrite (@push_loop_static_eq T N 3 (push_back_from_receiver N) v v first 0 0);
    [|lia|intros; apply push_back_from_receiver_eq|done|done|lia|lia|lia].
  rewrite !drop_0. simpl.
  destruct (afford bd first) eqn:E1; run;
    [|rewrite ?destroy_static_eq; run; unfold thrown_world; clear -E1 Hfl Hl; budget].
  rewrite (@push_loop_static_eq T N 3 (push_back_from_receiver N) v v
             (_size v - (first + (last - first))) (first + (last - first)) first);
    [|lia|intros; apply push_back_from_receiver_eq|done
     |rewrite length_take; lia|lia|lia|lia].
  replace (first + (last - first)) with last by lia.
  destruct (afford (spend bd first) (_size v - last)) eqn:E2; run;
    [|rewrite ?destroy_static_eq; run; unfold thrown_world;
      clear -E1 E2 Hfl Hl; budget].
  rewrite (firstn_all2 (drop last (contents v h))) by (rewrite length_drop; lia).
  unfold swap. rewrite (swap_heap_small_eq N _ _ _
     (take first (contents v h) ++ drop last (contents v h)));
    [|lia|by eapply shared_not_small|done
     |simpl; rewrite length_app, length_take, length_drop; lia].
  simpl.
  destruct (afford (spend (spend bd first) (_size v - last))
              (first + (_size v - last))) eqn:E3; run.
  - rewrite vector_eta, destroy_eq by done. run.
    rewrite firstn_all2 by (rewrite length_app, length_take, length_drop; lia).
    clear -E1 E2 E3 Hfl Hl. budget.
  - rewrite ?destroy_static_eq. run. unfold thrown_world.
    clear -E1 E2 E3 Hfl Hl. budget.
Qed.

(** The temporary takes a buffer of capacity [capacity() - range]. *)
Lemma erase_shared_big_eq first last v h bd c :
  wf N v h = true → shared v h = true →
  first < last → last ≤ _size v →
  N < cap_of N v h - (last - first) →
  erase_range N first last (v, mk_world h bd c) =
  if afford bd (_size v - (last - first)) then
    (Done first,
     (mk_vector (_size v - (last - first)) (Dynamic (fresh (dom h))),
      mk_world (<[fresh (dom h) :=
                    mk_storage (cap_of N v h - (last - first)) 1
                      (take first (contents v h) ++ drop last (contents v h))]>
                  (release v h))
               (spend bd (_size v - (last - first)))
               (c + (_size v - (last - first)))))
  else (Thrown, (v, thrown_world h bd c)).
Proof.
  intros Hwf Hs Hfl Hl HcN.
  pose proof (wf_valid _ _ _ Hwf) as Hv.
  pose proof (wf_size _ _ _ Hwf) as Hsz.
  pose proof (wf_cap _ _ _ Hwf) as Hcap.
  pose proof (valid_ne_fresh _ _ Hv) as Hne.
  set (q := fresh (dom h)) in *.
  assert (h !! q = None) as Hq by apply fresh_lookup.
  unfold erase_range. decide_nat. run.
  rewrite copied_eq by done. run. rewrite Hs. run.
  rewrite capacity_eq by done. run. unfold scope. run.
  rewrite reserve_realloc_eq; [|done|simpl; lia|simpl; lia|by left].
  simpl. rewrite afford_0, spend_0, Nat.add_0_r, release_new. run. fold q.
  rewrite (@push_loop_dyn_eq T N 3 (push_back_from_receiver N) v v first 0 0);
    [|lia|intros; apply push_back_from_receiver_eq|done|done|done|lia|lia|lia].
  rewrite !drop_0. simpl.
  destruct (afford bd first) eqn:E1; run;
    [|unfold thrown_world; rewrite destroy_fresh_eq by done; run; budget].
  rewrite (@push_loop_dyn_eq T N 3 (push_back_from_receiver N) v v
             (_size v - (first + (last - first))) (first + (last - first)) first);
    [|lia|intros; apply push_back_from_receiver_eq|done|done
     |rewrite length_take; lia|lia|lia|lia].
  replace (first + (last - first)) with last by lia.
  destruct (afford (spend bd first) (_size v - last)) eqn:E2; run;
    [|unfold thrown_world; rewrite destroy_fresh_eq by done; run;
      clear -E1 E2 Hfl Hl; budget].
  rewrite (firstn_all2 (drop last (contents v h))) by (rewrite length_drop; lia).
  unfold swap. rewrite swap_heap_heap_eq by (done || lia || by eapply shared_not_small).
  run. rewrite data_unshared_eq; cycle 1.
  { eapply valid_dyn; [apply lookup_insert_eq|simpl; lia]. }
  { by erewrite shared_dyn by apply lookup_insert_eq. }
  run. rewrite destroy_eq by (by apply valid_insert_ne).
  rewrite release_insert_ne by done. run.
  clear -E1 E2 Hfl Hl. budget.
Qed.

End erasing.

Section assigning.

Context {T : Type}.
Variable N : nat.
Implicit Types (v other src nv : @socow_vector T) (h : gmap addr (@dynamic_storage T)).
Implicit Types (bd : option nat) (b : @dynamic_storage T) (l from xs : list T).
Implicit Types (p q : addr) (w : @world T).

(** ** Copy assignment from an inline handle *)

Lemma operator_assign_heap_small_eq fuel other lo v h bd c :
  0 < fuel → valid v h → is_small v = false →
  _store other = Static lo → _size other ≤ length lo →
  operator_assign_fuel N fuel other (v, mk_world h bd c) =
  if afford bd (_size other) then
    (Done tt,
     (mk_vector (_size other) (Static (take (_size other) lo)),
      mk_world (release v h) (spend bd (_size other)) (c + _size other)))
  else (Thrown, (v, thrown_world h bd c)).
Proof.
  intros Hf Hv Hs Ho Hl. destruct fuel as [|f]; [lia|].
  assert (is_small other = true) as Hos by (unfold is_small; by rewrite Ho).
  simpl. rewrite Hos. run. rewrite Hs. run.
  destruct v as [n [l|p]]; [done|]. destruct Hv as (b & Hp & Hr).
  unfold _dynamic_data, _static_data. rewrite Ho. run.
  rewrite uninitialized_copy_n_eq by done.
  destruct (afford bd (_size other)); run; [|done].
  rewrite (dec_references_at_eq _ _ _ _ _ b) by done.
  unfold release. simpl. done.
Qed.

Lemma exchange_prefix_static_eq n m1 l1 m2 l2 w :
  n ≤ length l1 → n ≤ length l2 →
  exchange_prefix N n (mk_vector m1 (Static l1), (mk_vector m2 (Static l2), w)) =
  (Done tt,
   (mk_vector m1 (Static (take n l2 ++ drop n l1)),
    (mk_vector m2 (Static (take n l1 ++ drop n l2)), w))).
Proof.
  intros H1 H2. unfold exchange_prefix. run.
  decide_nat. run. done.
Qed.

Lemma operator_assign_small_small_eq fuel other lo v lv h bd c :
  1 < fuel →
  _store v = Static lv → _size v = length lv → _size v ≤ N →
  _store other = Static lo → _size other = length lo → _size other ≤ N →
  operator_assign_fuel N fuel other (v, mk_world h bd c) =
  if afford bd (_size other) then
    (Done tt,
     (mk_vector (_size other) (Static lo),
      mk_world h (spend bd (_size other)) (c + _size other)))
  else (Thrown, (v, thrown_world h bd c)).
Proof.
  intros Hf Hv Hn HnN Ho Hm HmN. destruct fuel as [|f]; [lia|].
  assert (is_small other = true) as Hos by (unfold is_small; by rewrite Ho).
  assert (is_small v = true) as Hvs by (unfold is_small; by rewrite Hv).
  assert (valid other h) as Hvo by (unfold valid; by rewrite Ho).
  assert (contents other h = lo) as Hco by (unfold contents; by rewrite Ho).
  destruct v as [n lv']. destruct other as [m lo']. simpl in *. subst.
  simpl. rewrite ?Hos, ?Hvs. run. unfold scope. run.
  rewrite reserve_small_eq by (done || lia). unfold socow_vector_new. run.
  match goal with
  | |- context [for_up ?k 0 ?body _] =>
      rewrite (@push_loop_static_eq T N f body
                 (mk_vector (length lo) (Static lo))
                 (mk_vector (length lv) (Static lv)) k 0 0 [] h bd c);
        [|lia|done|done|done|lia|simpl; lia|unfold contents; simpl; lia]
  end.
  rewrite Hco, drop_0. simpl.
  set (cl := length lv `min` length lo) in *.
  destruct (afford bd cl) eqn:E1; run; [|unfold thrown_world; budget].
  destruct (Nat.ltb_spec (length lv) (length lo)) as [Hlt|Hge]; run.
  - rewrite uninitialized_copy_n_eq by (rewrite length_drop; lia).
    destruct (afford (spend bd cl) (length lo - length lv)) eqn:E2; run.
    + rewrite exchange_prefix_static_eq; cycle 1.
      { rewrite length_take. lia. }
      { unfold construct_at. rewrite length_app, !length_take, length_drop. lia. }
      run. unfold construct_at. rewrite !Nat.add_0_l.
      replace cl with (length lv) by lia.
      rewrite !firstn_all. rewrite take_take, Nat.min_id.
      rewrite drop_app_length.
      rewrite (firstn_all2 (drop _ lo)) by (rewrite length_drop; lia).
      rewrite take_drop.
      assert (cl = length lv) as Hcl by lia.
      clear -E1 E2 Hlt Hcl. budget.
    + assert (cl = length lv) as Hcl by lia.
      unfold thrown_world. clear -E1 E2 Hlt Hcl. budget.
  - assert (cl = length lo) as Hcl by lia.
    resolve_if
      (@Done unit tt,
       (mk_vector (0 + cl) (Static (take cl lo)),
        (mk_vector (length lv) (Static (take (length lo) lv)),
         mk_world h (spend bd cl) (c + cl)))).
    { destruct (Nat.ltb_spec (length lo) (length lv)); run; [done|].
      by rewrite (firstn_all2 lv) by lia. }
    run. rewrite exchange_prefix_static_eq; cycle 1.
    { rewrite length_take. lia. }
    { rewrite length_take. lia. }
    run. rewrite !Nat.add_0_l, Hcl.
    rewrite !firstn_all. rewrite drop_ge by (rewrite length_take; lia).
    rewrite app_nil_r. rewrite Hcl in E1. by rewrite E1.
Qed.

End assigning.

(** * Properties of the container *)

Section sharing.

Context {T : Type}.
Variable N : nat.
Implicit Types (v other A B : @socow_vector T) (h : gmap addr (@dynamic_storage T)).
Implicit Types (bd : option nat) (b : @dynamic_storage T) (l from xs : list T).
Implicit Types (p q : addr) (w : @world T).

(** ** What a handle shows *)

Lemma observe_capacity v w :
  valid v (heap w) → capacity N v w = (Done (cap_of N v (heap w)), w).
Proof. destruct w. apply capacity_eq. Qed.

Lemma observe_copied v w :
  valid v (heap w) → copied v w = (Done (shared v (heap w)), w).
Proof. destruct w. apply copied_eq. Qed.

Lemma observe_data v w :
  valid v (heap w) → data_const v w = (Done (contents v (heap w)), w).
Proof. destruct w. apply data_const_eq. Qed.

Lemma observe_capacity_inv v w c' :
  valid v (heap w) → capacity N v w = (Done c', w) → cap_of N v (heap w) = c'.
Proof. intros Hv. rewrite observe_capacity by done. congruence. Qed.

Lemma observe_copied_inv v w s :
  valid v (heap w) → copied v w = (Done s, w) → shared v (heap w) = s.
Proof. intros Hv. rewrite observe_copied by done. congruence. Qed.

Lemma observe_data_inv v w l :
  valid v (heap w) → data_const v w = (Done l, w) → contents v (heap w) = l.
Proof. intros Hv. rewrite observe_data by done. congruence. Qed.

(** ** A second handle on the buffer of the receiver *)

(** [B] shows in [h'] what it shows in [h]. *)
Definition same_view B h h' : Prop :=
  valid B h' ∧ wf N B h' = true
  ∧ contents B h' = contents B h ∧ cap_of N B h' = cap_of N B h.

Lemma same_view_refl B h : wf N B h = true → same_view B h h.
Proof. intros Hwf. split; [by eapply wf_valid|done]. Qed.

Lemma same_view_release A B p h :
  _store A = Dynamic p → _store B = Dynamic p →
  shared A h = true → wf N B h = true →
  same_view B h (release A h).
Proof.
  intros HA HB Hs Hwf. unfold same_view, valid, wf, contents, cap_of, release, drop_ref, shared in *.
  rewrite HA in *. rewrite HB in *.
  destruct (h !! p) as [b|] eqn:Hp; [|done]. apply Nat.ltb_lt in Hs.
  destruct (Nat.eqb_spec (_references b) 1); [lia|].
  rewrite lookup_insert_eq. simpl.
  repeat (apply andb_prop in Hwf as [Hwf ?]).
  split; [eexists; split; [done|simpl; lia]|].
  split; [|done].
  rewrite Hwf, H1, H. bool_simpl. apply Nat.ltb_lt. lia.
Qed.

Lemma same_view_insert_fresh B h h' x :
  valid B h → same_view B h h' → same_view B h (<[fresh (dom h) := x]> h').
Proof.
  intros Hv (Hv' & Hwf & Hc & Hcap).
  pose proof (valid_ne_fresh _ _ Hv) as Hne.
  split; [by apply valid_insert_ne|].
  rewrite wf_insert_ne, contents_insert_ne, cap_of_insert_ne by done. done.
Qed.

(** ** The mutating operations *)

Inductive mutation : Type :=
  | Mut_data
  | Mut_assign_at (index : nat) (value : T)
  | Mut_push_back (value : T)
  | Mut_pop_back
  | Mut_insert (pos : nat) (value : T)
  | Mut_erase (first last : nat)
  | Mut_clear
  | Mut_reserve (new_capacity : nat)
  | Mut_shrink_to_fit.

Definition mutate (m : mutation) : @method T unit :=
  match m with
  | Mut_data => data N
  | Mut_assign_at index value => assign_at N index value
  | Mut_push_back value => push_back N value
  | Mut_pop_back => pop_back N
  | Mut_insert pos value => _ <- insert N pos value ;; ret tt
  | Mut_erase first last => _ <- erase_range N first last ;; ret tt
  | Mut_clear => clear N
  | Mut_reserve new_capacity => reserve N new_capacity
  | Mut_shrink_to_fit => shrink_to_fit N
  end.

(** The preconditions of the calls: indices and positions in range. *)
Definition in_range (m : mutation) (v : @socow_vector T) : bool :=
  match m with
  | Mut_assign_at index _ => index <? size v
  | Mut_pop_back => 0 <? size v
  | Mut_insert pos _ => pos <=? size v
  | Mut_erase first last => (first <=? last) && (last <=? size v)
  | _ => true
  end.

Lemma mutate_shared_cases m A p h bd c :
  _store A = Dynamic p → wf N A h = true → shared A h = true →
  in_range m A = true →
  ∃ o A' h' bd' c',
    mutate m (A, mk_world h bd c) = (o, (A', mk_world h' bd' c'))
    ∧ (o = Done tt ∨ o = Thrown)
    ∧ (h' = h
       ∨ h' = release A h
       ∨ ∃ x, h' = <[fresh (dom h) := x]> (release A h)).
Proof.
  intros HA Hwf Hs Hr.
  pose proof (wf_valid _ _ _ Hwf) as Hv.
  pose proof (wf_size _ _ _ Hwf) as Hsz.
  pose proof (wf_cap _ _ _ Hwf) as Hcap.
  pose proof (wf_cap_heap _ _ _ Hwf (shared_not_small _ _ Hs)) as HN.
  destruct m as [|i x|x| |pos x|first last| |k| ]; simpl in Hr |- *.
  - rewrite data_shared_eq by (done || lia).
    destruct (afford bd (_size A)); unfold thrown_world; eauto 12.
  - apply Nat.ltb_lt in Hr. rewrite assign_at_shared_eq by done.
    destruct (afford bd (_size A)); unfold thrown_world; eauto 12.
  - unfold push_back. rewrite push_back_realloc_eq by (lia || auto).
    destruct (afford bd (_size A + 1)); unfold thrown_world; eauto 12.
  - apply Nat.ltb_lt in Hr. rewrite pop_back_shared_eq by done.
    destruct (afford bd (_size A - 1)); unfold thrown_world; eauto 12.
  - apply Nat.leb_le in Hr. unfold bind.
    rewrite insert_realloc_eq by (lia || auto).
    destruct (afford bd (_size A + 1)); unfold thrown_world, ret; eauto 12.
  - apply andb_prop in Hr as [H1%Nat.leb_le H2%Nat.leb_le]. unfold bind.
    destruct (decide (first = last)) as [->|Hne].
    { rewrite erase_empty_shared_eq by done.
      destruct (afford bd (_size A)); unfold thrown_world, ret; eauto 12. }
    destruct (decide (cap_of N A h - (last - first) ≤ N)).
    + rewrite erase_shared_small_eq by (done || lia).
      destruct (afford bd _); unfold thrown_world, ret; eauto 12.
    + rewrite erase_shared_big_eq by (done || lia).
      destruct (afford bd _); unfold thrown_world, ret; eauto 12.
  - rewrite clear_shared_eq by done. eauto 12.
  - destruct (decide (k < _size A)).
    { rewrite reserve_less_eq by done. eauto 12. }
    destruct (decide (k ≤ N)).
    + rewrite reserve_to_small_eq by (done || lia).
      destruct (afford bd _); unfold thrown_world; eauto 12.
    + rewrite reserve_realloc_eq by (done || lia || (right; left; split; [done|lia])).
      destruct (afford bd _); unfold thrown_world; eauto 12.
  - destruct (decide (_size A = cap_of N A h)).
    { rewrite shrink_to_fit_keep_eq by auto. eauto 12. }
    pose proof (shared_not_small _ _ Hs).
    destruct (decide (_size A ≤ N)).
    + rewrite shrink_to_fit_small_eq by (done || lia).
      destruct (afford bd _); unfold thrown_world; eauto 12.
    + rewrite shrink_to_fit_realloc_eq by (done || lia).
      destruct (afford bd _); unfold thrown_world; eauto 12.
Qed.

(** C1. Two handles [A] and [B] share one heap buffer.  Whatever mutating
    operation is applied to [A] (mutable element access, an element
    assignment, push_back, pop_back, insert, erase, clear, reserve,
    shrink_to_fit), with its indices in range, the call completes or
    throws, and in both cases [B] is still well formed and reads the same
    elements and the same capacity as before; its size, a field of [B], is
    not touched. *)
Theorem mutation_preserves_sharer (m : mutation) A B p w l c :
  _store A = Dynamic p → _store B = Dynamic p →
  wf N A (heap w) = true → wf N B (heap w) = true →
  copied A w = (Done true, w) →
  in_range m A = true →
  data_const B w = (Done l, w) → capacity N B w = (Done c, w) →
  ∃ o A' w',
    mutate m (A, w) = (o, (A', w'))
    ∧ (o = Done tt ∨ o = Thrown)
    ∧ wf N B (heap w') = true
    ∧ data_const B w' = (Done l, w')
    ∧ capacity N B w' = (Done c, w').
Proof.
  intros HA HB HwfA HwfB Hcop Hr Hl Hc.
  pose proof (wf_valid _ _ _ HwfA) as HvA.
  pose proof (wf_valid _ _ _ HwfB) as HvB.
  apply observe_copied_inv in Hcop; [|done].
  apply observe_data_inv in Hl; [|done].
  apply observe_capacity_inv in Hc; [|done].
  destruct w as [h bd c0]. simpl in *.
  destruct (mutate_shared_cases m A p h bd c0 HA HwfA Hcop Hr)
    as (o & A' & h' & bd' & c' & Hrun & Ho & Hh).
  exists o, A', (mk_world h' bd' c'). split; [done|]. split; [done|].
  assert (same_view B h h') as (Hv' & Hwf' & Hc' & Hcap').
  { destruct Hh as [->|[->|[x ->]]].
    - by apply same_view_refl.
    - by eapply same_view_release.
    - apply same_view_insert_fresh; [done|]. by eapply same_view_release. }
  split; [done|].
  rewrite observe_data, observe_capacity by done. simpl.
  by rewrite Hc', Hcap', Hl, Hc.
Qed.

End sharing.

Section copying.

Context {T : Type}.
Variable N : nat.
Implicit Types (v other A B : @socow_vector T) (h : gmap addr (@dynamic_storage T)).
Implicit Types (bd : option nat) (b : @dynamic_storage T) (l from xs : list T).
Implicit Types (p q : addr) (w : @world T).

(** An operation in closed form either completes or throws; it completes
    when the copy constructor never throws. *)
Lemma closed_form_done {R St} (r : outcome R * St) bd k a s s' a' x :
  r = (if afford bd k then (Done a, s) else (Thrown, s')) →
  r = (Done a', x) → a' = a ∧ x = s ∧ afford bd k = true.
Proof. intros ->. destruct (afford bd k); [|done]. by intros [= -> ->]. Qed.


Lemma closed_form_total {R St} (r : outcome R * St) k a s s' :
  r = (if afford None k then (Done a, s) else (Thrown, s')) → r = (Done a, s).
Proof. done. Qed.

Lemma wf_dynamic_inv v h p :
  wf N v h = true → _store v = Dynamic p →
  ∃ b, h !! p = Some b ∧ _size v = length (_data b) ∧ _size v ≤ _capacity b
       ∧ 0 < _references b ∧ N < _capacity b.
Proof.
  unfold wf. intros H Hp. rewrite Hp in H.
  destruct (h !! p) as [b|]; [|done]. exists b.
  repeat (apply andb_prop in H as [H ?]).
  apply Nat.eqb_eq in H. apply Nat.leb_le in H2.
  apply Nat.ltb_lt in H1. apply Nat.ltb_lt in H0. done.
Qed.

Lemma not_small_dynamic v : is_small v = false → ∃ p, _store v = Dynamic p.
Proof. unfold is_small. destruct (_store v) as [l|p]; [done|]. by exists p. Qed.

(** C2. Copy-constructing [B] from a heap-backed [A]: the construction
    completes whatever the copy constructor of the elements would do, [B]
    holds the address of the buffer of [A] and the size of [A], the
    reference count of that buffer has grown by one while its capacity and
    elements are the same, [B] reads the elements [A] reads, and the
    number of element copies made has not changed. *)
Theorem copy_construct_shares_buffer A w p l :
  wf N A (heap w) = true → _store A = Dynamic p →
  data_const A w = (Done l, w) →
  ∃ B w' b,
    socow_vector_copy N A w = (Done B, w')
    ∧ _store B = Dynamic p ∧ size B = size A
    ∧ heap w !! p = Some b
    ∧ heap w' !! p
      = Some (mk_storage (_capacity b) (S (_references b)) (_data b))
    ∧ data_const B w' = (Done l, w')
    ∧ data_const A w' = (Done l, w')
    ∧ copies w' = copies w ∧ budget w' = budget w.
Proof.
  intros Hwf Hp Hl.
  destruct (wf_dynamic_inv _ _ _ Hwf Hp) as (b & Hb & Hsz & Hcap & Hr & HN).
  apply observe_data_inv in Hl; [|by eapply wf_valid].
  destruct w as [h bd c]. simpl in *.
  unfold socow_vector_copy, operator_assign.
  rewrite (operator_assign_share_eq N 3 A p b); [|lia|done|done|done].
  eexists _, _, b. split; [done|]. simpl.
  unfold release. simpl. rewrite lookup_insert_eq.
  repeat split; try done.
  - rewrite data_const_eq by (eapply valid_dyn; [apply lookup_insert_eq|simpl; lia]).
    erewrite contents_dyn by apply lookup_insert_eq. simpl.
    unfold contents in Hl. rewrite Hp, Hb in Hl. by rewrite Hl.
  - rewrite data_const_eq.
    + unfold contents. rewrite Hp, lookup_insert_eq. simpl.
      unfold contents in Hl. rewrite Hp, Hb in Hl. by rewrite Hl.
    + unfold valid. rewrite Hp, lookup_insert_eq. eexists. split; [done|simpl; lia].
Qed.



(** C5, as the code has it.  Copy assignment to an inline receiver from a
    heap-backed [other], whatever the size of [other]: the receiver drops
    its inline elements and becomes a handle on the buffer of [other], whose
    reference count grows by one; no element is copied, and nothing else
    in the world changes. *)
Theorem assign_inline_from_heap_shares other v w p b :
  is_small v = true → _store other = Dynamic p → heap w !! p = Some b →
  operator_assign N other (v, w) =
  (Done tt,
   (mk_vector (size other) (Dynamic p),
    mk_world (<[p := mk_storage (_capacity b) (S (_references b)) (_data b)]> (heap w))
             (budget w) (copies w))).
Proof.
  intros Hs Hp Hb. destruct w as [h bd c]. simpl in *.
  assert (∃ lv, _store v = Static lv) as [lv Hv].
  { unfold is_small in Hs. destruct (_store v); [eauto|done]. }
  unfold operator_assign.
  rewrite (operator_assign_share_eq N 3 other p b); try done; try lia.
  - unfold release. by rewrite Hv.
  - unfold valid. by rewrite Hv.
  - unfold release. by rewrite Hv.
Qed.

End copying.

Section guarantees.

Context {T : Type}.
Variable N : nat.
Implicit Types (v other A B : @socow_vector T) (h : gmap addr (@dynamic_storage T)).
Implicit Types (bd : option nat) (b : @dynamic_storage T) (l from xs : list T).
Implicit Types (p q : addr) (w : @world T).


(** ** Strong exception guarantee *)



Lemma wf_static_inv v h lv :
  wf N v h = true → _store v = Static lv → _size v = length lv ∧ _size v ≤ N.
Proof.
  unfold wf. intros H Hv. rewrite Hv in H.
  apply andb_prop in H as [H1%Nat.eqb_eq H2%Nat.leb_le]. done.
Qed.



End guarantees.

Section round_trip.

Context {T : Type}.
Variable N : nat.
Implicit Types (v other A B : @socow_vector T) (h : gmap addr (@dynamic_storage T)).
Implicit Types (bd : option nat) (b : @dynamic_storage T) (l from xs : list T).
Implicit Types (p q : addr) (w : @world T).

Lemma wf_static n l h :
  n = length l → n ≤ N → wf N (mk_vector n (Static l)) h = true.
Proof.
  intros -> H. unfold wf. simpl. rewrite Nat.eqb_refl. bool_simpl.
  by apply Nat.leb_le.
Qed.


Lemma afford_0_form {R St} (a : R) (s s' : St) bd :
  (Done a, s) = (if afford bd 0 then (Done a, s) else (Thrown, s')).
Proof. by rewrite afford_0. Qed.





(** ** Fuel

    On well-formed receivers the nesting of push_back and of copy
    assignment is bounded: every amount of fuel above one gives the result
    of [push_back] and of [operator_assign]. *)

Lemma push_back_fuel_enough fuel (x : T) v w :
  1 < fuel → wf N v (heap w) = true → 0 < N →
  push_back_fuel N fuel x (v, w) = push_back N x (v, w).
Proof.
  intros Hf Hwf HN. destruct w as [h bd c]. simpl in *.
  pose proof (wf_valid _ _ _ Hwf) as Hv.
  pose proof (wf_cap _ _ _ Hwf) as Hcap.
  pose proof (wf_cap_small _ _ _ Hwf) as HNc.
  unfold push_back.
  destruct (decide (_size v = cap_of N v h ∨ shared v h = true)) as [Hg|Hg].
  - by rewrite !push_back_realloc_eq by (done || lia).
  - apply Decidable.not_or in Hg as [Hne Hs].
    assert (shared v h = false) by (by destruct (shared v h)).
    by rewrite !push_back_fast_eq by (done || lia).
Qed.

Lemma operator_assign_fuel_enough fuel other v w :
  1 < fuel → wf N v (heap w) = true → wf N other (heap w) = true →
  (∀ p, _store v = Dynamic p → _store other = Dynamic p →
        shared v (heap w) = true) →
  operator_assign_fuel N fuel other (v, w) = operator_assign N other (v, w).
Proof.
  intros Hf Hwf Hwfo Hsh. destruct w as [h bd c]. simpl in *.
  pose proof (wf_valid _ _ _ Hwf) as Hv.
  unfold operator_assign.
  destruct (_store other) as [lo|q] eqn:Ho.
  - destruct (wf_static_inv N _ _ _ Hwfo Ho) as [Hm HmN].
    destruct (_store v) as [lv|p] eqn:Hvs.
    + destruct (wf_static_inv N _ _ _ Hwf Hvs) as [Hn HnN].
      by rewrite !(operator_assign_small_small_eq N _ other lo v lv)
        by (done || lia).
    + assert (is_small v = false) by (unfold is_small; by rewrite Hvs).
      by rewrite !(operator_assign_heap_small_eq N _ other lo) by (done || lia).
  - destruct (wf_dynamic_inv N _ _ _ Hwfo Ho) as (b & Hb & _).
    assert (∃ b', release v h !! q = Some b') as [b' Hb'].
    { unfold release. destruct (_store v) as [lv|p] eqn:Hvs; [eauto|].
      destruct (decide (p = q)) as [->|Hne].
      - specialize (Hsh q eq_refl eq_refl). unfold shared in Hsh.
        rewrite Hvs, Hb in Hsh. apply Nat.ltb_lt in Hsh.
        unfold drop_ref. rewrite Hb.
        destruct (Nat.eqb_spec (_references b) 1); [lia|].
        rewrite lookup_insert_eq. eauto.
      - exists b. unfold drop_ref. destruct (h !! p) as [bp|]; [|done].
        destruct (_references bp =? 1).
        + by rewrite lookup_delete_ne.
        + by rewrite lookup_insert_ne. }
    by rewrite !(operator_assign_share_eq N _ other q b') by (done || lia).
Qed.

End round_trip.

(** * The properties on concrete vectors of numbers, with [N = 4] *)

(** The empty world, where copies never throw. *)
Definition ex_empty : @world nat := mk_world ∅ None 0.

(** [1, 2, 3, 4, 5] on the heap, after five push_back on an empty vector. *)
Definition ex_A : @socow_vector nat := mk_vector 5 (Dynamic 1%positive).
Definition ex_one : @world nat :=
  mk_world {[1%positive := mk_storage 8 1 [1; 2; 3; 4; 5]]} None 9.

(** The same buffer once a copy of [ex_A] has been constructed. *)
Definition ex_two : @world nat :=
  mk_world {[1%positive := mk_storage 8 2 [1; 2; 3; 4; 5]]} None 9.

(** The shared buffer when the copy constructor throws at its third call. *)
Definition ex_two_throwing : @world nat :=
  mk_world {[1%positive := mk_storage 8 2 [1; 2; 3; 4; 5]]} (Some 2) 9.

(** [1, 2, 3] in a buffer of capacity 8, after two pop_back. *)
Definition ex_short : @socow_vector nat := mk_vector 3 (Dynamic 1%positive).
Definition ex_short_world : @world nat :=
  mk_world {[1%positive := mk_storage 8 1 [1; 2; 3]]} None 9.

Definition ex_inline : @socow_vector nat := mk_vector 2 (Static [7; 8]).

Fixpoint push_all (l : list nat) (s : @socow_vector nat * @world nat)
    : @socow_vector nat * @world nat :=
  match l with
  | [] => s
  | x :: l' => push_all l' (push_back 4 x s).2
  end.

Example ex_one_reached :
  push_all [1; 2; 3; 4; 5] (socow_vector_new, ex_empty) = (ex_A, ex_one).
Proof. vm_compute. reflexivity. Qed.

Example ex_two_reached :
  socow_vector_copy 4 ex_A ex_one = (Done ex_A, ex_two).
Proof. vm_compute. reflexivity. Qed.

Example ex_short_reached :
  (pop_back 4 (pop_back 4 (ex_A, ex_one)).2).2 = (ex_short, ex_short_world).
Proof. vm_compute. reflexivity. Qed.

Lemma mutation_preserves_sharer_witness :
  ∃ o A' w',
    mutate 4 (Mut_push_back 6) (ex_A, ex_two) = (o, (A', w'))
    ∧ (o = Done tt ∨ o = Thrown)
    ∧ wf 4 ex_A (heap w') = true
    ∧ data_const ex_A w' = (Done [1; 2; 3; 4; 5], w')
    ∧ capacity 4 ex_A w' = (Done 8, w').
Proof.
  apply (mutation_preserves_sharer 4 (Mut_push_back 6) ex_A ex_A 1%positive ex_two);
    reflexivity.
Defined.

Lemma copy_construct_shares_buffer_witness :
  ∃ B w' b,
    socow_vector_copy 4 ex_A ex_one = (Done B, w')
    ∧ _store B = Dynamic 1%positive ∧ size B = size ex_A
    ∧ heap ex_one !! 1%positive = Some b
    ∧ heap w' !! 1%positive
      = Some (mk_storage (_capacity b) (S (_references b)) (_data b))
    ∧ data_const B w' = (Done [1; 2; 3; 4; 5], w')
    ∧ data_const ex_A w' = (Done [1; 2; 3; 4; 5], w')
    ∧ copies w' = copies ex_one ∧ budget w' = budget ex_one.
Proof.
  apply (copy_construct_shares_buffer 4 ex_A ex_one 1%positive); reflexivity.
Defined.




Lemma assign_inline_from_heap_shares_witness :
  operator_assign 4 ex_short (ex_inline, ex_short_world) =
  (Done tt,
   (mk_vector 3 (Dynamic 1%positive),
    mk_world (<[1%positive := mk_storage 8 2 [1; 2; 3]]> (heap ex_short_world))
             None 9)).
Proof.
  apply (assign_inline_from_heap_shares 4 ex_short ex_inline ex_short_world
           1%positive (mk_storage 8 1 [1; 2; 3])); reflexivity.
Defined.

(** C5 fails when the heap-backed [other] is short enough to fit inline:
    assigning [1, 2, 3] (in a buffer of capacity 8) to an inline vector
    copies no element and leaves the receiver on the heap, sharing. *)
Lemma assign_inline_from_short_heap_is_shared :
  is_small ex_inline = true ∧ is_small ex_short = false ∧ size ex_short ≤ 4
  ∧ ∃ v' w',
      operator_assign 4 ex_short (ex_inline, ex_short_world) = (Done tt, (v', w'))
      ∧ is_small v' = false
      ∧ _store v' = _store ex_short
      ∧ copies w' = copies ex_short_world
      ∧ copied v' w' = (Done true, w').
Proof.
  split; [reflexivity|]. split; [reflexivity|]. split; [unfold size; simpl; lia|].
  eexists _, _. split; [vm_compute; reflexivity|].
  repeat split.
Qed.






(** * An invariant of the heap: every buffer is larger than the inline array *)

(** [m] keeps the invariant [I] of the state, whatever its outcome, and
    its result, when it completes, satisfies [Q]. *)
Definition keeps_val {St R} (I : St → Prop) (Q : R → Prop) (m : ST St R) : Prop :=
  ∀ s, I s → I (m s).2 ∧ ∀ a, (m s).1 = Done a → Q a.

Abbreviation keeps I m := (keeps_val I (λ _, True) m).

Section keeping.

Context {St : Type} (I : St → Prop).

Lemma keeps_weaken {R} (Q : R → Prop) (m : ST St R) :
  keeps_val I Q m → keeps I m.
Proof. intros H s Hs. split; [by apply H|done]. Qed.

Lemma keeps_ret {R} (Q : R → Prop) (a : R) : Q a → keeps_val I Q (ret a).
Proof. intros Ha s Hs. split; [done|]. by intros a' [= <-]. Qed.

Lemma keeps_bind {R R'} (Q : R → Prop) (Q' : R' → Prop) (m : ST St R) k :
  keeps_val I Q m → (∀ a, Q a → keeps_val I Q' (k a)) →
  keeps_val I Q' (bind m k).
Proof.
  intros Hm Hk s Hs. unfold bind. destruct (Hm s Hs) as [H1 H2].
  destruct (m s) as [[a| | |] s']; simpl in *; try (split; [done|discriminate]).
  by apply Hk; [apply H2|].
Qed.

Lemma keeps_seq {R R'} (Q' : R' → Prop) (m : ST St R) (k : R → ST St R') :
  keeps I m → (∀ a, keeps_val I Q' (k a)) → keeps_val I Q' (bind m k).
Proof. intros Hm Hk. eapply keeps_bind; [exact Hm|]. intros a _. apply Hk. Qed.

Lemma keeps_throw {R} (Q : R → Prop) : keeps_val I Q throw.
Proof. intros s Hs. split; [done|discriminate]. Qed.

Lemma keeps_fault {R} (Q : R → Prop) : keeps_val I Q fault.
Proof. intros s Hs. split; [done|discriminate]. Qed.

Lemma keeps_out_of_fuel {R} (Q : R → Prop) : keeps_val I Q out_of_fuel.
Proof. intros s Hs. split; [done|discriminate]. Qed.

Lemma keeps_assert (b : bool) : keeps_val I (λ _, b = true) (assert b).
Proof. intros s Hs. unfold assert. destruct b; (split; [done|]); done. Qed.

Lemma keeps_gets {R} (f : St → R) : keeps I (gets f).
Proof. intros s Hs. done. Qed.

Lemma keeps_modify (f : St → St) : (∀ s, I s → I (f s)) → keeps I (modify f).
Proof. intros Hf s Hs. split; [by apply Hf|done]. Qed.

Lemma keeps_try_rethrow {R} (Q : R → Prop) (m : ST St R) (hd : ST St unit) :
  keeps_val I Q m → keeps I hd → keeps_val I Q (try_rethrow m hd).
Proof.
  intros Hm Hh s Hs. unfold try_rethrow. destruct (Hm s Hs) as [H1 H2].
  destruct (m s) as [[a| | |] s']; simpl in *; try done.
  destruct (Hh s' H1) as [H3 _].
  destruct (hd s') as [[[]| | |] s'']; simpl in *; split; done.
Qed.

Lemma keeps_if {R} (Q : R → Prop) (c : bool) (m1 m2 : ST St R) :
  (c = true → keeps_val I Q m1) → (c = false → keeps_val I Q m2) →
  keeps_val I Q (if c then m1 else m2).
Proof. destruct c; auto. Qed.

Lemma keeps_for_up (body : nat → ST St unit) count i :
  (∀ j, keeps I (body j)) → keeps I (for_up count i body).
Proof.
  intros Hb. revert i. induction count as [|k IH]; intros i; simpl.
  - by apply keeps_ret.
  - apply keeps_seq; [apply Hb|]. intros _. apply IH.
Qed.

Lemma keeps_for_down (body : nat → ST St unit) count lo :
  (∀ j, keeps I (body j)) → keeps I (for_down count lo body).
Proof.
  intros Hb. induction count as [|k IH]; simpl.
  - by apply keeps_ret.
  - apply keeps_seq; [apply Hb|]. intros _. apply IH.
Qed.

Lemma keeps_lift {X R} (Q : R → Prop) (m : ST St R) :
  keeps_val I Q m → keeps_val (λ s : X * St, I s.2) Q (lift m).
Proof.
  intros Hm s Hs. unfold lift. destruct (Hm s.2 Hs) as [H1 H2].
  destruct (m s.2) as [r s']. done.
Qed.

End keeping.

Section invariant.

Context {T : Type}.
Variable N : nat.
Implicit Types (v other : @socow_vector T) (h : gmap addr (@dynamic_storage T)).
Implicit Types (b : @dynamic_storage T) (p q : addr) (w : @world T).

Definition heap_ok h : Prop := ∀ p b, h !! p = Some b → N < _capacity b.

Definition ok_w (w : @world T) : Prop := heap_ok (heap w).
Definition ok_m (s : @socow_vector T * @world T) : Prop := ok_w s.2.
Definition ok_2 (s : @socow_vector T * (@socow_vector T * @world T)) : Prop :=
  ok_m s.2.

Lemma heap_ok_insert h p b : heap_ok h → N < _capacity b → heap_ok (<[p:=b]> h).
Proof.
  intros Hh Hb q b'. rewrite lookup_insert. case_decide; [|apply Hh].
  by intros [= <-].
Qed.

Lemma heap_ok_delete h p : heap_ok h → heap_ok (delete p h).
Proof. intros Hh q b' [_ H]%lookup_delete_Some. by eapply Hh. Qed.

Lemma heap_ok_empty : heap_ok ∅.
Proof. intros p b. by rewrite lookup_empty. Qed.

(** *** The heap *)

Lemma keeps_deref p : keeps_val ok_w (λ b, N < _capacity b) (deref p).
Proof.
  intros w Hw. unfold deref. destruct (heap w !! p) as [b|] eqn:Hp; simpl.
  - split; [done|]. intros a [= <-]. by eapply Hw.
  - done.
Qed.

Lemma keeps_store p b : N < _capacity b → keeps ok_w (store p b).
Proof. intros Hb. apply keeps_modify. intros w Hw. by apply heap_ok_insert. Qed.

Lemma keeps_operator_delete p : keeps ok_w (operator_delete p).
Proof. apply keeps_modify. intros w Hw. by apply heap_ok_delete. Qed.

Lemma keeps_operator_new : keeps ok_w (@operator_new T).
Proof. apply keeps_gets. Qed.

Lemma keeps_inc_references p : keeps ok_w (@inc_references T p).
Proof.
  unfold inc_references. eapply keeps_bind; [apply keeps_deref|].
  intros b Hb. by apply keeps_store.
Qed.

Lemma keeps_storage_dec_references p : keeps ok_w (@storage_dec_references T p).
Proof.
  unfold storage_dec_references. eapply keeps_bind; [apply keeps_deref|].
  intros b Hb. apply keeps_seq; [eapply keeps_weaken, keeps_assert|].
  intros _. by apply keeps_store.
Qed.

Lemma keeps_dec_references_at p n : keeps ok_w (@dec_references_at T p n).
Proof.
  unfold dec_references_at. apply keeps_seq; [apply keeps_storage_dec_references|].
  intros _. eapply keeps_bind; [apply keeps_deref|].
  intros b Hb. apply keeps_if; intros _.
  - apply keeps_seq; [by apply keeps_store|]. intros _. apply keeps_operator_delete.
  - by apply keeps_ret.
Qed.

Lemma keeps_get_new_empty_storage cap :
  N < cap → keeps ok_w (@get_new_empty_storage T cap).
Proof.
  intros Hc. unfold get_new_empty_storage.
  apply keeps_seq; [apply keeps_operator_new|]. intros p.
  apply keeps_seq; [by apply keeps_store|]. intros _. by apply keeps_ret.
Qed.

Lemma keeps_copy_construct (x : T) : keeps ok_w (copy_construct x).
Proof.
  intros w Hw. unfold copy_construct. by destruct (budget w) as [[|k]|].
Qed.

Lemma keeps_uninitialized_copy (l : list T) : keeps ok_w (uninitialized_copy l).
Proof.
  induction l as [|x l IH]; simpl.
  - by apply keeps_ret.
  - apply keeps_seq; [apply keeps_copy_construct|]. intros y.
    apply keeps_seq; [apply IH|]. intros ys. by apply keeps_ret.
Qed.

Lemma keeps_uninitialized_copy_n (l : list T) n :
  keeps ok_w (uninitialized_copy_n l n).
Proof.
  unfold uninitialized_copy_n.
  apply keeps_seq; [eapply keeps_weaken, keeps_assert|]. intros _.
  apply keeps_uninitialized_copy.
Qed.

Lemma keeps_get_copied_storage (from : list T) n cap :
  N < cap → keeps ok_w (get_copied_storage from n cap).
Proof.
  intros Hc. unfold get_copied_storage.
  apply keeps_seq; [eapply keeps_weaken, keeps_assert|]. intros _.
  apply keeps_seq; [by apply keeps_get_new_empty_storage|]. intros p.
  apply keeps_seq; [|intros _; by apply keeps_ret].
  apply keeps_try_rethrow; [|apply keeps_operator_delete].
  apply keeps_seq; [apply keeps_uninitialized_copy_n|]. intros ys.
  by apply keeps_store.
Qed.

(** *** Observers *)

Lemma keeps_data_const v : keeps ok_w (data_const v).
Proof.
  unfold data_const. destruct (_store v); [by apply keeps_ret|].
  apply keeps_seq; [eapply keeps_weaken, keeps_deref|]. intros b. by apply keeps_ret.
Qed.

Lemma keeps_capacity v :
  keeps_val ok_w (λ c, is_small v = false → N < c) (capacity N v).
Proof.
  unfold capacity, is_small. destruct (_store v); [by apply keeps_ret|].
  eapply keeps_bind; [apply keeps_deref|]. intros b Hb. by apply keeps_ret.
Qed.

Lemma keeps_copied v :
  keeps_val ok_w (λ c, c = true → is_small v = false) (copied v).
Proof.
  unfold copied, is_small. destruct (_store v); [by apply keeps_ret|].
  apply keeps_seq; [eapply keeps_weaken, keeps_deref|]. intros b. by apply keeps_ret.
Qed.

Lemma keeps_at_const v i : keeps ok_w (at_const v i).
Proof.
  unfold at_const. apply keeps_seq; [eapply keeps_weaken, keeps_assert|]. intros _.
  apply keeps_seq; [apply keeps_data_const|]. intros l.
  destruct (l !! i); [by apply keeps_ret|apply keeps_fault].
Qed.

Lemma keeps_dynamic_data v : keeps ok_w (_dynamic_data v).
Proof.
  unfold _dynamic_data. destruct (_store v); [apply keeps_fault|by apply keeps_ret].
Qed.

Lemma keeps_static_data v : keeps ok_w (_static_data v).
Proof.
  unfold _static_data. destruct (_store v); [by apply keeps_ret|apply keeps_fault].
Qed.

Lemma keeps_references v : keeps ok_w (references v).
Proof.
  unfold references. apply keeps_seq; [apply keeps_dynamic_data|]. intros p.
  apply keeps_seq; [eapply keeps_weaken, keeps_deref|]. intros b. by apply keeps_ret.
Qed.

(** *** The receiver *)

Lemma keeps_this : keeps_val ok_m (λ _, True) (@this T).
Proof. apply keeps_gets. Qed.

Lemma keeps_set_size n : keeps ok_m (@set_size T n).
Proof. by apply keeps_modify. Qed.

Lemma keeps_set_store st : keeps ok_m (@set_store T st).
Proof. by apply keeps_modify. Qed.

Lemma keeps_lift_m {R} (m : ST (@world T) R) : keeps ok_w m → keeps ok_m (lift m).
Proof. apply (keeps_lift ok_w). Qed.

Lemma keeps_lift_2 {R} (m : @method T R) : keeps ok_m m → keeps ok_2 (lift m).
Proof. apply (keeps_lift ok_m). Qed.

Lemma keeps_on_local {R} (m : @method T R) : keeps ok_m m → keeps ok_2 (on_local m).
Proof.
  intros Hm s Hs. unfold on_local.
  destruct (Hm (s.1, s.2.2) Hs) as [H _].
  by destruct (m (s.1, s.2.2)) as [r [nv w]].
Qed.

Lemma keeps_flipped {R} (m : @method2 T R) : keeps ok_2 m → keeps ok_2 (flipped m).
Proof.
  intros Hm s Hs. unfold flipped.
  destruct (Hm (s.2.1, (s.1, s.2.2)) Hs) as [H _].
  by destruct (m (s.2.1, (s.1, s.2.2))) as [r [a [b w]]].
Qed.

Lemma keeps_update_data f : keeps ok_m (@update_data T f).
Proof.
  unfold update_data. apply keeps_seq; [apply keeps_this|]. intros v.
  destruct (_store v); [apply keeps_set_store|].
  apply keeps_lift_m. eapply keeps_bind; [apply keeps_deref|].
  intros b Hb. by apply keeps_store.
Qed.

Lemma keeps_dec_references : keeps ok_m (@dec_references T).
Proof.
  unfold dec_references. apply keeps_seq; [apply keeps_this|]. intros v.
  destruct (_store v); [apply keeps_set_store|].
  apply keeps_lift_m, keeps_dec_references_at.
Qed.

Lemma keeps_destroy v : keeps ok_w (destroy v).
Proof.
  intros w Hw. unfold destroy.
  destruct (keeps_dec_references (v, w) Hw) as [H _].
  by destruct (dec_references (v, w)) as [r [v' w']].
Qed.

Lemma keeps_scope {R} local (body : @method2 T R) :
  keeps ok_2 body → keeps ok_m (scope local body).
Proof.
  intros Hb s Hs. unfold scope.
  destruct (Hb (local, s) Hs) as [H _].
  destruct (body (local, s)) as [[a| | |] [nv s']]; simpl in *; try done.
  - refine (keeps_seq ok_m _ _ _ _ _ s' H); [apply keeps_lift_m, keeps_destroy|].
    intros _. by apply keeps_ret.
  - refine (keeps_seq ok_m _ _ _ _ _ s' H); [apply keeps_lift_m, keeps_destroy|].
    intros _. apply keeps_throw.
Qed.

Lemma keeps_copy_on_write cap : N < cap → keeps ok_m (@copy_on_write T cap).
Proof.
  intros Hc. unfold copy_on_write, get_copied_storage_this.
  apply keeps_seq.
  - apply keeps_seq; [apply keeps_this|]. intros v.
    apply keeps_seq; [eapply keeps_weaken, keeps_assert|]. intros _.
    apply keeps_seq; [apply keeps_lift_m, keeps_data_const|]. intros from.
    by apply keeps_lift_m, keeps_get_copied_storage.
  - intros p. apply keeps_seq; [apply keeps_dec_references|]. intros _.
    apply keeps_set_store.
Qed.

Lemma keeps_check_cow : keeps ok_m (@check_cow T N).
Proof.
  unfold check_cow. apply keeps_seq; [apply keeps_this|]. intros v.
  eapply keeps_bind; [apply (keeps_lift ok_w), keeps_copied|].
  intros c Hc. apply keeps_if; [intros ->|intros _; by apply keeps_ret].
  eapply keeps_bind; [apply (keeps_lift ok_w), keeps_capacity|].
  intros cap Hcap. apply keeps_copy_on_write. auto.
Qed.

Lemma keeps_data : keeps ok_m (@data T N).
Proof.
  unfold data. apply keeps_seq; [apply keeps_this|]. intros v.
  apply keeps_if; intros _; [by apply keeps_ret|apply keeps_check_cow].
Qed.

Lemma keeps_socow_vector_from other n cap :
  keeps ok_w (socow_vector_from N other n cap).
Proof.
  unfold socow_vector_from.
  eapply keeps_bind; [apply keeps_assert|]. intros _ Hc%Nat.ltb_lt.
  apply keeps_seq; [eapply keeps_weaken, keeps_assert|]. intros _.
  apply keeps_seq; [apply keeps_data_const|]. intros from.
  apply keeps_seq; [by apply keeps_get_copied_storage|]. intros p.
  by apply keeps_ret.
Qed.

(** *** The operations *)

Lemma keeps_local : keeps ok_2 (@local T).
Proof. apply keeps_gets. Qed.

Lemma keeps_receiver : keeps ok_2 (@receiver T).
Proof. apply keeps_gets. Qed.

Lemma keeps_lift_w2 {R} (m : ST (@world T) R) :
  keeps ok_w m → keeps ok_2 (lift (lift m)).
Proof. intros H. by apply keeps_lift_2, keeps_lift_m. Qed.

Lemma keeps_exchange_prefix n : keeps ok_2 (@exchange_prefix T N n).
Proof.
  unfold exchange_prefix.
  apply keeps_seq; [apply keeps_on_local, keeps_data|]. intros _.
  apply keeps_seq; [apply keeps_lift_2, keeps_data|]. intros _.
  apply keeps_seq; [apply keeps_receiver|]. intros v.
  apply keeps_seq; [apply keeps_local|]. intros other.
  apply keeps_seq; [apply keeps_lift_w2, keeps_data_const|]. intros a.
  apply keeps_seq; [apply keeps_lift_w2, keeps_data_const|]. intros b.
  apply keeps_seq; [eapply keeps_weaken, keeps_assert|]. intros _.
  apply keeps_seq; [apply keeps_lift_2, keeps_update_data|]. intros _.
  apply keeps_on_local, keeps_update_data.
Qed.

Lemma keeps_index_mut i : keeps ok_m (@index_mut T N i).
Proof.
  unfold index_mut. apply keeps_seq; [apply keeps_this|]. intros v.
  apply keeps_seq; [eapply keeps_weaken, keeps_assert|]. intros _.
  apply keeps_data.
Qed.

Lemma keeps_assign_at i x : keeps ok_m (@assign_at T N i x).
Proof.
  unfold assign_at. apply keeps_seq; [apply keeps_index_mut|]. intros _.
  apply keeps_update_data.
Qed.

Lemma keeps_swap_at i j : keeps ok_m (@swap_at T N i j).
Proof.
  unfold swap_at. apply keeps_seq; [apply keeps_index_mut|]. intros _.
  apply keeps_seq; [apply keeps_index_mut|]. intros _.
  apply keeps_update_data.
Qed.

Lemma keeps_shrink_big_to_small : keeps ok_m (@shrink_big_to_small T).
Proof.
  unfold shrink_big_to_small. apply keeps_seq; [apply keeps_this|]. intros v.
  apply keeps_seq; [apply keeps_lift_m, keeps_dynamic_data|]. intros p.
  apply keeps_seq; [|intros _; apply keeps_lift_m, keeps_dec_references_at].
  apply keeps_try_rethrow; [|apply keeps_set_store].
  apply keeps_seq; [eapply keeps_lift_m, keeps_weaken, keeps_deref|]. intros b.
  apply keeps_seq; [apply keeps_lift_m, keeps_uninitialized_copy_n|]. intros ys.
  apply keeps_set_store.
Qed.

Lemma keeps_reserve k : keeps ok_m (@reserve T N k).
Proof.
  intros [v w] Hs. split; [|done]. unfold reserve. run.
  destruct (k <? _size v); [done|].
  destruct (is_small v) eqn:Hsm; run.
  - destruct (Nat.leb_spec k N); run; [done|].
    by apply keeps_copy_on_write.
  - unfold references, capacity, _dynamic_data, is_small in *.
    destruct (_store v) as [l|p] eqn:Hst; [done|]. run.
    destruct (heap w !! p) as [b|] eqn:Hp; run; [|done].
    pose proof (Hs p b Hp) as Hb.
    destruct (Nat.ltb_spec 1 (_references b)), (Nat.leb_spec k N); run;
      rewrite ?Hst, ?Hp; run; repeat (decide_nat; run; rewrite ?Hp; run).
    + by apply keeps_shrink_big_to_small.
    + by apply keeps_copy_on_write.
    + done.
    + destruct (Nat.eqb_spec (_references b) 1); run; [|done].
      destruct (Nat.ltb_spec (_capacity b) k); run; [|done].
      by apply keeps_copy_on_write.
Qed.

Lemma keeps_shrink_to_fit : keeps ok_m (@shrink_to_fit T N).
Proof.
  unfold shrink_to_fit. apply keeps_seq; [apply keeps_this|]. intros v.
  apply keeps_seq; [eapply keeps_lift_m, keeps_weaken, keeps_capacity|]. intros cap.
  apply keeps_if; intros _; [by apply keeps_ret|].
  apply keeps_if; [intros _; apply keeps_shrink_big_to_small|].
  intros H%Nat.leb_gt. by apply keeps_copy_on_write.
Qed.

Lemma keeps_swap_fuel fuel : keeps ok_2 (@swap_fuel T N fuel).
Proof.
  induction fuel as [|f IH]; simpl; [apply keeps_out_of_fuel|].
  apply keeps_seq; [apply keeps_receiver|]. intros v.
  apply keeps_seq; [apply keeps_local|]. intros other.
  apply keeps_if; intros _; [by apply keeps_flipped|].
  apply keeps_seq.
  - apply keeps_if; intros _; [|apply keeps_if; intros _].
    + apply keeps_seq; [apply keeps_on_local, keeps_data|]. intros _.
      apply keeps_seq; [apply keeps_lift_2, keeps_data|]. intros _.
      apply keeps_seq; [apply keeps_lift_w2, keeps_data_const|]. intros from.
      apply keeps_seq; [apply keeps_lift_w2, keeps_uninitialized_copy_n|].
      intros ys.
      apply keeps_seq; [apply keeps_lift_2, keeps_update_data|]. intros _.
      apply keeps_seq; [apply keeps_exchange_prefix|]. intros _.
      apply keeps_on_local.
      apply keeps_seq; [apply keeps_data|]. intros _. apply keeps_update_data.
    + apply keeps_seq; [apply keeps_lift_w2, keeps_dynamic_data|]. intros p.
      apply keeps_seq; [apply keeps_lift_w2, keeps_dynamic_data|]. intros q.
      apply keeps_seq; [apply keeps_lift_2, keeps_set_store|]. intros _.
      apply keeps_on_local, keeps_set_store.
    + apply keeps_seq; [apply keeps_lift_w2, keeps_dynamic_data|]. intros tmp.
      apply keeps_seq.
      { apply keeps_try_rethrow; [|apply keeps_on_local, keeps_set_store].
        apply keeps_seq; [apply keeps_lift_w2, keeps_static_data|]. intros from.
        apply keeps_seq; [apply keeps_lift_w2, keeps_uninitialized_copy_n|].
        intros ys. apply keeps_on_local, keeps_set_store. }
      intros _. apply keeps_seq.
      { apply keeps_lift_2. apply keeps_seq; [apply keeps_data|]. intros _.
        apply keeps_update_data. }
      intros _. apply keeps_lift_2, keeps_set_store.
  - intros _. apply keeps_seq; [apply keeps_lift_2, keeps_set_size|]. intros _.
    apply keeps_on_local, keeps_set_size.
Qed.

Lemma keeps_swap : keeps ok_2 (@swap T N).
Proof. apply keeps_swap_fuel. Qed.

Lemma keeps_push_back_assign fuel :
  (∀ x, keeps ok_m (@push_back_fuel T N fuel x))
  ∧ (∀ other, keeps ok_m (@operator_assign_fuel T N fuel other)).
Proof.
  induction fuel as [|f [IHp IHa]]; simpl.
  { split; intros; apply keeps_out_of_fuel. }
  split.
  - intros x. apply keeps_seq; [apply keeps_this|]. intros v.
    apply keeps_seq; [eapply keeps_lift_m, keeps_weaken, keeps_capacity|].
    intros cap. apply keeps_seq.
    { apply keeps_if; intros _; [by apply keeps_ret|].
      eapply keeps_lift_m, keeps_weaken, keeps_copied. }
    intros grow. apply keeps_if; intros _.
    + apply keeps_seq; [apply keeps_lift_m, keeps_socow_vector_from|].
      intros nv. apply keeps_scope.
      apply keeps_seq; [apply keeps_on_local, IHp|]. intros _.
      apply keeps_seq; [apply keeps_local|]. intros nv'.
      apply keeps_lift_2, IHa.
    + apply keeps_seq; [apply keeps_data|]. intros _.
      apply keeps_seq; [apply keeps_lift_m, keeps_copy_construct|]. intros y.
      apply keeps_seq; [apply keeps_update_data|]. intros _.
      apply keeps_set_size.
  - intros other. apply keeps_seq; [apply keeps_this|]. intros v.
    apply keeps_seq; [|intros _; apply keeps_set_size].
    apply keeps_if; intros _; [|apply keeps_if; intros _].
    + apply keeps_scope.
      apply keeps_seq; [apply keeps_on_local, keeps_reserve|]. intros _.
      apply keeps_seq.
      { apply keeps_for_up. intros i.
        apply keeps_seq; [apply keeps_lift_w2, keeps_at_const|]. intros y.
        apply keeps_on_local, IHp. }
      intros _. apply keeps_seq.
      { apply keeps_if; intros _; [|apply keeps_if; intros _].
        - apply keeps_seq; [apply keeps_lift_2, keeps_data|]. intros _.
          apply keeps_seq; [apply keeps_lift_w2, keeps_data_const|]. intros from.
          apply keeps_seq; [apply keeps_lift_w2, keeps_uninitialized_copy_n|].
          intros ys. apply keeps_lift_2, keeps_update_data.
        - apply keeps_seq; [apply keeps_lift_2, keeps_data|]. intros _.
          apply keeps_lift_2, keeps_update_data.
        - by apply keeps_ret. }
      intros _. apply keeps_seq; [apply keeps_lift_2, keeps_set_size|]. intros _.
      apply keeps_seq; [apply keeps_local|]. intros tmp.
      apply keeps_exchange_prefix.
    + apply keeps_seq; [apply keeps_lift_m, keeps_dynamic_data|]. intros p.
      apply keeps_seq; [|intros _; apply keeps_lift_m, keeps_dec_references_at].
      apply keeps_try_rethrow; [|apply keeps_set_store].
      apply keeps_seq; [apply keeps_lift_m, keeps_static_data|]. intros from.
      apply keeps_seq; [apply keeps_lift_m, keeps_uninitialized_copy_n|].
      intros ys. apply keeps_set_store.
    + apply keeps_seq; [apply keeps_dec_references|]. intros _.
      apply keeps_seq; [apply keeps_lift_m, keeps_dynamic_data|]. intros p.
      apply keeps_seq; [apply keeps_set_store|]. intros _.
      apply keeps_lift_m, keeps_inc_references.
Qed.

Lemma keeps_push_back x : keeps ok_m (@push_back T N x).
Proof. apply keeps_push_back_assign. Qed.

Lemma keeps_operator_assign other : keeps ok_m (@operator_assign T N other).
Proof. apply keeps_push_back_assign. Qed.

Lemma keeps_socow_vector_copy other : keeps ok_w (@socow_vector_copy T N other).
Proof.
  intros w Hw. split; [|done]. unfold socow_vector_copy.
  destruct (keeps_operator_assign other (mk_vector 0 (Static []), w) Hw) as [H _].
  by destruct (operator_assign N other _) as [[[]| | |] [v' w']].
Qed.

Lemma keeps_pop_back : keeps ok_m (@pop_back T N).
Proof.
  unfold pop_back. apply keeps_seq; [apply keeps_this|]. intros v.
  apply keeps_seq; [eapply keeps_weaken, keeps_assert|]. intros _.
  apply keeps_seq; [eapply keeps_lift_m, keeps_weaken, keeps_copied|]. intros c.
  apply keeps_if; intros _.
  - apply keeps_seq; [eapply keeps_lift_m, keeps_weaken, keeps_capacity|].
    intros cap.
    apply keeps_seq; [apply keeps_lift_m, keeps_socow_vector_from|]. intros nv.
    apply keeps_scope, keeps_swap.
  - apply keeps_seq; [apply keeps_data|]. intros _.
    apply keeps_seq; [apply keeps_update_data|]. intros _. apply keeps_set_size.
Qed.

Lemma keeps_clear : keeps ok_m (@clear T N).
Proof.
  unfold clear. apply keeps_seq; [apply keeps_this|]. intros v.
  apply keeps_seq.
  { apply keeps_if; intros _; [by apply keeps_ret|].
    apply keeps_seq; [apply keeps_lift_m, keeps_references|]. intros r.
    by apply keeps_ret. }
  intros in_place. apply keeps_if; intros _.
  - apply keeps_for_up. intros _. apply keeps_pop_back.
  - apply keeps_seq; [apply keeps_dec_references|]. intros _.
    apply keeps_seq; [apply keeps_set_store|]. intros _. apply keeps_set_size.
Qed.

Lemma keeps_push_back_from_receiver i :
  keeps ok_2 (@push_back_from_receiver T N i).
Proof.
  unfold push_back_from_receiver.
  apply keeps_seq; [apply keeps_receiver|]. intros v.
  apply keeps_seq; [apply keeps_lift_w2, keeps_at_const|]. intros x.
  apply keeps_on_local, keeps_push_back.
Qed.

Lemma keeps_insert pos x : keeps ok_m (@insert T N pos x).
Proof.
  unfold insert. apply keeps_seq; [apply keeps_this|]. intros v.
  apply keeps_seq; [eapply keeps_lift_m, keeps_weaken, keeps_capacity|].
  intros cap. apply keeps_seq.
  { apply keeps_if; intros _; [by apply keeps_ret|].
    eapply keeps_lift_m, keeps_weaken, keeps_copied. }
  intros grow. apply keeps_seq.
  - apply keeps_if; intros _.
    + apply keeps_seq; [eapply keeps_lift_m, keeps_weaken, keeps_copied|].
      intros sh. apply keeps_scope.
      apply keeps_seq; [apply keeps_on_local, keeps_reserve|]. intros _.
      apply keeps_seq; [apply keeps_for_up, keeps_push_back_from_receiver|].
      intros _.
      apply keeps_seq; [apply keeps_on_local, keeps_push_back|]. intros _.
      apply keeps_seq; [apply keeps_for_up, keeps_push_back_from_receiver|].
      intros _.
      apply keeps_seq; [apply keeps_local|]. intros nv.
      apply keeps_lift_2, keeps_operator_assign.
    + apply keeps_seq; [apply keeps_push_back|]. intros _.
      apply keeps_seq; [apply keeps_this|]. intros v'.
      apply keeps_for_down. intros i. apply keeps_swap_at.
  - intros _. apply keeps_seq; [apply keeps_data|]. intros _. by apply keeps_ret.
Qed.

Lemma keeps_erase_range first last : keeps ok_m (@erase_range T N first last).
Proof.
  unfold erase_range. apply keeps_if; intros _.
  { apply keeps_seq; [apply keeps_data|]. intros _. by apply keeps_ret. }
  apply keeps_seq; [apply keeps_this|]. intros v.
  apply keeps_seq; [eapply keeps_lift_m, keeps_weaken, keeps_copied|]. intros c.
  apply keeps_if; intros _.
  - apply keeps_seq; [eapply keeps_lift_m, keeps_weaken, keeps_capacity|].
    intros cap. apply keeps_seq; [|intros _; by apply keeps_ret].
    apply keeps_scope.
    apply keeps_seq; [apply keeps_on_local, keeps_reserve|]. intros _.
    apply keeps_seq; [apply keeps_for_up, keeps_push_back_from_receiver|].
    intros _.
    apply keeps_seq; [apply keeps_for_up, keeps_push_back_from_receiver|].
    intros _.
    apply keeps_seq; [apply keeps_swap|]. intros _.
    apply keeps_lift_2, keeps_data.
  - apply keeps_seq; [apply keeps_for_up; intros i; apply keeps_swap_at|].
    intros _.
    apply keeps_seq; [apply keeps_for_up; intros i; apply keeps_pop_back|].
    intros _.
    apply keeps_seq; [apply keeps_data|]. intros _. by apply keeps_ret.
Qed.

Lemma keeps_mutate m : keeps ok_m (@mutate T N m).
Proof.
  destruct m; simpl.
  - apply keeps_data.
  - apply keeps_assign_at.
  - apply keeps_push_back.
  - apply keeps_pop_back.
  - apply keeps_seq; [apply keeps_insert|]. intros _. by apply keeps_ret.
  - apply keeps_seq; [apply keeps_erase_range|]. intros _. by apply keeps_ret.
  - apply keeps_clear.
  - apply keeps_reserve.
  - apply keeps_shrink_to_fit.
Qed.

End invariant.

(** * Programs: the states a program can reach *)

Section programs.

Context {T : Type}.
Variable N : nat.

(** The vectors a program holds, and the world. *)
Record system : Type := mk_system {
  handles : list (@socow_vector T);
  memory : @world T
}.

(** One step of a program: it constructs a vector, empty or as a copy,
    calls a mutating operation on a vector, assigns a vector to another
    one, swaps two of them, or destroys one; a call ends by completion or
    by an exception.  Between two calls the copy constructor of the
    elements may change its mind about throwing. *)
Inductive step : system → system → Prop :=
  | step_construct hs w :
      step (mk_system hs w) (mk_system (hs ++ [socow_vector_new]) w)
  | step_copy hs w i v B w' :
      hs !! i = Some v →
      socow_vector_copy N v w = (Done B, w') →
      step (mk_system hs w) (mk_system (hs ++ [B]) w')
  | step_copy_throws hs w i v w' :
      hs !! i = Some v →
      socow_vector_copy N v w = (Thrown, w') →
      step (mk_system hs w) (mk_system hs w')
  | step_mutate hs w i v m o v' w' :
      hs !! i = Some v →
      mutate N m (v, w) = (o, (v', w')) →
      o = Done tt ∨ o = Thrown →
      step (mk_system hs w) (mk_system (<[i := v']> hs) w')
  | step_assign hs w i j v other o v' w' :
      i ≠ j → hs !! i = Some v → hs !! j = Some other →
      operator_assign N other (v, w) = (o, (v', w')) →
      o = Done tt ∨ o = Thrown →
      step (mk_system hs w) (mk_system (<[i := v']> hs) w')
  | step_swap hs w i j v other o v' other' w' :
      i ≠ j → hs !! i = Some v → hs !! j = Some other →
      swap N (other, (v, w)) = (o, (other', (v', w'))) →
      o = Done tt ∨ o = Thrown →
      step (mk_system hs w) (mk_system (<[j := other']> (<[i := v']> hs)) w')
  | step_destroy hs w i v w' :
      hs !! i = Some v →
      destroy v w = (Done tt, w') →
      step (mk_system hs w) (mk_system (delete i hs) w')
  | step_budget hs h bd bd' c :
      step (mk_system hs (mk_world h bd c)) (mk_system hs (mk_world h bd' c)).

Inductive reachable : system → Prop :=
  | reachable_start bd : reachable (mk_system [] (mk_world ∅ bd 0))
  | reachable_step s s' : reachable s → step s s' → reachable s'.

Lemma step_heap_ok s s' :
  step s s' → heap_ok N (heap (memory s)) → heap_ok N (heap (memory s')).
Proof.
  intros Hstep Hok. destruct Hstep; simpl in *; try done.
  - pose proof (keeps_socow_vector_copy N v w Hok) as [H' _].
    by rewrite H0 in H'.
  - pose proof (keeps_socow_vector_copy N v w Hok) as [H' _].
    by rewrite H0 in H'.
  - pose proof (keeps_mutate N m (v, w) Hok) as [H' _].
    by rewrite H0 in H'.
  - pose proof (keeps_operator_assign N other (v, w) Hok) as [H' _].
    by rewrite H2 in H'.
  - pose proof (keeps_swap N (other, (v, w)) Hok) as [H' _].
    by rewrite H2 in H'.
  - pose proof (keeps_destroy N v w Hok) as [H' _].
    by rewrite H0 in H'.
Qed.

Lemma reachable_heap_ok s : reachable s → heap_ok N (heap (memory s)).
Proof.
  induction 1 as [bd|s s' _ IH Hstep].
  - apply heap_ok_empty.
  - by eapply step_heap_ok.
Qed.

(** C10. In every state a program reaches, every buffer of the heap has a
    capacity strictly above [N]; so a vector of the program whose capacity
    can be read is inline exactly when that capacity is [N], and a
    heap-backed one has a capacity strictly above [N]. *)
Theorem heap_capacity_invariant s :
  reachable s →
  (∀ p b, heap (memory s) !! p = Some b → N < _capacity b)
  ∧ ∀ v c,
      v ∈ handles s → capacity N v (memory s) = (Done c, memory s) →
      (is_small v = false → N < c) ∧ (is_small v = true ↔ c = N).
Proof.
  intros Hok%reachable_heap_ok. split; [exact Hok|].
  intros v c _. unfold capacity, is_small.
  destruct (_store v) as [l|p].
  - intros [= <-]. done.
  - unfold bind, deref, ret.
    destruct (heap (memory s) !! p) as [b|] eqn:Hp; [|done].
    intros [= <-]. pose proof (Hok p b Hp). split; [done|].
    split; [done|lia].
Qed.

End programs.

(** Five push_back on an empty vector of numbers reach [ex_A] in [ex_one]. *)
Lemma ex_one_reachable : reachable 4 (mk_system [ex_A] ex_one).
Proof.
  assert (∀ (hs : @socow_vector nat) w x v' w',
            reachable 4 (mk_system [hs] w) →
            push_back 4 x (hs, w) = (Done tt, (v', w')) →
            reachable 4 (mk_system [v'] w')) as Hpush.
  { intros hs w x v' w' Hr Hrun. eapply reachable_step; [exact Hr|].
    by apply (step_mutate 4 [hs] w 0 hs (Mut_push_back x) (Done tt) v' w');
      [| |left]. }
  apply (Hpush (mk_vector 4 (Static [1; 2; 3; 4])) (mk_world ∅ None 4) 5);
    [|vm_compute; reflexivity].
  apply (Hpush (mk_vector 3 (Static [1; 2; 3])) (mk_world ∅ None 3) 4);
    [|vm_compute; reflexivity].
  apply (Hpush (mk_vector 2 (Static [1; 2])) (mk_world ∅ None 2) 3);
    [|vm_compute; reflexivity].
  apply (Hpush (mk_vector 1 (Static [1])) (mk_world ∅ None 1) 2);
    [|vm_compute; reflexivity].
  apply (Hpush socow_vector_new (mk_world ∅ None 0) 1);
    [|vm_compute; reflexivity].
  eapply reachable_step; [apply (reachable_start 4 None)|].
  apply (step_construct 4 [] (mk_world ∅ None 0)).
Qed.

Lemma heap_capacity_invariant_witness :
  4 < 8 ∧ (is_small ex_A = true ↔ 8 = 4).
Proof.
  destruct (heap_capacity_invariant 4 (mk_system [ex_A] ex_one) ex_one_reachable)
    as [Hheap Hhandles].
  destruct (Hhandles ex_A 8) as [Hbig Hiff].
  - apply list_elem_of_singleton. reflexivity.
  - reflexivity.
  - split; [apply Hbig; reflexivity|exact Hiff].
Defined.

(** * Element access *)

Section access.

Context {T : Type}.
Variable N : nat.
Implicit Types (v other A B : @socow_vector T) (h : gmap addr (@dynamic_storage T)).
Implicit Types (bd : option nat) (b : @dynamic_storage T) (l from xs : list T).
Implicit Types (p q : addr) (w : @world T).

(** [front() const] and [back() const] *)
Definition front_const (v : @socow_vector T) : ST (@world T) T :=
  assert (0 <? size v) ;; at_const v 0.

Definition back_const (v : @socow_vector T) : ST (@world T) T :=
  assert (0 <? size v) ;; at_const v (size v - 1).

(** [front()] and [back()]: the checks and the copy-on-write of mutable
    access; the caller then reads or writes the slot. *)
Definition front : @method T unit :=
  v <- this ;; assert (0 <? size v) ;; index_mut N 0.

Definition back : @method T unit :=
  v <- this ;; assert (0 <? size v) ;; index_mut N (size v - 1).

(** What the three observers of a handle return, none of them changing
    the world: the elements, the capacity, whether the buffer is shared. *)
Definition shows v w l (c : nat) (sh : bool) : Prop :=
  data_const v w = (Done l, w)
  ∧ capacity N v w = (Done c, w)
  ∧ copied v w = (Done sh, w).

Lemma shows_inv v w l c sh :
  valid v (heap w) → shows v w l c sh →
  contents v (heap w) = l ∧ cap_of N v (heap w) = c ∧ shared v (heap w) = sh.
Proof.
  intros Hv (Hl & Hc & Hs).
  apply observe_data_inv in Hl; [|done].
  apply observe_capacity_inv in Hc; [|done].
  apply observe_copied_inv in Hs; [|done]. done.
Qed.

Lemma shows_intro v w :
  valid v (heap w) →
  shows v w (contents v (heap w)) (cap_of N v (heap w)) (shared v (heap w)).
Proof.
  intros Hv. split; [|split].
  - by apply observe_data.
  - by apply observe_capacity.
  - by apply observe_copied.
Qed.

Lemma at_const_fault v i w : size v ≤ i → at_const v i w = (Fault, w).
Proof. intros Hi. unfold at_const. run. unfold size. by decide_nat. Qed.

Lemma at_const_cases v w i :
  wf N v (heap w) = true →
  length (contents v (heap w)) = size v
  ∧ at_const v i w
    = (match contents v (heap w) !! i with Some x => Done x | None => Fault end, w).
Proof.
  intros Hwf.
  pose proof (wf_valid _ _ _ Hwf) as Hv.
  pose proof (wf_size _ _ _ Hwf) as Hsz.
  split; [unfold size; by rewrite Hsz|].
  destruct (contents v (heap w) !! i) as [x|] eqn:Hx.
  - destruct w. apply at_const_eq; [done| |done].
    apply lookup_lt_Some in Hx. simpl in *. lia.
  - apply at_const_fault. apply lookup_ge_None in Hx. unfold size. lia.
Qed.

(** X1. Reading through [operator[] const]: an index below the size gives
    the element at that index and leaves the world as it is; any other
    index fails the assertion. *)
Theorem at_const_spec v w l i :
  wf N v (heap w) = true → data_const v w = (Done l, w) →
  length l = size v
  ∧ (i < size v → ∃ x, l !! i = Some x ∧ at_const v i w = (Done x, w))
  ∧ (size v ≤ i → at_const v i w = (Fault, w)).
Proof.
  intros Hwf Hl.
  destruct (at_const_cases v w i Hwf) as [Hlen Hat].
  apply observe_data_inv in Hl; [|by eapply wf_valid]. subst l.
  split; [done|]. split.
  - intros Hi.
    destruct (lookup_lt_is_Some_2 (contents v (heap w)) i) as [x Hx]; [lia|].
    exists x. by rewrite Hat, Hx.
  - apply at_const_fault.
Qed.

(** X2. [front() const] and [back() const] give the first and the last
    element of a container that has one, and fail the assertion on an
    empty container; the world is unchanged. *)
Theorem front_back_const_spec v w l :
  wf N v (heap w) = true → data_const v w = (Done l, w) →
  front_const v w = (match head l with Some x => Done x | None => Fault end, w)
  ∧ back_const v w = (match last l with Some x => Done x | None => Fault end, w).
Proof.
  intros Hwf Hl.
  destruct (at_const_cases v w 0 Hwf) as [Hlen Hat0].
  destruct (at_const_cases v w (size v - 1) Hwf) as [_ Hatl].
  apply observe_data_inv in Hl; [|by eapply wf_valid]. subst l.
  unfold front_const, back_const, bind, assert.
  destruct (Nat.ltb_spec 0 (size v)) as [Hpos|Hz].
  - rewrite Hat0, Hatl, head_lookup, last_lookup.
    by replace (pred (length (contents v (heap w)))) with (size v - 1) by lia.
  - destruct (contents v (heap w)); [done|]. simpl in Hlen. lia.
Qed.

End access.

(** * How a call ends *)

Section ending.

Context {T : Type}.
Variable N : nat.
Implicit Types (v other A B : @socow_vector T) (h : gmap addr (@dynamic_storage T)).
Implicit Types (bd : option nat) (b : @dynamic_storage T) (l from xs : list T).
Implicit Types (p q : addr) (w : @world T).

(** The end of a call on the receiver [v] in the world [w]: the call
    completes in a state that satisfies [post], or it throws and leaves
    the receiver and the heap as they were before the call; it fails no
    assertion, and it does not throw when no copy throws. *)
Definition ends {R} (r : outcome R * (@socow_vector T * @world T)) v w
    (post : R → @socow_vector T → @world T → Prop) : Prop :=
  ∃ o v' w',
    r = (o, (v', w'))
    ∧ match o with
      | Done a => post a v' w'
      | Thrown => v' = v ∧ heap w' = heap w
      | Fault | OutOfFuel => False
      end
    ∧ (budget w = None → o ≠ Thrown).

Lemma ends_closed_form {R} (r : outcome R * (@socow_vector T * @world T))
    v h bd c k (a : R) v1 h1 (post : R → @socow_vector T → @world T → Prop) :
  r = (if afford bd k then (Done a, (v1, mk_world h1 (spend bd k) (c + k)))
       else (Thrown, (v, thrown_world h bd c))) →
  (afford bd k = true → post a v1 (mk_world h1 (spend bd k) (c + k))) →
  ends r v (mk_world h bd c) post.
Proof.
  intros -> Hpost. destruct (afford bd k) eqn:E.
  - eexists _, _, _. split; [done|]. split; [by apply Hpost|done].
  - eexists _, _, _. split; [done|]. split; [done|].
    simpl. intros ->. done.
Qed.

Lemma ends_done {R} (a : R) v1 h1 v h bd c
    (post : R → @socow_vector T → @world T → Prop) :
  post a v1 (mk_world h1 bd c) →
  ends (Done a, (v1, mk_world h1 bd c)) v (mk_world h bd c) post.
Proof. intros Hpost. eexists _, _, _. split; [done|]. split; done. Qed.

Lemma ends_weaken {R} (r : outcome R * (@socow_vector T * @world T)) v w
    (post post' : R → @socow_vector T → @world T → Prop) :
  ends r v w post → (∀ a v' w', post a v' w' → post' a v' w') → ends r v w post'.
Proof.
  intros (o & v' & w' & -> & Ho & Ht) Himp. exists o, v', w'.
  split; [done|]. split; [|done]. destruct o; auto.
Qed.

Lemma ends_inv_done {R} (r : outcome R * (@socow_vector T * @world T)) v w
    (post : R → @socow_vector T → @world T → Prop) a v' w' :
  ends r v w post → r = (Done a, (v', w')) → post a v' w'.
Proof. intros (o & v1 & w1 & -> & Ho & _) [= -> -> ->]. done. Qed.

Lemma ends_inv_thrown {R} (r : outcome R * (@socow_vector T * @world T)) v w
    (post : R → @socow_vector T → @world T → Prop) v' w' :
  ends r v w post → r = (Thrown, (v', w')) → v' = v ∧ heap w' = heap w.
Proof. intros (o & v1 & w1 & -> & Ho & _) [= -> -> ->]. done. Qed.

Lemma ends_total {R} (r : outcome R * (@socow_vector T * @world T)) v w
    (post : R → @socow_vector T → @world T → Prop) :
  ends r v w post → budget w = None →
  ∃ a v' w', r = (Done a, (v', w')) ∧ post a v' w'.
Proof.
  intros (o & v1 & w1 & -> & Ho & Ht) Hb. specialize (Ht Hb).
  destruct o; try done. eauto.
Qed.

(** ** What a handle shows after an operation *)

Lemma shows_static n l w : shows N (mk_vector n (Static l)) w l N false.
Proof. done. Qed.

Lemma shows_dyn n q cap r l h bd c :
  shows N (mk_vector n (Dynamic q))
    (mk_world (<[q := mk_storage cap r l]> h) bd c) l cap (1 <? r).
Proof.
  unfold shows, data_const, capacity, copied. run.
  by rewrite lookup_insert_eq.
Qed.

Lemma shows_put v h l m bd c :
  valid v h → shared v h = false →
  shows N (mk_vector m (put_store v h l)) (mk_world (put_heap v h l) bd c)
    l (cap_of N v h) false.
Proof.
  intros Hv Hs.
  pose proof (shows_intro N (mk_vector m (put_store v h l))
                (mk_world (put_heap v h l) bd c)) as H.
  simpl in H. rewrite put_contents, put_cap_of, put_shared, Hs in H by done.
  apply H. by apply put_valid.
Qed.

(** What [ends] needs from the hypotheses of a specification. *)
Lemma wf_shows v w l c sh :
  wf N v (heap w) = true → shows N v w l c sh →
  valid v (heap w) ∧ size v = length l ∧ size v ≤ c ∧ N ≤ c
  ∧ contents v (heap w) = l ∧ cap_of N v (heap w) = c
  ∧ shared v (heap w) = sh.
Proof.
  intros Hwf Hshows.
  pose proof (wf_valid _ _ _ Hwf) as Hv.
  destruct (shows_inv N v w l c sh Hv Hshows) as (Hl & Hc & Hs).
  pose proof (wf_size _ _ _ Hwf). pose proof (wf_cap _ _ _ Hwf).
  pose proof (wf_cap_small _ _ _ Hwf).
  unfold size. repeat split; try done; congruence.
Qed.

(** ** Well-formed results *)

Lemma wf_put v h n l :
  wf N v h = true → n = length l → n ≤ cap_of N v h →
  wf N (mk_vector n (put_store v h l)) (put_heap v h l) = true.
Proof.
  intros Hwf -> Hcap. unfold wf, put_store, put_heap, cap_of in *. simpl.
  destruct (_store v) as [lv|p].
  - rewrite Nat.eqb_refl. bool_simpl. by apply Nat.leb_le.
  - destruct (h !! p) as [b|]; [|done].
    rewrite lookup_insert_eq. simpl.
    repeat (apply andb_prop in Hwf as [Hwf ?]).
    rewrite Nat.eqb_refl, (proj2 (Nat.leb_le _ _)) by done. bool_simpl.
    by rewrite andb_true_iff.
Qed.

Lemma wf_buffer n q cap r l h :
  n = length l → n ≤ cap → N < cap → 0 < r →
  wf N (mk_vector n (Dynamic q)) (<[q := mk_storage cap r l]> h) = true.
Proof.
  intros -> H1 H2 H3. unfold wf. simpl. rewrite lookup_insert_eq. simpl.
  rewrite Nat.eqb_refl. bool_simpl.
  rewrite (proj2 (Nat.leb_le _ _)), !(proj2 (Nat.ltb_lt _ _)) by lia. done.
Qed.

Lemma wf_full v h :
  wf N v h = true → take (_size v) (contents v h) = contents v h.
Proof. intros Hwf. rewrite (wf_size _ _ _ Hwf). apply firstn_all. Qed.

End ending.

(** * Mutable access and removal at the end *)

Section in_place_specs.

Context {T : Type}.
Variable N : nat.
Implicit Types (v other A B : @socow_vector T) (h : gmap addr (@dynamic_storage T)).
Implicit Types (bd : option nat) (b : @dynamic_storage T) (l from xs : list T).
Implicit Types (p q : addr) (w : @world T).

Lemma pop_back_eq v h bd c :
  wf N v h = true → 0 < _size v →
  ∃ k v1 h1,
    pop_back N (v, mk_world h bd c)
    = (if afford bd k then (Done tt, (v1, mk_world h1 (spend bd k) (c + k)))
       else (Thrown, (v, thrown_world h bd c)))
    ∧ wf N v1 h1 = true ∧ _size v1 = _size v - 1
    ∧ contents v1 h1 = take (_size v - 1) (contents v h).
Proof.
  intros Hwf Hpos.
  pose proof (wf_valid _ _ _ Hwf) as Hv.
  pose proof (wf_size _ _ _ Hwf) as Hsz.
  pose proof (wf_cap _ _ _ Hwf) as Hcap.
  destruct (shared v h) eqn:Hs.
  - pose proof (wf_cap_heap _ _ _ Hwf (shared_not_small _ _ Hs)) as Hbig.
    eexists _, _, _. split; [by apply pop_back_shared_eq|].
    split; [apply wf_buffer; [rewrite length_take; lia|lia|done|lia]|].
    split; [done|]. by erewrite contents_dyn by apply lookup_insert_eq.
  - exists 0. eexists _, _. rewrite afford_0, spend_0, Nat.add_0_r.
    split; [by apply pop_back_in_place_eq|].
    split; [apply wf_put; [done|rewrite length_take; lia|lia]|].
    split; [done|]. by rewrite put_contents.
Qed.

(** X4. Mutable access, [data()]: on a container that is inline or owns its
    buffer alone nothing changes; on a shared buffer the container moves
    to a buffer of its own with the same capacity and the same elements,
    which costs one copy per element. *)
Theorem data_spec v w l c sh :
  wf N v (heap w) = true → shows N v w l c sh →
  ends (data N (v, w)) v w (λ _ v' w',
    size v' = size v
    ∧ shows N v' w' l c false
    ∧ copies w' = copies w + (if sh then size v else 0)
    ∧ (sh = false → v' = v ∧ w' = w)).
Proof.
  intros Hwf Hsh.
  destruct (wf_shows N v w l c sh Hwf Hsh) as (Hv & Hsz & Hc & HN & Hl & Hcap & Hs).
  destruct w as [h bd c0]. simpl in *. unfold size in *. subst l c. destruct sh.
  - eapply ends_closed_form.
    { apply data_shared_eq; try done; lia. }
    intros _. simpl. rewrite Hsz, firstn_all.
    split; [done|]. split; [apply (shows_dyn N _ _ _ 1)|]. done.
  - rewrite data_unshared_eq by done. apply ends_done.
    rewrite Nat.add_0_r. repeat split; try done; by apply observe_data
      || (by apply (observe_capacity N v (mk_world h bd c0)))
      || (rewrite <- Hs; by apply (observe_copied v (mk_world h bd c0))).
Qed.

(** X5. Writing through [operator[]], [v[index] = value] with the index below
    the size: the container reads its old elements with [value] at
    [index]; size and capacity are unchanged; the container owns its
    storage alone afterwards, having copied its elements only if the
    buffer was shared.  An index that is not below the size fails the
    assertion. *)
Theorem assign_at_spec v w l c sh index (value : T) :
  wf N v (heap w) = true → shows N v w l c sh →
  (index < size v →
   ends (assign_at N index value (v, w)) v w (λ _ v' w',
     size v' = size v
     ∧ shows N v' w' (<[index := value]> l) c false
     ∧ copies w' = copies w + (if sh then size v else 0)
     ∧ (sh = false → is_small v' = is_small v
                     ∧ ∀ p, _store v = Dynamic p → _store v' = Dynamic p)))
  ∧ (size v ≤ index → assign_at N index value (v, w) = (Fault, (v, w))).
Proof.
  intros Hwf Hsh.
  destruct (wf_shows N v w l c sh Hwf Hsh) as (Hv & Hsz & Hc & HN & Hl & Hcap & Hs).
  destruct w as [h bd c0]. simpl in *. unfold size in *. subst l c. split.
  - intros Hi. destruct sh.
    + eapply ends_closed_form.
      { by apply assign_at_shared_eq. }
      intros _. simpl.
      split; [done|]. split; [apply (shows_dyn N _ _ _ 1)|]. done.
    + rewrite assign_at_in_place_eq by done. apply ends_done.
      rewrite Nat.add_0_r. simpl.
      split; [done|]. split; [by apply shows_put|]. split; [done|].
      intros _. split; [by rewrite put_is_small|].
      intros p Hp. unfold put_store. by rewrite Hp.
  - intros Hi. unfold assign_at, index_mut. run. unfold size. decide_nat.
    by destruct v.
Qed.

(** X6. pop_back on a container that has an element: the container reads its
    old elements without the last one, with the same capacity.  Inline or
    alone on its buffer it keeps its storage and copies nothing; on a
    shared buffer it moves to a buffer of its own, copying the elements
    it keeps.  On an empty container pop_back fails the assertion. *)
Theorem pop_back_spec v w l c sh :
  wf N v (heap w) = true → shows N v w l c sh →
  (0 < size v →
   ends (pop_back N (v, w)) v w (λ _ v' w',
     size v' = size v - 1
     ∧ shows N v' w' (take (size v - 1) l) c false
     ∧ copies w' = copies w + (if sh then size v - 1 else 0)
     ∧ (sh = false → is_small v' = is_small v
                     ∧ ∀ p, _store v = Dynamic p → _store v' = Dynamic p)))
  ∧ (size v = 0 → pop_back N (v, w) = (Fault, (v, w))).
Proof.
  intros Hwf Hsh.
  destruct (wf_shows N v w l c sh Hwf Hsh) as (Hv & Hsz & Hc & HN & Hl & Hcap & Hs).
  destruct w as [h bd c0]. simpl in *. unfold size in *. subst l c. split.
  - intros Hpos. destruct sh.
    + eapply ends_closed_form.
      { by apply pop_back_shared_eq. }
      intros _. simpl.
      split; [done|]. split; [apply (shows_dyn N _ _ _ 1)|]. done.
    + rewrite pop_back_in_place_eq by done. apply ends_done.
      rewrite Nat.add_0_r. simpl.
      split; [done|]. split; [by apply shows_put|]. split; [done|].
      intros _. split; [by rewrite put_is_small|].
      intros p Hp. unfold put_store. by rewrite Hp.
  - intros Hz. unfold pop_back. run. unfold size. rewrite Hz.
    by destruct v.
Qed.

Lemma data_eq v h bd c :
  wf N v h = true →
  ∃ k v1 h1,
    data N (v, mk_world h bd c)
    = (if afford bd k then (Done tt, (v1, mk_world h1 (spend bd k) (c + k)))
       else (Thrown, (v, thrown_world h bd c)))
    ∧ wf N v1 h1 = true ∧ _size v1 = _size v
    ∧ contents v1 h1 = contents v h ∧ cap_of N v1 h1 = cap_of N v h
    ∧ shared v1 h1 = false.
Proof.
  intros Hwf.
  pose proof (wf_valid _ _ _ Hwf) as Hv.
  pose proof (wf_size _ _ _ Hwf) as Hsz.
  pose proof (wf_cap _ _ _ Hwf) as Hcap.
  pose proof (wf_full N _ _ Hwf) as Hfull.
  destruct (shared v h) eqn:Hs.
  - pose proof (wf_cap_heap _ _ _ Hwf (shared_not_small _ _ Hs)) as Hbig.
    eexists _, _, _. split; [apply data_shared_eq; (done || lia)|].
    rewrite Hfull.
    split; [apply wf_buffer; [done|lia|done|lia]|]. split; [done|].
    by erewrite contents_dyn, cap_of_dyn, shared_dyn by apply lookup_insert_eq.
  - exists 0, v, h. rewrite afford_0, spend_0, Nat.add_0_r.
    split; [by apply data_unshared_eq|]. done.
Qed.

(** X3. Mutable [front()] and [back()] on a container that has an element:
    the call ends as mutable access does, with the container on storage
    of its own, its size, elements and capacity unchanged, and the first,
    respectively the last, element in the slot the returned reference
    designates.  On an empty container both fail the assertion. *)
Theorem front_back_spec v w l c sh :
  wf N v (heap w) = true → shows N v w l c sh →
  (0 < size v →
   ends (front N (v, w)) v w (λ _ v' w',
     size v' = size v ∧ shows N v' w' l c false
     ∧ ∃ x, head l = Some x ∧ at_const v' 0 w' = (Done x, w'))
   ∧ ends (back N (v, w)) v w (λ _ v' w',
       size v' = size v ∧ shows N v' w' l c false
       ∧ ∃ x, last l = Some x ∧ at_const v' (size v - 1) w' = (Done x, w')))
  ∧ (size v = 0 →
     front N (v, w) = (Fault, (v, w)) ∧ back N (v, w) = (Fault, (v, w))).
Proof.
  intros Hwf Hsh.
  destruct (wf_shows N v w l c sh Hwf Hsh) as (Hv & Hsz & Hc & HN & Hl & Hcap & Hs).
  destruct w as [h bd c0]. simpl in *. unfold size in *. subst l c.
  destruct (data_eq v h bd c0 Hwf)
    as (k & v1 & h1 & Heq & Hwf1 & Hsz1 & Hc1 & Hcap1 & Hs1).
  assert (∀ i, i < _size v →
            ∃ x, contents v h !! i = Some x
                 ∧ at_const v1 i (mk_world h1 (spend bd k) (c0 + k))
                   = (Done x, mk_world h1 (spend bd k) (c0 + k))) as Hat.
  { intros i Hi.
    destruct (lookup_lt_is_Some_2 (contents v h) i) as [x Hx]; [lia|].
    exists x. split; [done|].
    apply at_const_eq; [by eapply wf_valid|lia|by rewrite Hc1]. }
  assert (shows N v1 (mk_world h1 (spend bd k) (c0 + k))
            (contents v h) (cap_of N v h) false) as Hshows1.
  { rewrite <- Hc1, <- Hcap1, <- Hs1.
    apply (shows_intro N v1 (mk_world h1 _ _)). by eapply wf_valid. }
  split.
  - intros Hpos. split.
    + eapply ends_closed_form.
      { unfold front, index_mut. run. decide_nat. run. decide_nat. run.
        rewrite ?(vector_eta v). exact Heq. }
      intros _. split; [done|]. split; [done|].
      rewrite head_lookup. by apply Hat.
    + eapply ends_closed_form.
      { unfold back, index_mut. run. decide_nat. run. decide_nat. run.
        rewrite ?(vector_eta v). exact Heq. }
      intros _. split; [done|]. split; [done|].
      rewrite last_lookup.
      replace (pred (length (contents v h))) with (_size v - 1) by lia.
      apply Hat. lia.
  - intros Hz. unfold front, back. run. rewrite Hz. by destruct v.
Qed.

End in_place_specs.

(** * erase *)

Section erase_in_place.

Context {T : Type}.
Variable N : nat.
Implicit Types (v other A B : @socow_vector T) (h : gmap addr (@dynamic_storage T)).
Implicit Types (bd : option nat) (b : @dynamic_storage T) (l from xs : list T).
Implicit Types (p q : addr) (w : @world T).

(** The array after the first loop of [erase] in place: slot [i] is
    swapped with slot [i + range], for [count] slots from [i] on. *)
Fixpoint close_gap (range count i : nat) (l : list T) : list T :=
  match count with
  | 0 => l
  | S count' => close_gap range count' (S i) (swap_slots i (i + range) l)
  end.

Lemma swap_slots_length i j l : length (swap_slots i j l) = length l.
Proof.
  unfold swap_slots. destruct (l !! i), (l !! j); try done.
  by rewrite !length_insert.
Qed.

Lemma swap_slots_take i j l x :
  i ≤ j → l !! j = Some x → take (S i) (swap_slots i j l) = take i l ++ [x].
Proof.
  intros Hij Hj. unfold swap_slots.
  assert (j < length l) as Hjl by (by eapply lookup_lt_Some).
  destruct (lookup_lt_is_Some_2 l i) as [y Hi]; [lia|].
  rewrite Hi, Hj.
  destruct (decide (i = j)) as [->|Hne].
  - assert (x = y) as -> by congruence.
    rewrite !(list_insert_id l j y) by done. by apply take_S_r.
  - rewrite take_insert_ge by lia.
    rewrite (take_S_r _ _ x) by (apply list_lookup_insert_eq; lia).
    by rewrite take_insert_ge.
Qed.

Lemma swap_slots_drop i j l n :
  i ≤ j → j < n → drop n (swap_slots i j l) = drop n l.
Proof.
  intros Hij Hjn. unfold swap_slots.
  destruct (l !! i), (l !! j); try done.
  by rewrite !drop_insert_lt by lia.
Qed.

Lemma close_gap_length range count i l :
  length (close_gap range count i l) = length l.
Proof.
  revert i l. induction count as [|count IH]; intros i l; [done|].
  simpl. by rewrite IH, swap_slots_length.
Qed.

(** The slots below [i + count] after the loop: the slots from
    [i + range] on have moved down by [range]. *)
Lemma close_gap_take range count i l :
  i + count + range ≤ length l →
  take (i + count) (close_gap range count i l)
  = take i l ++ take count (drop (i + range) l).
Proof.
  revert i l. induction count as [|count IH]; intros i l Hlen.
  - simpl. by rewrite Nat.add_0_r, take_0, app_nil_r.
  - simpl.
    destruct (lookup_lt_is_Some_2 l (i + range)) as [x Hx]; [lia|].
    replace (i + S count) with (S i + count) by lia.
    rewrite IH by (rewrite swap_slots_length; lia).
    rewrite (swap_slots_take _ _ _ x) by (done || lia).
    rewrite swap_slots_drop by lia.
    rewrite <- app_assoc. f_equal.
    rewrite (drop_S l x (i + range)) by done. done.
Qed.

Lemma close_gap_erase first last l :
  first ≤ last → last ≤ length l →
  take (length l - (last - first))
       (close_gap (last - first) (length l - (last - first) - first) first l)
  = take first l ++ drop last l.
Proof.
  intros H1 H2.
  replace (length l - (last - first))
    with (first + (length l - (last - first) - first)) at 1 by lia.
  rewrite close_gap_take by lia.
  replace (first + (last - first)) with last by lia.
  f_equal. apply take_ge. rewrite length_drop. lia.
Qed.

Lemma close_gap_loop_eq range count i v h bd c :
  valid v h → shared v h = false → _size v = length (contents v h) →
  i + count + range ≤ _size v →
  for_up count i (λ i, swap_at N i (i + range)) (v, mk_world h bd c) =
  (Done tt,
   (mk_vector (_size v) (put_store v h (close_gap range count i (contents v h))),
    mk_world (put_heap v h (close_gap range count i (contents v h))) bd c)).
Proof.
  revert i v h. induction count as [|count IH]; intros i v h Hv Hs Hsz Hk.
  - rewrite for_up_0. simpl. by rewrite put_same_vec, put_same_heap.
  - rewrite for_up_S. unfold bind at 1.
    destruct (decide (range = 0)) as [->|Hr].
    + rewrite swap_at_eq by (done || lia).
      rewrite IH; cycle 1.
      { by apply put_valid. }
      { by rewrite put_shared. }
      { simpl. rewrite put_contents by done. by rewrite swap_slots_length. }
      { simpl. lia. }
      simpl. by rewrite put_put_store, put_put_heap, put_contents.
    + rewrite swap_at_eq by (done || lia).
      rewrite IH; cycle 1.
      { by apply put_valid. }
      { by rewrite put_shared. }
      { simpl. rewrite put_contents by done. by rewrite swap_slots_length. }
      { simpl. lia. }
      simpl. by rewrite put_put_store, put_put_heap, put_contents.
Qed.

(** [erase] of a range that is not empty, on a container that is inline
    or owns its buffer alone. *)
Lemma erase_in_place_eq first last v h bd c :
  valid v h → shared v h = false → _size v = length (contents v h) →
  first < last → last ≤ _size v →
  erase_range N first last (v, mk_world h bd c) =
  (Done first,
   (mk_vector (_size v - (last - first))
      (put_store v h (take first (contents v h) ++ drop last (contents v h))),
    mk_world (put_heap v h (take first (contents v h) ++ drop last (contents v h)))
             bd c)).
Proof.
  intros Hv Hs Hsz H1 H2.
  unfold erase_range. decide_nat. run.
  rewrite copied_eq by done. run. rewrite Hs. run.
  rewrite (close_gap_loop_eq (last - first)) by (done || lia).
  destruct (last - first) as [|k] eqn:Hk; [lia|].
  rewrite pops_eq; cycle 1.
  { by apply put_valid. }
  { by rewrite put_shared. }
  { simpl. lia. }
  simpl. rewrite put_put_store, put_put_heap, put_contents by done.
  rewrite data_unshared_eq; cycle 1.
  { by apply put_valid. }
  { by rewrite put_shared. }
  run. rewrite <- Hk.
  pose proof (close_gap_erase first last (contents v h)) as Hg.
  rewrite <- Hsz in Hg. rewrite Hg by lia. done.
Qed.




End erase_in_place.

(** * swap *)

Section swapping.

Context {T : Type}.
Variable N : nat.
Implicit Types (v other A B : @socow_vector T) (h : gmap addr (@dynamic_storage T)).
Implicit Types (bd : option nat) (b : @dynamic_storage T) (l from xs : list T).
Implicit Types (p q : addr) (w : @world T).

Lemma data_static_eq n l w :
  data N (mk_vector n (Static l), w) = (Done tt, (mk_vector n (Static l), w)).
Proof. done. Qed.

(** Two inline vectors, the receiver being the shorter one. *)
Lemma swap_small_small_le_eq fuel n lv m lo h bd c :
  0 < fuel → n = length lv → m = length lo → n ≤ m →
  swap_fuel N fuel
    (mk_vector m (Static lo), (mk_vector n (Static lv), mk_world h bd c)) =
  if afford bd (m - n) then
    (Done tt,
     (mk_vector n (Static lv),
      (mk_vector m (Static lo), mk_world h (spend bd (m - n)) (c + (m - n)))))
  else
    (Thrown, (mk_vector m (Static lo), (mk_vector n (Static lv), thrown_world h bd c))).
Proof.
  intros Hf Hn Hm Hle. destruct fuel as [|f]; [lia|]. simpl. run.
  unfold is_small. simpl. run. decide_nat. run.
  unfold data_const. simpl. run.
  rewrite uninitialized_copy_n_eq by (rewrite length_drop; lia).
  destruct (afford bd (m - n)); run; [|done].
  unfold update_data. run.
  rewrite exchange_prefix_static_eq; cycle 1.
  { lia. }
  { unfold construct_at. rewrite length_app, length_take. lia. }
  run. unfold update_data. run.
  unfold construct_at, destroy_n.
  assert (take n lv = lv) as Hlv by (subst n; apply firstn_all).
  rewrite Hlv. subst n.
  rewrite !take_app_length, drop_app_length.
  rewrite ?firstn_all.
  rewrite (take_ge (drop (length lv) lo)) by (rewrite length_drop; lia).
  by rewrite take_drop.
Qed.

Lemma swap_small_small_eq fuel n lv m lo h bd c :
  1 < fuel → n = length lv → m = length lo →
  swap_fuel N fuel
    (mk_vector m (Static lo), (mk_vector n (Static lv), mk_world h bd c)) =
  if afford bd ((m - n) + (n - m)) then
    (Done tt,
     (mk_vector n (Static lv),
      (mk_vector m (Static lo),
       mk_world h (spend bd ((m - n) + (n - m))) (c + ((m - n) + (n - m))))))
  else
    (Thrown, (mk_vector m (Static lo), (mk_vector n (Static lv), thrown_world h bd c))).
Proof.
  intros Hf Hn Hm. destruct (decide (n ≤ m)) as [Hle|Hgt].
  - rewrite swap_small_small_le_eq by (done || lia).
    replace (m - n + (n - m)) with (m - n) by lia. done.
  - destruct fuel as [|f]; [lia|]. simpl. run.
    unfold is_small. simpl. run. decide_nat. run.
    rewrite swap_small_small_le_eq by (done || lia).
    replace (m - n + (n - m)) with (n - m) by lia.
    by destruct (afford bd (n - m)).
Qed.

(** An inline receiver and a heap-backed argument. *)
Lemma swap_small_heap_eq fuel n lv m q h bd c :
  0 < fuel → n ≤ length lv →
  swap_fuel N fuel
    (mk_vector m (Dynamic q), (mk_vector n (Static lv), mk_world h bd c)) =
  if afford bd n then
    (Done tt,
     (mk_vector n (Static (take n lv)),
      (mk_vector m (Dynamic q), mk_world h (spend bd n) (c + n))))
  else
    (Thrown, (mk_vector m (Dynamic q), (mk_vector n (Static lv), thrown_world h bd c))).
Proof.
  intros Hf Hn. destruct fuel as [|f]; [lia|]. simpl. run.
  unfold is_small. simpl. run.
  unfold _dynamic_data, _static_data. run.
  rewrite uninitialized_copy_n_eq by done.
  destruct (afford bd n); run; [|done].
  unfold update_data. run. done.
Qed.

(** The number of copies a swap makes. *)
Definition swap_cost v other : nat :=
  match _store v, _store other with
  | Static _, Static _ => (size other - size v) + (size v - size other)
  | Static _, Dynamic _ => size v
  | Dynamic _, Static _ => size other
  | Dynamic _, Dynamic _ => 0
  end.

(** swap of two well-formed vectors, in every case. *)
Lemma swap_eq v other h bd c :
  wf N v h = true → wf N other h = true →
  swap N (other, (v, mk_world h bd c)) =
  let k := swap_cost v other in
  if afford bd k then
    (Done tt, (v, (other, mk_world h (spend bd k) (c + k))))
  else (Thrown, (other, (v, thrown_world h bd c))).
Proof.
  intros Hwf Hwfo. unfold swap, swap_cost, size.
  destruct v as [n [lv|p]], other as [m [lo|q]]; cbn [_store _size].
  - destruct (wf_static_inv N _ _ _ Hwf eq_refl) as [Hn _].
    destruct (wf_static_inv N _ _ _ Hwfo eq_refl) as [Hm _].
    cbn [_store _size] in *. by rewrite swap_small_small_eq by (done || lia).
  - destruct (wf_static_inv N _ _ _ Hwf eq_refl) as [Hn _].
    cbn [_store _size] in *.
    rewrite swap_small_heap_eq by lia.
    by rewrite Hn, firstn_all.
  - destruct (wf_static_inv N _ _ _ Hwfo eq_refl) as [Hm _].
    cbn [_store _size] in *.
    rewrite (swap_heap_small_eq N 2 _ _ lo) by (done || cbn [_size]; lia).
    cbn [_store _size]. by rewrite Hm, firstn_all.
  - rewrite swap_heap_heap_eq by (done || lia).
    by rewrite afford_0, spend_0, Nat.add_0_r.
Qed.


(** X10. Swapping twice gives back the two vectors and the heap. *)
Theorem swap_twice v other w :
  wf N v (heap w) = true → wf N other (heap w) = true → budget w = None →
  ∃ w1 w2,
    swap N (other, (v, w)) = (Done tt, (v, (other, w1)))
    ∧ swap N (v, (other, w1)) = (Done tt, (other, (v, w2)))
    ∧ heap w2 = heap w.
Proof.
  intros Hwf Hwfo Hb. destruct w as [h bd c]. simpl in *. subst bd.
  rewrite swap_eq by done. simpl.
  eexists _, _. split; [done|].
  rewrite swap_eq by done. simpl. done.
Qed.

End swapping.

#[global] Arguments swap_cost : simpl never.

(** * Copy assignment, copy construction, destruction *)

Section copies.

Context {T : Type}.
Variable N : nat.
Implicit Types (v other A B : @socow_vector T) (h : gmap addr (@dynamic_storage T)).
Implicit Types (bd : option nat) (b : @dynamic_storage T) (l from xs : list T).
Implicit Types (p q : addr) (w : @world T).

(** The buffer of another handle once the receiver has released its
    storage: same capacity and elements, and still referenced. *)
Lemma release_lookup v h q b :
  h !! q = Some b → 0 < _references b →
  (_store v = Dynamic q → 1 < _references b) →
  ∃ r, release v h !! q = Some (mk_storage (_capacity b) r (_data b)) ∧ 0 < r.
Proof.
  intros Hb Hr Hsame. unfold release.
  destruct (_store v) as [lv|p] eqn:Hv.
  - exists (_references b). rewrite Hb. by destruct b.
  - destruct (decide (p = q)) as [->|Hne].
    + specialize (Hsame eq_refl). unfold drop_ref. rewrite Hb.
      destruct (Nat.eqb_spec (_references b) 1); [lia|].
      rewrite lookup_insert_eq. eexists. split; [done|]. lia.
    + exists (_references b). unfold drop_ref.
      destruct (h !! p) as [bp|].
      * destruct (_references bp =? 1).
        -- rewrite lookup_delete_ne by done. rewrite Hb. by destruct b.
        -- rewrite lookup_insert_ne by done. rewrite Hb. by destruct b.
      * rewrite Hb. by destruct b.
Qed.

(** Copy assignment, in every case of two well-formed vectors; [k] is
    the number of copies and [h1] the heap on completion. *)
Lemma operator_assign_eq other v h bd c :
  wf N v h = true → wf N other h = true →
  (∀ p, _store v = Dynamic p → _store other = Dynamic p → shared v h = true) →
  ∃ h1,
    operator_assign N other (v, mk_world h bd c) =
    (let k := if is_small other then _size other else 0 in
     if afford bd k then
       (Done tt, (other, mk_world h1 (spend bd k) (c + k)))
     else (Thrown, (v, thrown_world h bd c)))
    ∧ wf N other h1 = true
    ∧ contents other h1 = contents other h
    ∧ cap_of N other h1 = cap_of N other h
    ∧ shared other h1 = negb (is_small other)
    ∧ (is_small v = true → is_small other = true → h1 = h)
    ∧ (is_small other = true → h1 = release v h).
Proof.
  intros Hwf Hwfo Hsh.
  pose proof (wf_valid _ _ _ Hwf) as Hv.
  unfold operator_assign.
  destruct (_store other) as [lo|q] eqn:Ho.
  - destruct (wf_static_inv _ _ _ _ Hwfo Ho) as [Hm HmN].
    assert (is_small other = true) as Hos by (unfold is_small; by rewrite Ho).
    assert (other = mk_vector (_size other) (Static lo)) as Heta.
    { destruct other. simpl in *. by subst. }
    rewrite Hos.
    destruct (_store v) as [lv|p] eqn:Hvs.
    + destruct (wf_static_inv _ _ _ _ Hwf Hvs) as [Hn HnN].
      rewrite (operator_assign_small_small_eq N 3 other lo v lv) by (done || lia).
      exists h. rewrite <- Heta. split; [done|].
      unfold release. rewrite Hvs.
      repeat split; try done. unfold shared. by rewrite Ho.
    + rewrite (operator_assign_heap_small_eq N 3 other lo); cycle 1.
      { lia. } { done. } { unfold is_small. by rewrite Hvs. } { done. } { lia. }
      exists (release v h). rewrite Hm, firstn_all, <- Hm, <- Heta.
      split; [done|].
      unfold wf, contents, cap_of, shared, is_small in *. rewrite Ho in *.
      rewrite Hvs. repeat split; try done.
  - destruct (wf_dynamic_inv N _ _ _ Hwfo Ho) as (b & Hb & Hsz & Hcap & Hr & HNc).
    assert (is_small other = false) as Hos by (unfold is_small; by rewrite Ho).
    assert (other = mk_vector (_size other) (Dynamic q)) as Heta.
    { destruct other. simpl in *. by subst. }
    destruct (release_lookup v h q b Hb Hr) as (r & Hrel & Hrpos).
    { intros Hvq. specialize (Hsh q Hvq eq_refl).
      unfold shared in Hsh. rewrite Hvq, Hb in Hsh. by apply Nat.ltb_lt. }
    rewrite (operator_assign_share_eq N 3 other q _ v h bd c
               ltac:(lia) Ho Hv Hrel).
    rewrite Hos. simpl. rewrite afford_0, spend_0, Nat.add_0_r, <- Heta.
    eexists. split; [done|].
    unfold wf, contents, cap_of, shared. rewrite Ho, lookup_insert_eq. simpl.
    repeat split; try done.
    + rewrite Hsz, Nat.eqb_refl. bool_simpl. rewrite <- Hsz.
      rewrite (proj2 (Nat.leb_le _ _)), (proj2 (Nat.ltb_lt _ _)) by lia. done.
    + by rewrite Hb.
    + by rewrite Hb.
    + apply Nat.ltb_lt. lia.
Qed.


(** X12. The copy constructor, on a well-formed [A]: it fails no assertion,
    and on completion the new handle is [A] itself, the same pointer or
    the same inline elements.  A heap-backed [A] is never copied
    element by element and the construction cannot throw; an inline [A]
    costs one copy per element and leaves the heap as it is. *)
Theorem copy_construct_spec A w l c sh :
  wf N A (heap w) = true → shows N A w l c sh →
  ∃ o w',
    socow_vector_copy N A w = (o, w')
    ∧ match o with
      | Done B =>
          B = A
          ∧ shows N B w' l c (negb (is_small A))
          ∧ copies w' = copies w + (if is_small A then size A else 0)
      | Thrown => heap w' = heap w ∧ is_small A = true
      | Fault | OutOfFuel => False
      end
    ∧ (is_small A = true → heap w' = heap w)
    ∧ (budget w = None → o ≠ Thrown).
Proof.
  intros Hwf Hsh.
  destruct (wf_shows N A w l c sh Hwf Hsh) as (Hv & _ & _ & _ & Hl & Hcap & _).
  destruct w as [h bd c0]. simpl in *. subst l c.
  destruct (operator_assign_eq A (mk_vector 0 (Static [])) h bd c0)
    as (h1 & Heq & Hwf1 & Hc1 & Hcap1 & Hs1 & Hss & _); [apply wf_static; [done|lia]|done|done|].
  unfold socow_vector_copy. rewrite Heq. simpl.
  destruct (is_small A) eqn:HA.
  - rewrite (Hss eq_refl eq_refl) in *.
    destruct (afford bd (_size A)) eqn:E.
    + eexists _, _. split; [done|]. simpl. split; [|done].
      split; [done|]. split; [|done].
      rewrite <- Hs1. by apply (shows_intro N A (mk_world h _ _)).
    + eexists _, _. split; [done|]. simpl. split; [done|]. split; [done|].
      intros ->. done.
  - rewrite afford_0.
    eexists _, _. split; [done|]. simpl. split; [|done].
    split; [done|]. split; [|done].
    rewrite <- Hc1, <- Hcap1, <- Hs1.
    apply (shows_intro N A (mk_world h1 _ _)). by eapply wf_valid.
Qed.

(** ** The destructor *)

(** X13. The destructor of a well-formed vector completes.  For an inline
    vector the heap is unchanged.  For a heap-backed one, the buffer is
    freed when the vector held the only reference, and otherwise only its
    reference count changes, by one: capacity and elements stay. *)
Theorem destroy_spec v w :
  wf N v (heap w) = true →
  ∃ w',
    destroy v w = (Done tt, w')
    ∧ budget w' = budget w ∧ copies w' = copies w
    ∧ (is_small v = true → heap w' = heap w)
    ∧ ∀ p b, _store v = Dynamic p → heap w !! p = Some b →
        (∀ q, q ≠ p → heap w' !! q = heap w !! q)
        ∧ heap w' !! p =
          if _references b =? 1 then None
          else Some (mk_storage (_capacity b) (_references b - 1) (_data b)).
Proof.
  intros Hwf. pose proof (wf_valid _ _ _ Hwf) as Hv.
  destruct w as [h bd c]. simpl in *.
  rewrite destroy_eq by done. eexists. split; [done|]. simpl.
  split; [done|]. split; [done|]. split.
  - unfold is_small, release. by destruct (_store v).
  - intros p b Hp Hb. unfold release, drop_ref. rewrite Hp, Hb.
    destruct (_references b =? 1); split.
    + intros q Hq. by rewrite lookup_delete_ne.
    + apply lookup_delete_eq.
    + intros q Hq. by rewrite lookup_insert_ne.
    + apply lookup_insert_eq.
Qed.

(** X14. Constructing a copy of a well-formed vector and destroying the copy
    gives back the heap: no buffer is left behind and every reference
    count is what it was. *)
Theorem copy_then_destroy A w B w' :
  wf N A (heap w) = true →
  socow_vector_copy N A w = (Done B, w') →
  ∃ w'', destroy B w' = (Done tt, w'') ∧ heap w'' = heap w.
Proof.
  intros Hwf Hcopy.
  destruct w as [h bd c]. simpl in *.
  destruct (operator_assign_eq A (mk_vector 0 (Static [])) h bd c)
    as (h1 & Heq & Hwf1 & Hc1 & Hcap1 & Hs1 & Hss & _); [apply wf_static; [done|lia]|done|done|].
  unfold socow_vector_copy in Hcopy. rewrite Heq in Hcopy. simpl in Hcopy.
  destruct (is_small A) eqn:HA.
  - rewrite (Hss eq_refl eq_refl) in *.
    destruct (afford bd (_size A)); [|done].
    injection Hcopy as <- <-.
    rewrite destroy_eq by (by eapply wf_valid). eexists. split; [done|]. simpl.
    unfold release, is_small in *. by destruct (_store A).
  - rewrite afford_0 in Hcopy. injection Hcopy as <- <-.
    destruct (not_small_dynamic _ HA) as [p Hp].
    destruct (wf_dynamic_inv N _ _ _ Hwf Hp) as (b & Hb & _ & _ & Hr & _).
    unfold operator_assign in Heq.
    rewrite (operator_assign_share_eq N 3 A p b) in Heq; [|lia|done|done|done].
    simpl in Heq. rewrite afford_0 in Heq.
    apply (f_equal (λ r, heap r.2.2)) in Heq. simpl in Heq.
    unfold release at 1 in Heq. simpl in Heq.
    rewrite destroy_eq by (by eapply wf_valid). eexists. split; [done|]. simpl.
    rewrite <- Heq. unfold release, drop_ref. rewrite Hp, lookup_insert_eq. simpl.
    destruct (Nat.eqb_spec (S (_references b)) 1); [lia|].
    rewrite insert_insert_eq. rewrite Nat.sub_1_r. simpl.
    apply insert_id. rewrite Hb. by destruct b.
Qed.

End copies.

(** * reserve and shrink_to_fit *)

Section capacities.

Context {T : Type}.
Variable N : nat.
Implicit Types (v other A B : @socow_vector T) (h : gmap addr (@dynamic_storage T)).
Implicit Types (bd : option nat) (b : @dynamic_storage T) (l from xs : list T).
Implicit Types (p q : addr) (w : @world T).

Ltac arith := simpl; decide_nat; simpl; first [done | lia].

Lemma shows_self v h bd c sh :
  valid v h → shared v h = sh →
  shows N v (mk_world h bd c) (contents v h) (cap_of N v h) sh.
Proof. intros Hv <-. by apply (shows_intro N v (mk_world h bd c)). Qed.


(** X16. shrink_to_fit: the elements and the size are kept, and the capacity
    afterwards is the larger of [N] and the size.  A container that is
    inline, or whose buffer is exactly full, is left as it is, shared
    buffer included; any other one moves, copying each element once, to
    the inline array when the size is at most [N] and else to a buffer of
    its own whose capacity is the size. *)
Theorem shrink_to_fit_spec v w l c sh :
  wf N v (heap w) = true → shows N v w l c sh →
  ends (shrink_to_fit N (v, w)) v w (λ _ v' w',
    size v' = size v
    ∧ shows N v' w' l (N `max` size v) (sh && (size v =? c))
    ∧ is_small v' = (size v <=? N)
    ∧ copies w' = copies w + (if is_small v || (size v =? c) then 0 else size v)
    ∧ (is_small v || (size v =? c) = true → v' = v ∧ w' = w)).
Proof.
  intros Hwf Hsh.
  destruct (wf_shows N v w l c sh Hwf Hsh) as (Hv & Hsz & Hc & HN & Hl & Hcap & Hs).
  pose proof (wf_full N _ _ Hwf) as Hfull.
  destruct w as [h bd c0]. simpl in *. unfold size in *. subst l c.
  destruct (is_small v) eqn:Hsm.
  - assert (cap_of N v h = N ∧ shared v h = false) as [HcN Hns].
    { unfold cap_of, shared, is_small in *. by destruct (_store v). }
    rewrite Hns in *. subst sh. simpl.
    rewrite shrink_to_fit_keep_eq by auto. apply ends_done.
    split; [done|]. replace (N `max` _size v) with (cap_of N v h) by lia.
    split; [by apply shows_self|].
    split; [rewrite Hsm; symmetry; apply Nat.leb_le; lia|]. simpl.
    repeat split; arith.
  - pose proof (wf_cap_heap _ _ _ Hwf Hsm) as HNc. simpl.
    destruct (Nat.eqb_spec (_size v) (cap_of N v h)) as [Heq|Hne].
    + rewrite shrink_to_fit_keep_eq by auto. apply ends_done.
      split; [done|]. replace (N `max` _size v) with (cap_of N v h) by lia.
      rewrite andb_true_r.
      split; [by apply shows_self|].
      split; [rewrite Hsm; symmetry; apply Nat.leb_gt; lia|]. simpl.
      repeat split; arith.
    + rewrite andb_false_r.
      destruct (decide (_size v ≤ N)) as [Hle|Hgt].
      * eapply ends_closed_form.
        { apply shrink_to_fit_small_eq; try done; lia. }
        intros _. simpl. rewrite Hfull. split; [done|].
        replace (N `max` _size v) with N by lia.
        split; [apply shows_static|].
        split; [unfold is_small; simpl; symmetry; by apply Nat.leb_le|].
        repeat split; arith.
      * eapply ends_closed_form.
        { apply shrink_to_fit_realloc_eq; try done; lia. }
        intros _. simpl. rewrite Hfull. split; [done|].
        replace (N `max` _size v) with (_size v) by lia.
        split; [apply (shows_dyn N _ _ _ 1)|].
        split; [unfold is_small; simpl; symmetry; apply Nat.leb_gt; lia|].
        repeat split; arith.
Qed.

End capacities.

(** * Every mutating operation *)

Section footprints.

Context {T : Type}.
Variable N : nat.
Implicit Types (v other A B : @socow_vector T) (h : gmap addr (@dynamic_storage T)).
Implicit Types (bd : option nat) (b : @dynamic_storage T) (l from xs : list T).
Implicit Types (p q : addr) (w : @world T).

(** What a mutating operation does to its receiver [v] and to the heap
    [h]: nothing; an update of the array of a receiver that is inline or
    alone on its buffer; a move to the inline array, or to a fresh buffer,
    the old storage being released. *)
Inductive moved v h :
    @socow_vector T → gmap addr (@dynamic_storage T) → Prop :=
  | moved_same : moved v h v h
  | moved_put n l :
      shared v h = false →
      moved v h (mk_vector n (put_store v h l)) (put_heap v h l)
  | moved_inline n l :
      moved v h (mk_vector n (Static l)) (release v h)
  | moved_fresh n cap l :
      moved v h (mk_vector n (Dynamic (fresh (dom h))))
        (<[fresh (dom h) := mk_storage cap 1 l]> (release v h)).

(** A run in closed form: completion after [k] copies with the receiver
    and the heap moved, well formed; or the exception of a copy, with the
    receiver and the heap untouched. *)
Definition closed_run (r : outcome unit * (@socow_vector T * @world T))
    v h bd (c : nat) : Prop :=
  ∃ k v1 h1,
    r = (if afford bd k then (Done tt, (v1, mk_world h1 (spend bd k) (c + k)))
         else (Thrown, (v, thrown_world h bd c)))
    ∧ moved v h v1 h1 ∧ wf N v1 h1 = true.

Lemma closed_run_intro r v h bd c k v1 h1 :
  r = (if afford bd k then (Done tt, (v1, mk_world h1 (spend bd k) (c + k)))
       else (Thrown, (v, thrown_world h bd c))) →
  moved v h v1 h1 → wf N v1 h1 = true → closed_run r v h bd c.
Proof. intros. exists k, v1, h1. done. Qed.

Lemma closed_run_done v h bd c v1 h1 :
  moved v h v1 h1 → wf N v1 h1 = true →
  closed_run (Done tt, (v1, mk_world h1 bd c)) v h bd c.
Proof.
  intros. exists 0, v1, h1. by rewrite afford_0, spend_0, Nat.add_0_r.
Qed.

Lemma bind_ret_closed {R St} (m : ST St R) s bd k (a : R) s1 s2 :
  m s = (if afford bd k then (Done a, s1) else (Thrown, s2)) →
  bind m (λ _, ret tt) s = (if afford bd k then (Done tt, s1) else (Thrown, s2)).
Proof. unfold bind. intros ->. by destruct (afford bd k). Qed.

Lemma bind_ret_done {R St} (m : ST St R) s (a : R) s1 :
  m s = (Done a, s1) → bind m (λ _, ret tt) s = (Done tt, s1).
Proof. unfold bind. by intros ->. Qed.

(** Every mutating operation, on a well-formed receiver with its
    arguments in range. *)
Lemma mutate_eq m v h bd c :
  wf N v h = true → 0 < N → in_range m v = true →
  closed_run (mutate N m (v, mk_world h bd c)) v h bd c.
Proof.
  intros Hwf HN Hin.
  pose proof (wf_valid _ _ _ Hwf) as Hv.
  pose proof (wf_size _ _ _ Hwf) as Hsz.
  pose proof (wf_cap _ _ _ Hwf) as Hcap.
  pose proof (wf_cap_small _ _ _ Hwf) as HNc.
  pose proof (wf_full N _ _ Hwf) as Hfull.
  assert (shared v h = true → N < cap_of N v h) as Hbig.
  { intros Hs. apply wf_cap_heap; [done|]. by eapply shared_not_small. }
  destruct m as [|i x|x| |pos x|first last| |k|]; simpl in Hin |- *; unfold size in Hin.
  - (* data *)
    destruct (shared v h) eqn:Hs.
    + eapply closed_run_intro.
      { apply data_shared_eq; (done || lia). }
      { apply moved_fresh. }
      { rewrite Hfull. apply wf_buffer; [done|lia|by apply Hbig|lia]. }
    + rewrite data_unshared_eq by done.
      apply closed_run_done; [apply moved_same|done].
  - (* assign_at *)
    apply Nat.ltb_lt in Hin.
    destruct (shared v h) eqn:Hs.
    + eapply closed_run_intro.
      { by apply assign_at_shared_eq. }
      { apply moved_fresh. }
      { apply wf_buffer; [by rewrite length_insert|lia|by apply Hbig|lia]. }
    + rewrite assign_at_in_place_eq by done.
      apply closed_run_done; [by apply moved_put|].
      apply wf_put; [done|by rewrite length_insert|done].
  - (* push_back *)
    destruct (decide (_size v = cap_of N v h ∨ shared v h = true)) as [Hg|Hg].
    + eapply closed_run_intro.
      { unfold push_back. apply push_back_realloc_eq; (done || lia). }
      { apply moved_fresh. }
      { apply wf_buffer; [rewrite length_app; simpl; lia|lia|lia|lia]. }
    + apply Decidable.not_or in Hg as [Hg1 Hg2].
      apply not_true_is_false in Hg2.
      eapply closed_run_intro.
      { unfold push_back. apply push_back_fast_eq; (done || lia). }
      { by apply moved_put. }
      { rewrite Hfull. apply wf_put; [done|rewrite length_app; simpl; lia|lia]. }
  - (* pop_back *)
    apply Nat.ltb_lt in Hin.
    destruct (shared v h) eqn:Hs.
    + eapply closed_run_intro.
      { by apply pop_back_shared_eq. }
      { apply moved_fresh. }
      { apply wf_buffer; [rewrite length_take; lia|lia|by apply Hbig|lia]. }
    + rewrite pop_back_in_place_eq by done.
      apply closed_run_done; [by apply moved_put|].
      apply wf_put; [done|rewrite length_take; lia|lia].
  - (* insert *)
    apply Nat.leb_le in Hin.
    assert (∀ y, length (take pos (contents v h) ++ y :: drop pos (contents v h))
                 = S (_size v)) as Hlen.
    { intros y. rewrite length_app, length_take. simpl. rewrite length_drop. lia. }
    destruct (decide (_size v = cap_of N v h ∨ shared v h = true)) as [Hg|Hg].
    + eapply closed_run_intro.
      { eapply bind_ret_closed. apply insert_realloc_eq; (done || lia). }
      { apply moved_fresh. }
      { apply wf_buffer; [by rewrite Hlen| | |lia].
        - destruct (shared v h); lia.
        - destruct (shared v h); lia. }
    + apply Decidable.not_or in Hg as [Hg1 Hg2].
      apply not_true_is_false in Hg2.
      eapply closed_run_intro.
      { eapply bind_ret_closed. apply insert_in_place_eq; (done || lia). }
      { by apply moved_put. }
      { apply wf_put; [done|by rewrite Hlen|lia]. }
  - (* erase *)
    apply andb_prop in Hin as [H1%Nat.leb_le H2%Nat.leb_le].
    assert (length (take first (contents v h) ++ drop last (contents v h))
            = _size v - (last - first)) as Hlen.
    { rewrite length_app, length_take, length_drop. lia. }
    destruct (decide (first = last)) as [<-|Hne].
    + destruct (shared v h) eqn:Hs.
      * eapply closed_run_intro.
        { eapply bind_ret_closed. by apply erase_empty_shared_eq. }
        { apply moved_fresh. }
        { apply wf_buffer; [done|lia|by apply Hbig|lia]. }
      * erewrite bind_ret_done by (by apply erase_empty_unshared_eq).
        apply closed_run_done; [apply moved_same|done].
    + destruct (shared v h) eqn:Hs.
      * destruct (decide (cap_of N v h - (last - first) ≤ N)) as [Hsmall|Hlarge].
        -- eapply closed_run_intro.
           { eapply bind_ret_closed. apply erase_shared_small_eq; (done || lia). }
           { apply moved_inline. }
           { apply wf_static; [by rewrite Hlen|lia]. }
        -- eapply closed_run_intro.
           { eapply bind_ret_closed. apply erase_shared_big_eq; (done || lia). }
           { apply moved_fresh. }
           { apply wf_buffer; [by rewrite Hlen|lia|lia|lia]. }
      * erewrite bind_ret_done by (apply erase_in_place_eq; (done || lia)).
        apply closed_run_done; [by apply moved_put|].
        apply wf_put; [done|by rewrite Hlen|lia].
  - (* clear *)
    destruct (shared v h) eqn:Hs.
    + rewrite clear_shared_eq by done.
      apply closed_run_done; [apply moved_inline|].
      apply wf_static; [done|lia].
    + rewrite clear_in_place_eq by done.
      apply closed_run_done; [by apply moved_put|].
      apply wf_put; [done|done|lia].
  - (* reserve *)
    destruct (decide (k < _size v)).
    { rewrite reserve_less_eq by done.
      apply closed_run_done; [apply moved_same|done]. }
    destruct (is_small v) eqn:Hsm.
    + destruct (decide (k ≤ N)).
      * rewrite reserve_small_eq by done.
        apply closed_run_done; [apply moved_same|done].
      * eapply closed_run_intro.
        { apply reserve_realloc_eq; try done; try lia. left. split; [done|lia]. }
        { apply moved_fresh. }
        { rewrite Hfull. apply wf_buffer; [done|lia|lia|lia]. }
    + pose proof (wf_cap_heap _ _ _ Hwf Hsm) as HNc'.
      destruct (shared v h) eqn:Hs.
      * destruct (decide (k ≤ N)).
        -- eapply closed_run_intro.
           { apply reserve_to_small_eq; try done; lia. }
           { apply moved_inline. }
           { rewrite Hfull. apply wf_static; [done|lia]. }
        -- eapply closed_run_intro.
           { apply reserve_realloc_eq; try done; try lia.
             right. left. split; [done|lia]. }
           { apply moved_fresh. }
           { rewrite Hfull. apply wf_buffer; [done|lia|lia|lia]. }
      * destruct (decide (k ≤ cap_of N v h)).
        -- rewrite reserve_exclusive_eq by done.
           apply closed_run_done; [apply moved_same|done].
        -- eapply closed_run_intro.
           { apply reserve_realloc_eq; try done; try lia.
             right. right. repeat split; (done || lia). }
           { apply moved_fresh. }
           { rewrite Hfull. apply wf_buffer; [done|lia|lia|lia]. }
  - (* shrink_to_fit *)
    destruct (is_small v) eqn:Hsm.
    { rewrite shrink_to_fit_keep_eq by auto.
      apply closed_run_done; [apply moved_same|done]. }
    pose proof (wf_cap_heap _ _ _ Hwf Hsm) as HNc'.
    destruct (decide (_size v = cap_of N v h)) as [Heq|Hne].
    { rewrite shrink_to_fit_keep_eq by auto.
      apply closed_run_done; [apply moved_same|done]. }
    destruct (decide (_size v ≤ N)).
    + eapply closed_run_intro.
      { apply shrink_to_fit_small_eq; try done; lia. }
      { apply moved_inline. }
      { rewrite Hfull. apply wf_static; [done|lia]. }
    + eapply closed_run_intro.
      { apply shrink_to_fit_realloc_eq; try done; lia. }
      { apply moved_fresh. }
      { rewrite Hfull. apply wf_buffer; [done|lia|lia|lia]. }
Qed.


End footprints.

(** * Adding an element and removing it again *)

Section round_trips.

Context {T : Type}.
Variable N : nat.
Implicit Types (v other A B : @socow_vector T) (h : gmap addr (@dynamic_storage T)).
Implicit Types (bd : option nat) (b : @dynamic_storage T) (l from xs : list T).
Implicit Types (p q : addr) (w : @world T).

Lemma push_back_eq x v h bd c :
  wf N v h = true → 0 < N →
  ∃ k v1 h1,
    push_back N x (v, mk_world h bd c)
    = (if afford bd k then (Done tt, (v1, mk_world h1 (spend bd k) (c + k)))
       else (Thrown, (v, thrown_world h bd c)))
    ∧ wf N v1 h1 = true ∧ _size v1 = S (_size v)
    ∧ contents v1 h1 = contents v h ++ [x]
    ∧ k = (if (_size v =? cap_of N v h) || shared v h then _size v + 1 else 1).
Proof.
  intros Hwf HN.
  pose proof (wf_valid _ _ _ Hwf) as Hv.
  pose proof (wf_size _ _ _ Hwf) as Hsz.
  pose proof (wf_cap _ _ _ Hwf) as Hcap.
  pose proof (wf_cap_small _ _ _ Hwf) as HNc.
  pose proof (wf_full N _ _ Hwf) as Hfull.
  unfold push_back.
  destruct (decide (_size v = cap_of N v h ∨ shared v h = true)) as [Hg|Hg].
  - eexists _, _, _. split; [apply push_back_realloc_eq; (done || lia)|].
    split; [apply wf_buffer; [rewrite length_app; simpl; lia|lia|lia|lia]|].
    split; [done|].
    split; [by erewrite contents_dyn by apply lookup_insert_eq|].
    destruct Hg as [Hg|Hg].
    + by rewrite (proj2 (Nat.eqb_eq _ _) Hg).
    + by rewrite Hg, orb_true_r.
  - apply Decidable.not_or in Hg as [Hg1 Hg2].
    apply not_true_is_false in Hg2.
    eexists _, _, _. split; [apply push_back_fast_eq; (done || lia)|].
    rewrite Hfull.
    split; [apply wf_put; [done|rewrite length_app; simpl; lia|lia]|].
    split; [done|]. split; [by rewrite put_contents|].
    by rewrite (proj2 (Nat.eqb_neq _ _) Hg1), Hg2.
Qed.


(** X18. push_back followed by pop_back on a well-formed vector, [N > 0]:
    when push_back completes, pop_back fails no assertion and, when it
    completes, the vector has the size and the elements it had before the
    two calls. *)
Theorem push_back_then_pop_back v w l (x : T) v1 w1 :
  wf N v (heap w) = true → 0 < N → data_const v w = (Done l, w) →
  push_back N x (v, w) = (Done tt, (v1, w1)) →
  ends (pop_back N (v1, w1)) v1 w1 (λ _ v2 w2,
    size v2 = size v ∧ data_const v2 w2 = (Done l, w2)).
Proof.
  intros Hwf HN Hl Hpush.
  apply observe_data_inv in Hl; [|by eapply wf_valid].
  pose proof (wf_size _ _ _ Hwf) as Hsz.
  destruct w as [h bd c]. simpl in *. subst l.
  destruct (push_back_eq x v h bd c Hwf HN)
    as (k & v' & h' & Heq & Hwf' & Hsz' & Hc' & _).
  destruct (closed_form_done _ _ _ _ _ _ _ _ Heq Hpush) as (_ & [= -> ->] & _).
  destruct (pop_back_eq N v' h' (spend bd k) (c + k) Hwf')
    as (k2 & v2 & h2 & Heq2 & Hwf2 & Hsz2 & Hc2); [lia|].
  eapply ends_closed_form; [exact Heq2|].
  intros _. unfold size. split; [lia|].
  rewrite data_const_eq by (by eapply wf_valid).
  rewrite Hc2, Hc', Hsz'. do 2 f_equal.
  replace (S (_size v) - 1) with (length (contents v h)) by lia.
  by rewrite take_app_length.
Qed.



End round_trips.

(** * Reference counts *)

Section counting.

Context {T : Type}.
Variable N : nat.
Implicit Types (v u other A B : @socow_vector T) (h : gmap addr (@dynamic_storage T)).
Implicit Types (bd : option nat) (b : @dynamic_storage T) (l from xs : list T).
Implicit Types (p q : addr) (w : @world T) (hs : list (@socow_vector T)).

(** The number of references the handle [v] holds on the buffer at [p]. *)
Definition points v p : nat :=
  match _store v with
  | Dynamic q => if decide (q = p) then 1 else 0
  | Static _ => 0
  end.

(** The number of handles of [hs] on the buffer at [p]. *)
Fixpoint holders hs p : nat :=
  match hs with
  | [] => 0
  | v :: hs' => points v p + holders hs' p
  end.

(** The reference count of the buffer at [p], if there is one. *)
Definition refs_of h p : nat :=
  match h !! p with
  | Some b => _references b
  | None => 0
  end.

(** The vectors [hs] of a program and its heap agree: every vector is
    well formed, the reference count of every buffer is the number of
    vectors on it, and no buffer is without a vector. *)
Definition consistent hs h : Prop :=
  (∀ i v, hs !! i = Some v → wf N v h = true)
  ∧ (∀ p, refs_of h p = holders hs p)
  ∧ (∀ p b, h !! p = Some b → 0 < _references b).

Lemma points_dyn v p : _store v = Dynamic p → points v p = 1.
Proof. unfold points. intros ->. by rewrite decide_True. Qed.

Lemma points_le v p : points v p ≤ 1.
Proof. unfold points. destruct (_store v); [lia|]. destruct (decide _); lia. Qed.

Lemma points_static v p : is_small v = true → points v p = 0.
Proof. unfold points, is_small. by destruct (_store v). Qed.

Lemma points_ne v p q : _store v = Dynamic q → q ≠ p → points v p = 0.
Proof. unfold points. intros -> Hne. by rewrite decide_False. Qed.

Lemma points_mk_static n l p : points (mk_vector n (Static l)) p = 0.
Proof. done. Qed.

Lemma points_mk_dyn n q p :
  points (mk_vector n (Dynamic q)) p = if decide (q = p) then 1 else 0.
Proof. done. Qed.

Lemma holders_app hs1 hs2 p : holders (hs1 ++ hs2) p = holders hs1 p + holders hs2 p.
Proof. induction hs1 as [|v hs1 IH]; simpl; [done|]. rewrite IH. lia. Qed.

Lemma holders_insert hs i v v' p :
  hs !! i = Some v →
  holders (<[i := v']> hs) p + points v p = holders hs p + points v' p.
Proof.
  revert i. induction hs as [|u hs IH]; intros [|i] Hi; simpl in *; try done.
  - injection Hi as ->. lia.
  - specialize (IH i Hi). lia.
Qed.

Lemma holders_delete hs i v p :
  hs !! i = Some v → holders (delete i hs) p + points v p = holders hs p.
Proof.
  revert i. induction hs as [|u hs IH]; intros [|i] Hi; simpl in *; try done.
  - injection Hi as ->. lia.
  - specialize (IH i Hi). lia.
Qed.

Lemma holders_lookup hs i v p : hs !! i = Some v → points v p ≤ holders hs p.
Proof. intros Hi. pose proof (holders_delete hs i v p Hi). lia. Qed.

Lemma holders_two hs i j v u p :
  i ≠ j → hs !! i = Some v → hs !! j = Some u →
  points v p + points u p ≤ holders hs p.
Proof.
  intros Hne Hi Hj. pose proof (holders_delete hs i v p Hi) as Hd.
  assert (∃ j', delete i hs !! j' = Some u) as [j' Hj'].
  { destruct (decide (j < i)).
    - exists j. by rewrite list_lookup_delete_lt.
    - exists (j - 1). rewrite list_lookup_delete_ge by lia.
      by replace (S (j - 1)) with j by lia. }
  pose proof (holders_lookup _ _ _ p Hj'). lia.
Qed.

(** ** What releasing a storage does to the counts *)

Lemma refs_of_release v h p :
  wf N v h = true → refs_of (release v h) p + points v p = refs_of h p.
Proof.
  intros Hwf. unfold release, points, refs_of.
  destruct (_store v) as [lv|q] eqn:Hv; [lia|].
  destruct (wf_dynamic_inv N _ _ _ Hwf Hv) as (b & Hb & _ & _ & Hr & _).
  unfold drop_ref. rewrite Hb.
  destruct (decide (q = p)) as [->|Hne].
  - rewrite Hb. destruct (Nat.eqb_spec (_references b) 1).
    + rewrite lookup_delete_eq. lia.
    + rewrite lookup_insert_eq. simpl. lia.
  - destruct (_references b =? 1).
    + rewrite lookup_delete_ne by done. lia.
    + rewrite lookup_insert_ne by done. lia.
Qed.

Lemma release_None v h p : h !! p = None → release v h !! p = None.
Proof.
  intros Hp. unfold release. destruct (_store v) as [lv|q]; [done|].
  unfold drop_ref. destruct (h !! q) as [b|] eqn:Hq; [|done].
  assert (q ≠ p) by congruence.
  destruct (_references b =? 1).
  - by rewrite lookup_delete_ne.
  - by rewrite lookup_insert_ne.
Qed.

Lemma release_positive v h :
  (∀ p b, h !! p = Some b → 0 < _references b) →
  ∀ p b, release v h !! p = Some b → 0 < _references b.
Proof.
  intros Hpos p b. unfold release. destruct (_store v) as [lv|q]; [apply Hpos|].
  unfold drop_ref. destruct (h !! q) as [bq|] eqn:Hq; [|apply Hpos].
  pose proof (Hpos q bq Hq).
  destruct (Nat.eqb_spec (_references bq) 1).
  - destruct (decide (q = p)) as [->|Hne].
    + by rewrite lookup_delete_eq.
    + rewrite lookup_delete_ne by done. apply Hpos.
  - destruct (decide (q = p)) as [->|Hne].
    + rewrite lookup_insert_eq. intros [= <-]. simpl. lia.
    + rewrite lookup_insert_ne by done. apply Hpos.
Qed.

(** Two handles on one buffer are counted by it. *)
Definition counted u v h : Prop :=
  ∀ p, _store u = Dynamic p → _store v = Dynamic p → shared v h = true.

(** The buffer that [u] designates in [h] is in [h1] with the same
    capacity and the same elements, and is referenced. *)
Definition keeps_view u h h1 : Prop :=
  ∀ p b, _store u = Dynamic p → h !! p = Some b →
    ∃ r, 0 < r ∧ h1 !! p = Some (mk_storage (_capacity b) r (_data b)).

Lemma keeps_view_same_view u h h1 :
  wf N u h = true → keeps_view u h h1 → same_view N u h h1.
Proof.
  intros Hwf Hk. unfold same_view, valid, wf, contents, cap_of in *.
  destruct (_store u) as [lu|p] eqn:Hu; [done|].
  destruct (h !! p) as [b|] eqn:Hb; [|done].
  destruct (Hk p b Hu Hb) as (r & Hr & ->). simpl.
  repeat (apply andb_prop in Hwf as [Hwf ?]).
  split; [eexists; split; [done|by simpl]|].
  split; [|done].
  rewrite Hwf, H1, H. bool_simpl. by apply Nat.ltb_lt.
Qed.

Lemma keeps_view_refl u h :
  (∀ p b, h !! p = Some b → 0 < _references b) → keeps_view u h h.
Proof.
  intros Hpos p b _ Hb. exists (_references b).
  split; [by eapply Hpos|]. rewrite Hb. by destruct b.
Qed.

Lemma keeps_view_wf_refl u h : wf N u h = true → keeps_view u h h.
Proof.
  intros Hwf p b Hu Hb. exists (_references b).
  destruct (wf_dynamic_inv N _ _ _ Hwf Hu) as (b' & Hb' & _ & _ & Hr & _).
  assert (b' = b) as -> by congruence.
  split; [done|]. rewrite Hb. by destruct b.
Qed.

Lemma keeps_view_release u v h :
  wf N u h = true → counted u v h → keeps_view u h (release v h).
Proof.
  intros Hwf Hcount p b Hu Hb.
  destruct (wf_dynamic_inv N _ _ _ Hwf Hu) as (b' & Hb' & _ & _ & Hr & _).
  assert (b' = b) as -> by congruence.
  destruct (release_lookup v h p b Hb Hr) as (r & Hrel & Hrpos).
  - intros Hv. specialize (Hcount p Hu Hv). unfold shared in Hcount.
    rewrite Hv, Hb in Hcount. by apply Nat.ltb_lt.
  - by exists r.
Qed.

Lemma keeps_view_insert u h h1 q b :
  keeps_view u h h1 → h !! q = None → keeps_view u h (<[q := b]> h1).
Proof.
  intros Hk Hq p b' Hu Hb'. destruct (Hk p b' Hu Hb') as (r & Hr & Hp).
  exists r. split; [done|]. rewrite lookup_insert_ne; [done|congruence].
Qed.

(** ** The footprint of a call *)

(** A call that moves the handle [v] in the heap [h] to [v1] in [h1]
    keeps the agreement of any program that holds [v]: the counts move
    with the handle, the buffers of the other handles keep their capacity
    and elements, and no buffer is left with a zero count. *)
Definition footprint v h v1 h1 : Prop :=
  (∀ p, refs_of h1 p + points v p = refs_of h p + points v1 p)
  ∧ (∀ u, wf N u h = true → counted u v h → keeps_view u h h1)
  ∧ ((∀ p b, h !! p = Some b → 0 < _references b) →
     ∀ p b, h1 !! p = Some b → 0 < _references b).

Lemma footprint_view v h v1 h1 u :
  footprint v h v1 h1 → wf N u h = true → counted u v h → same_view N u h h1.
Proof.
  intros (_ & Hk & _) Hwf Hcount. apply keeps_view_same_view; [done|].
  by apply Hk.
Qed.

Lemma footprint_wf v h v1 h1 u :
  footprint v h v1 h1 → wf N u h = true → counted u v h → wf N u h1 = true.
Proof. intros Hf Hwf Hcount. by destruct (footprint_view _ _ _ _ u Hf Hwf Hcount) as (_ & ? & _). Qed.

Lemma footprint_same v h : footprint v h v h.
Proof.
  split; [done|]. split; [|done]. intros u Hu _. by apply keeps_view_wf_refl.
Qed.

Lemma footprint_inline v h n l :
  wf N v h = true → footprint v h (mk_vector n (Static l)) (release v h).
Proof.
  intros Hwf. split; [|split].
  - intros p. rewrite <- (refs_of_release v h p Hwf), points_mk_static. lia.
  - intros u. apply keeps_view_release.
  - apply release_positive.
Qed.

Lemma refs_of_insert h q b p :
  refs_of (<[q := b]> h) p = if decide (q = p) then _references b else refs_of h p.
Proof.
  unfold refs_of. destruct (decide (q = p)) as [->|Hne].
  - by rewrite lookup_insert_eq.
  - by rewrite lookup_insert_ne.
Qed.

Lemma footprint_fresh v h n cap l :
  wf N v h = true →
  footprint v h (mk_vector n (Dynamic (fresh (dom h))))
    (<[fresh (dom h) := mk_storage cap 1 l]> (release v h)).
Proof.
  intros Hwf. pose proof (wf_valid _ _ _ Hwf) as Hv.
  pose proof (fresh_lookup h) as Hfresh.
  split; [|split].
  - intros p. rewrite refs_of_insert, points_mk_dyn. simpl.
    destruct (decide (fresh (dom h) = p)) as [<-|Hne].
    + pose proof (refs_of_release v h (fresh (dom h)) Hwf) as Hr.
      assert (refs_of h (fresh (dom h)) = 0) as Hz
        by (unfold refs_of; by rewrite Hfresh).
      simpl. lia.
    + pose proof (refs_of_release v h p Hwf). lia.
  - intros u Hu Hcount.
    apply keeps_view_insert; [by apply keeps_view_release|done].
  - intros Hpos p b. destruct (decide (fresh (dom h) = p)) as [<-|Hne].
    + rewrite lookup_insert_eq. intros [= <-]. simpl. lia.
    + rewrite lookup_insert_ne by done. by apply release_positive.
Qed.

Lemma footprint_put v h n l :
  wf N v h = true → shared v h = false →
  footprint v h (mk_vector n (put_store v h l)) (put_heap v h l).
Proof.
  intros Hwf Hs. unfold footprint, put_store, put_heap, points. simpl.
  destruct (_store v) as [lv|q] eqn:Hv.
  { split; [done|]. split; [|done]. intros u Hu _. by apply keeps_view_wf_refl. }
  destruct (wf_dynamic_inv N _ _ _ Hwf Hv) as (b & Hb & _ & _ & Hr & _).
  rewrite Hb. split; [|split].
  - intros p. rewrite refs_of_insert. simpl.
    destruct (decide (q = p)) as [->|Hne]; [|done].
    unfold refs_of. by rewrite Hb.
  - intros u Hu Hcount p b' Hp Hb'.
    destruct (keeps_view_wf_refl u h Hu p b' Hp Hb') as (r & Hrpos & Hlook).
    exists r. split; [done|]. rewrite lookup_insert_ne; [done|].
    intros <-. specialize (Hcount q Hp Hv). congruence.
  - intros Hpos p b'. destruct (decide (q = p)) as [->|Hne].
    + rewrite lookup_insert_eq. intros [= <-]. simpl. done.
    + rewrite lookup_insert_ne by done. apply Hpos.
Qed.

Lemma moved_footprint v h v1 h1 :
  wf N v h = true → moved v h v1 h1 → footprint v h v1 h1.
Proof.
  intros Hwf [|n l Hs|n l|n cap l].
  - apply footprint_same.
  - by apply footprint_put.
  - by apply footprint_inline.
  - by apply footprint_fresh.
Qed.

(** The receiver takes a reference on the buffer of [other]. *)
Lemma footprint_share v h other q b r :
  wf N v h = true → wf N other h = true → _store other = Dynamic q →
  h !! q = Some b →
  release v h !! q = Some (mk_storage (_capacity b) r (_data b)) →
  footprint v h other
    (<[q := mk_storage (_capacity b) (S r) (_data b)]> (release v h)).
Proof.
  intros Hwf Hwfo Ho Hb Hrel. split; [|split].
  - intros p. rewrite refs_of_insert. simpl.
    pose proof (refs_of_release v h p Hwf) as Hr.
    destruct (decide (q = p)) as [->|Hne].
    + rewrite (points_dyn other p Ho).
      unfold refs_of in Hr at 1. rewrite Hrel in Hr. simpl in Hr. lia.
    + rewrite (points_ne other p q Ho Hne). lia.
  - intros u Hu Hcount p b' Hp Hb'.
    destruct (decide (q = p)) as [->|Hne].
    + assert (b' = b) as -> by congruence.
      exists (S r). split; [lia|]. by rewrite lookup_insert_eq.
    + rewrite lookup_insert_ne by done.
      by apply (keeps_view_release u v h Hu Hcount p b').
  - intros Hpos p b'. destruct (decide (q = p)) as [->|Hne].
    + rewrite lookup_insert_eq. intros [= <-]. simpl. lia.
    + rewrite lookup_insert_ne by done. by apply release_positive.
Qed.

End counting.

#[global] Arguments points : simpl never.
#[global] Arguments refs_of : simpl never.

(** * Programs that respect the preconditions of the calls *)

Section agreement.

Context {T : Type}.
Variable N : nat.
Implicit Types (v u other A B : @socow_vector T) (h : gmap addr (@dynamic_storage T)).
Implicit Types (bd : option nat) (b : @dynamic_storage T) (l from xs : list T).
Implicit Types (p q : addr) (w : @world T) (hs : list (@socow_vector T)).
Implicit Types (s : @system T).

(** One call of a program, as [step], with the arguments of a mutating
    operation in range. *)
Inductive call : @system T → @system T → Prop :=
  | call_construct hs w :
      call (mk_system hs w) (mk_system (hs ++ [socow_vector_new]) w)
  | call_copy hs w i v B w' :
      hs !! i = Some v →
      socow_vector_copy N v w = (Done B, w') →
      call (mk_system hs w) (mk_system (hs ++ [B]) w')
  | call_copy_throws hs w i v w' :
      hs !! i = Some v →
      socow_vector_copy N v w = (Thrown, w') →
      call (mk_system hs w) (mk_system hs w')
  | call_mutate hs w i v m o v' w' :
      hs !! i = Some v →
      in_range m v = true →
      mutate N m (v, w) = (o, (v', w')) →
      o = Done tt ∨ o = Thrown →
      call (mk_system hs w) (mk_system (<[i := v']> hs) w')
  | call_assign hs w i j v other o v' w' :
      i ≠ j → hs !! i = Some v → hs !! j = Some other →
      operator_assign N other (v, w) = (o, (v', w')) →
      o = Done tt ∨ o = Thrown →
      call (mk_system hs w) (mk_system (<[i := v']> hs) w')
  | call_swap hs w i j v other o v' other' w' :
      i ≠ j → hs !! i = Some v → hs !! j = Some other →
      swap N (other, (v, w)) = (o, (other', (v', w'))) →
      o = Done tt ∨ o = Thrown →
      call (mk_system hs w) (mk_system (<[j := other']> (<[i := v']> hs)) w')
  | call_destroy hs w i v w' :
      hs !! i = Some v →
      destroy v w = (Done tt, w') →
      call (mk_system hs w) (mk_system (delete i hs) w')
  | call_budget hs h bd bd' c :
      call (mk_system hs (mk_world h bd c)) (mk_system hs (mk_world h bd' c)).

Inductive reached : @system T → Prop :=
  | reached_start bd : reached (mk_system [] (mk_world ∅ bd 0))
  | reached_call s s' : reached s → call s s' → reached s'.

Lemma call_step s s' : call s s' → step N s s'.
Proof.
  intros [].
  - apply step_construct.
  - by eapply step_copy.
  - by eapply step_copy_throws.
  - by eapply step_mutate.
  - by eapply step_assign.
  - by eapply step_swap.
  - by eapply step_destroy.
  - apply step_budget.
Qed.

Lemma reached_reachable s : reached s → reachable N s.
Proof.
  induction 1 as [bd|s s' _ IH Hcall].
  - apply reachable_start.
  - eapply reachable_step; [exact IH|by apply call_step].
Qed.

(** ** The agreement of the vectors and the heap is kept *)

Lemma consistent_counted hs h i j v u :
  consistent N hs h → i ≠ j → hs !! i = Some v → hs !! j = Some u →
  counted u v h.
Proof.
  intros (Hwf & Hcount & Hpos) Hne Hi Hj p Hu Hv.
  pose proof (holders_two hs i j v u p Hne Hi Hj) as Htwo.
  rewrite (points_dyn v p Hv), (points_dyn u p Hu), <- Hcount in Htwo.
  unfold shared, refs_of in *. rewrite Hv.
  destruct (h !! p); [by apply Nat.ltb_lt|lia].
Qed.

Lemma consistent_move hs h i v v1 h1 :
  consistent N hs h → hs !! i = Some v →
  footprint N v h v1 h1 → wf N v1 h1 = true →
  consistent N (<[i := v1]> hs) h1.
Proof.
  intros Hcons Hi Hfoot Hwf1.
  pose proof Hfoot as (Hrefs & Hothers & Hpos1).
  pose proof Hcons as (Hwf & Hcount & Hpos).
  split; [|split].
  - intros j u [(-> & <- & _)|(Hne & Hj)]%list_lookup_insert_Some; [done|].
    eapply footprint_wf; [exact Hfoot|by eapply Hwf|].
    by eapply (consistent_counted hs h i j).
  - intros p. pose proof (holders_insert hs i v v1 p Hi).
    specialize (Hrefs p). specialize (Hcount p). lia.
  - by apply Hpos1.
Qed.

Lemma consistent_same_heap hs h hs' :
  consistent N hs h →
  (∀ i v, hs' !! i = Some v → ∃ j, hs !! j = Some v) →
  (∀ p, holders hs' p = holders hs p) →
  consistent N hs' h.
Proof.
  intros (Hwf & Hcount & Hpos) Hin Hsame. split; [|split]; [| |done].
  - intros i v Hi. destruct (Hin i v Hi) as [j Hj]. by eapply Hwf.
  - intros p. by rewrite Hsame.
Qed.

Lemma consistent_append hs h v1 h1 :
  consistent N hs h →
  footprint N (@socow_vector_new T) h v1 h1 → wf N v1 h1 = true →
  consistent N (hs ++ [v1]) h1.
Proof.
  intros (Hwf & Hcount & Hpos) Hfoot Hwf1.
  pose proof Hfoot as (Hrefs & Hothers & Hpos1).
  split; [|split].
  - intros j u Hj. apply lookup_app_Some in Hj as [Hj|[_ Hj]].
    + eapply footprint_wf; [exact Hfoot|by eapply Hwf|]. intros p _ Hnew. done.
    + apply list_lookup_singleton_Some in Hj as [_ <-]. done.
  - intros p. rewrite holders_app. simpl.
    specialize (Hrefs p). specialize (Hcount p). unfold points at 1 in Hrefs.
    simpl in Hrefs. lia.
  - by apply Hpos1.
Qed.

Lemma consistent_delete hs h i v :
  consistent N hs h → hs !! i = Some v →
  consistent N (delete i hs) (release v h).
Proof.
  intros Hcons Hi. pose proof Hcons as (Hwf & Hcount & Hpos).
  split; [|split].
  - intros j u Hj. rewrite list_lookup_delete in Hj.
    eapply footprint_wf;
      [apply (footprint_inline N v h 0 []); by eapply Hwf|by eapply Hwf|].
    eapply (consistent_counted hs h i); [done| |done|exact Hj].
    destruct (decide (j < i)); lia.
  - intros p. pose proof (holders_delete hs i v p Hi).
    pose proof (refs_of_release N v h p (Hwf i v Hi)).
    specialize (Hcount p). lia.
  - by apply release_positive.
Qed.

(** Copy assignment between two vectors of a program. *)
Lemma operator_assign_footprint other v h bd c :
  wf N v h = true → wf N other h = true → counted other v h →
  ∃ k h1,
    operator_assign N other (v, mk_world h bd c) =
    (if afford bd k then
       (Done tt, (other, mk_world h1 (spend bd k) (c + k)))
     else (Thrown, (v, thrown_world h bd c)))
    ∧ footprint N v h other h1 ∧ wf N other h1 = true.
Proof.
  intros Hwf Hwfo Hcount.
  pose proof (wf_valid _ _ _ Hwf) as Hv.
  unfold operator_assign.
  destruct (_store other) as [lo|q] eqn:Ho.
  - destruct (wf_static_inv _ _ _ _ Hwfo Ho) as [Hm HmN].
    assert (other = mk_vector (_size other) (Static lo)) as Heta.
    { destruct other. simpl in *. by subst. }
    destruct (_store v) as [lv|p] eqn:Hvs.
    + destruct (wf_static_inv _ _ _ _ Hwf Hvs) as [Hn HnN].
      rewrite (operator_assign_small_small_eq N 3 other lo v lv) by (done || lia).
      exists (_size other), h. rewrite <- Heta. split; [done|]. split; [|done].
      rewrite Heta.
      pose proof (footprint_inline N v h (_size other) lo Hwf) as Hf.
      unfold release in Hf. by rewrite Hvs in Hf.
    + rewrite (operator_assign_heap_small_eq N 3 other lo); cycle 1.
      { lia. } { done. } { unfold is_small. by rewrite Hvs. } { done. } { lia. }
      exists (_size other), (release v h). rewrite Hm, firstn_all, <- Hm, <- Heta.
      split; [done|]. split.
      * rewrite Heta. by apply footprint_inline.
      * unfold wf in *. by rewrite Ho in *.
  - destruct (wf_dynamic_inv N _ _ _ Hwfo Ho) as (b & Hb & Hsz & Hcap & Hr & HNc).
    assert (other = mk_vector (_size other) (Dynamic q)) as Heta.
    { destruct other. simpl in *. by subst. }
    destruct (release_lookup v h q b Hb Hr) as (r & Hrel & Hrpos).
    { intros Hvq. specialize (Hcount q Ho Hvq).
      unfold shared in Hcount. rewrite Hvq, Hb in Hcount. by apply Nat.ltb_lt. }
    rewrite (operator_assign_share_eq N 3 other q _ v h bd c
               ltac:(lia) Ho Hv Hrel).
    exists 0. eexists. rewrite afford_0, spend_0, Nat.add_0_r, <- Heta.
    split; [done|]. simpl. split.
    + by apply footprint_share.
    + rewrite Heta. apply wf_buffer; [done|done|done|lia].
Qed.

Lemma call_consistent s s' :
  0 < N → call s s' →
  consistent N (handles s) (heap (memory s)) →
  consistent N (handles s') (heap (memory s')).
Proof.
  intros HN Hcall Hcons.
  destruct Hcall as [hs w|hs w i v B w' Hi Hrun|hs w i v w' Hi Hrun
                    |hs w i v m o v' w' Hi Hin Hrun Ho
                    |hs w i j v other o v' w' Hne Hi Hj Hrun Ho
                    |hs w i j v other o v' other' w' Hne Hi Hj Hrun Ho
                    |hs w i v w' Hi Hrun|hs h bd bd' c]; simpl in *.
  - (* construct *)
    apply (consistent_append hs (heap w)); [done|apply footprint_same|].
    apply wf_static; [done|lia].
  - (* copy *)
    pose proof Hcons as (Hwf & _).
    destruct w as [h bd c].
    destruct (operator_assign_footprint v socow_vector_new h bd c)
      as (k & h1 & Heq & Hf & Hwf1);
      [apply wf_static; [done|lia]|by eapply Hwf|done|].
    unfold socow_vector_copy in Hrun. fold (@socow_vector_new T) in Hrun.
    rewrite Heq in Hrun.
    destruct (afford bd k); [|done]. injection Hrun as <- <-.
    by apply (consistent_append hs h).
  - (* copy, throwing *)
    pose proof Hcons as (Hwf & _).
    destruct w as [h bd c].
    destruct (operator_assign_footprint v socow_vector_new h bd c)
      as (k & h1 & Heq & Hf & Hwf1);
      [apply wf_static; [done|lia]|by eapply Hwf|done|].
    unfold socow_vector_copy in Hrun. fold (@socow_vector_new T) in Hrun.
    rewrite Heq in Hrun.
    destruct (afford bd k); [done|]. by injection Hrun as <-.
  - (* mutate *)
    pose proof Hcons as (Hwf & _).
    destruct w as [h bd c].
    destruct (mutate_eq N m v h bd c (Hwf i v Hi) HN Hin)
      as (k & v1 & h1 & Heq & Hmoved & Hwf1).
    rewrite Heq in Hrun. destruct (afford bd k).
    + injection Hrun as <- <- <-. simpl.
      apply (consistent_move hs h i v); [done|done| |done].
      apply moved_footprint; [by eapply Hwf|done].
    + injection Hrun as <- <- <-. simpl. by rewrite list_insert_id.
  - (* assign *)
    pose proof Hcons as (Hwf & _).
    destruct w as [h bd c].
    destruct (operator_assign_footprint other v h bd c)
      as (k & h1 & Heq & Hf & Hwf1);
      [by eapply Hwf|by eapply Hwf|by eapply (consistent_counted hs h i j)|].
    rewrite Heq in Hrun. destruct (afford bd k).
    + injection Hrun as <- <- <-. simpl.
      by apply (consistent_move hs h i v).
    + injection Hrun as <- <- <-. simpl. by rewrite list_insert_id.
  - (* swap *)
    pose proof Hcons as (Hwf & _).
    destruct w as [h bd c].
    rewrite swap_eq in Hrun by (by eapply Hwf). simpl in Hrun.
    destruct (afford bd (swap_cost v other)).
    + injection Hrun as <- <- <- <-. simpl.
      apply (consistent_same_heap hs); [done| |].
      * intros k u Hk.
        apply list_lookup_insert_Some in Hk as [(_ & <- & _)|(_ & Hk)]; [eauto|].
        apply list_lookup_insert_Some in Hk as [(_ & <- & _)|(_ & Hk)]; eauto.
      * intros p.
        pose proof (holders_insert hs i v other p Hi) as H1.
        assert (<[i := other]> hs !! j = Some other) as Hj'
          by (by rewrite list_lookup_insert_ne).
        pose proof (holders_insert _ j other v p Hj') as H2. lia.
    + injection Hrun as <- <- <- <-. simpl.
      rewrite (list_insert_id hs i v) by done.
      by rewrite list_insert_id.
  - (* destroy *)
    pose proof Hcons as (Hwf & _).
    destruct w as [h bd c].
    rewrite destroy_eq in Hrun by (eapply wf_valid; by eapply Hwf).
    injection Hrun as <-. simpl. by apply consistent_delete.
  - done.
Qed.

Lemma reached_agree s :
  0 < N → reached s → consistent N (handles s) (heap (memory s)).
Proof.
  intros HN. induction 1 as [bd|s s' _ IH Hcall].
  - split; [|split]; simpl.
    + intros i v Hi. done.
    + intros p. unfold refs_of. by rewrite lookup_empty.
    + intros p b Hp. by rewrite lookup_empty in Hp.
  - by eapply call_consistent.
Qed.

Lemma holders_positive hs p :
  0 < holders hs p → ∃ i v, hs !! i = Some v ∧ _store v = Dynamic p.
Proof.
  induction hs as [|u hs IH]; simpl; [lia|]. intros Hpos.
  destruct (decide (points u p = 0)) as [Hz|Hnz].
  - destruct IH as (i & v & Hi & Hv); [lia|]. by exists (S i), v.
  - exists 0, u. split; [done|]. unfold points in Hnz.
    destruct (_store u) as [lu|q]; [done|].
    destruct (decide (q = p)) as [->|]; done.
Qed.

(** X20. In every state a program reaches by calls whose arguments are in
    range (with [N > 0]), the vectors and the heap agree: every vector is
    well formed (its size is the number of its elements and fits its
    capacity, its buffer is allocated); the reference count of every
    buffer is exactly the number of vectors of the program on it; and
    every buffer has such a vector. *)
Theorem reached_consistent s :
  0 < N → reached s →
  (∀ i v, handles s !! i = Some v → wf N v (heap (memory s)) = true)
  ∧ (∀ p b, heap (memory s) !! p = Some b →
       _references b = holders (handles s) p ∧ 0 < _references b)
  ∧ (∀ p, heap (memory s) !! p = None → holders (handles s) p = 0).
Proof.
  intros HN Hr. destruct (reached_agree s HN Hr) as (Hwf & Hcount & Hpos).
  split; [done|]. split.
  - intros p b Hp. split; [|by eapply Hpos].
    specialize (Hcount p). unfold refs_of in Hcount. by rewrite Hp in Hcount.
  - intros p Hp. specialize (Hcount p). unfold refs_of in Hcount.
    by rewrite Hp in Hcount.
Qed.

(** X21. No leak: in every state a program reaches, every buffer of the heap
    belongs to a vector of the program; once every vector has been
    destroyed the heap is empty. *)
Theorem reached_no_leak s :
  0 < N → reached s →
  (∀ p b, heap (memory s) !! p = Some b →
     ∃ i v, handles s !! i = Some v ∧ _store v = Dynamic p)
  ∧ (handles s = [] → heap (memory s) = ∅).
Proof.
  intros HN Hr. destruct (reached_agree s HN Hr) as (Hwf & Hcount & Hpos).
  assert (∀ p b, heap (memory s) !! p = Some b →
            ∃ i v, handles s !! i = Some v ∧ _store v = Dynamic p) as Hown.
  { intros p b Hp. apply holders_positive. rewrite <- Hcount.
    unfold refs_of. rewrite Hp. by eapply Hpos. }
  split; [done|].
  intros Hnil. apply map_empty. intros p.
  destruct (heap (memory s) !! p) as [b|] eqn:Hp; [|done].
  destruct (Hown p b Hp) as (i & v & Hi & _). by rewrite Hnil in Hi.
Qed.


(** What [u] reads is what it read before, in a heap that kept its view. *)
Lemma view_untouched u h bd c h1 bd1 c1 l cp :
  wf N u h = true → same_view N u h h1 →
  data_const u (mk_world h bd c) = (Done l, mk_world h bd c) →
  capacity N u (mk_world h bd c) = (Done cp, mk_world h bd c) →
  data_const u (mk_world h1 bd1 c1) = (Done l, mk_world h1 bd1 c1)
  ∧ capacity N u (mk_world h1 bd1 c1) = (Done cp, mk_world h1 bd1 c1).
Proof.
  intros Hwf (Hv1 & _ & Hc1 & Hcap1) Hl Hcp.
  pose proof (wf_valid _ _ _ Hwf) as Hv.
  rewrite data_const_eq in Hl by done. rewrite capacity_eq in Hcp by done.
  rewrite data_const_eq, capacity_eq by done. split; congruence.
Qed.

(** X23. Value semantics: in every state a program reaches, a call on one
    vector [v] of the program (a mutating operation with arguments in
    range, a copy assignment or a swap with another vector of the
    program, a copy construction, the destructor), however it ends,
    leaves every other vector [u] of the program reading the elements and
    the capacity it read before the call. *)
Theorem reached_isolated s i j v u l c :
  0 < N → reached s → i ≠ j →
  handles s !! i = Some v → handles s !! j = Some u →
  data_const u (memory s) = (Done l, memory s) →
  capacity N u (memory s) = (Done c, memory s) →
  (∀ m o v' w',
     in_range m v = true → mutate N m (v, memory s) = (o, (v', w')) →
     data_const u w' = (Done l, w') ∧ capacity N u w' = (Done c, w'))
  ∧ (∀ k other o v' w',
       k ≠ i → handles s !! k = Some other →
       operator_assign N other (v, memory s) = (o, (v', w')) →
       data_const u w' = (Done l, w') ∧ capacity N u w' = (Done c, w'))
  ∧ (∀ k other o v' other' w',
       k ≠ i → k ≠ j → handles s !! k = Some other →
       swap N (other, (v, memory s)) = (o, (other', (v', w'))) →
       data_const u w' = (Done l, w') ∧ capacity N u w' = (Done c, w'))
  ∧ (∀ o w',
       socow_vector_copy N v (memory s) = (o, w') →
       data_const u w' = (Done l, w') ∧ capacity N u w' = (Done c, w'))
  ∧ (∀ w',
       destroy v (memory s) = (Done tt, w') →
       data_const u w' = (Done l, w') ∧ capacity N u w' = (Done c, w')).
Proof.
  intros HN Hr Hne Hi Hj Hl Hc. pose proof (reached_agree s HN Hr) as Hcons.
  pose proof Hcons as (Hwf & Hcount & Hpos).
  pose proof (Hwf i v Hi) as Hwfv. pose proof (Hwf j u Hj) as Hwfu.
  destruct s as [hs [h bd c0]]. simpl in *.
  pose proof (consistent_counted hs h i j v u Hcons Hne Hi Hj) as Hcounted.
  assert (∀ bd1 c1, data_const u (mk_world h bd1 c1) = (Done l, mk_world h bd1 c1)
                    ∧ capacity N u (mk_world h bd1 c1) = (Done c, mk_world h bd1 c1))
    as Hsame.
  { intros bd1 c1. eapply view_untouched; [exact Hwfu| |exact Hl|exact Hc].
    by apply same_view_refl. }
  split; [|split; [|split; [|split]]].
  - intros m o v' w' Hin Hrun.
    destruct (mutate_eq N m v h bd c0 Hwfv HN Hin)
      as (k & v1 & h1 & Heq & Hmoved & _).
    rewrite Heq in Hrun. destruct (afford bd k).
    + injection Hrun as <- <- <-.
      eapply view_untouched; [exact Hwfu| |exact Hl|exact Hc].
      apply (footprint_view N v h v1 h1); [by apply moved_footprint|done|done].
    + injection Hrun as <- <- <-. apply Hsame.
  - intros k other o v' w' Hk Hother Hrun.
    destruct (operator_assign_footprint other v h bd c0)
      as (n & h1 & Heq & Hfoot & _);
      [done|by eapply Hwf|by eapply (consistent_counted hs h i k)|].
    rewrite Heq in Hrun. destruct (afford bd n).
    + injection Hrun as <- <- <-.
      eapply view_untouched; [exact Hwfu| |exact Hl|exact Hc].
      by apply (footprint_view N v h other h1).
    + injection Hrun as <- <- <-. apply Hsame.
  - intros k other o v' other' w' Hk Hkj Hother Hrun.
    rewrite swap_eq in Hrun by (done || by eapply Hwf). simpl in Hrun.
    destruct (afford bd (swap_cost v other));
      injection Hrun as <- <- <- <-; apply Hsame.
  - intros o w' Hrun.
    destruct (operator_assign_footprint v socow_vector_new h bd c0)
      as (n & h1 & Heq & Hfoot & _); [apply wf_static; [done|lia]|done|done|].
    unfold socow_vector_copy in Hrun. fold (@socow_vector_new T) in Hrun.
    rewrite Heq in Hrun. destruct (afford bd n).
    + injection Hrun as <- <-.
      eapply view_untouched; [exact Hwfu| |exact Hl|exact Hc].
      apply (footprint_view N socow_vector_new h v h1); [exact Hfoot|done|done].
    + injection Hrun as <- <-. apply Hsame.
  - intros w' Hrun.
    rewrite destroy_eq in Hrun by (by eapply wf_valid).
    injection Hrun as <-.
    eapply view_untouched; [exact Hwfu| |exact Hl|exact Hc].
    apply (footprint_view N v h (mk_vector 0 (Static [])) (release v h));
      [by apply footprint_inline|done|done].
Qed.

End agreement.

(** * Allocation of a copy; a vector without inline capacity *)

Section edges.

Context {T : Type}.
Implicit Types (v u other A B : @socow_vector T) (h : gmap addr (@dynamic_storage T)).
Implicit Types (bd : option nat) (b : @dynamic_storage T) (l from xs : list T).
Implicit Types (p q : addr) (w : @world T).


(** X25. With [SMALL_SIZE = 0] a vector that is still inline cannot grow:
    push_back, and insert at its only position, double a capacity of zero
    and fail the assertion [capacity > SMALL_SIZE] of the constructor of
    the replacement. *)
Theorem push_back_without_inline_capacity v w (x : T) :
  wf 0 v (heap w) = true → is_small v = true →
  push_back 0 x (v, w) = (Fault, (v, w))
  ∧ insert 0 0 x (v, w) = (Fault, (v, w)).
Proof.
  intros Hwf Hsm. destruct v as [n [l|p]]; [|done].
  destruct (wf_static_inv 0 _ _ _ Hwf eq_refl) as [Hn Hz]. simpl in *.
  assert (n = 0) as -> by lia. destruct l; [|done].
  split.
  - unfold push_back. simpl. unfold capacity, socow_vector_from. run. done.
  - unfold insert. run. unfold capacity, copied. run. done.
Qed.

End edges.

(** * Iterators *)

Section iterators.

Context {T : Type}.
Variable N : nat.
Implicit Types (v u other A B : @socow_vector T) (h : gmap addr (@dynamic_storage T)).
Implicit Types (bd : option nat) (b : @dynamic_storage T) (l from xs : list T).
Implicit Types (p q : addr) (w : @world T).

(** A function declared [noexcept]: an exception that would leave it
    ends the execution ([std::terminate]). *)
Definition noexcept {St R} (m : ST St R) : ST St R :=
  λ s, match m s with
       | (Thrown, s') => (Fault, s')
       | r => r
       end.

(** [begin() noexcept] is [data()], and [end() noexcept] is
    [data() + size()]: the offset of the iterator from [data()]. *)
Definition begin : @method T nat :=
  noexcept (data N ;; ret 0).

Definition end_ : @method T nat :=
  noexcept (data N ;; v <- this ;; ret (size v)).

(** X27. The mutable iterators of a well-formed container.  On a
    container that is inline or alone on its buffer, [begin()] and
    [end()] return the offsets 0 and [size()] and change nothing.  On a
    shared buffer they first move the container to a buffer of its own,
    as mutable access does, elements, size and capacity being kept; and
    since both are declared [noexcept], a copy that throws during that
    move ends the execution instead of reaching the caller: this happens
    exactly when the copy constructor can throw within the next
    [size()] copies. *)
Theorem begin_end_spec v w l c sh :
  wf N v (heap w) = true → shows N v w l c sh →
  (sh = false →
   begin (v, w) = (Done 0, (v, w)) ∧ end_ (v, w) = (Done (size v), (v, w)))
  ∧ (sh = true →
     ∃ o v' w',
       begin (v, w) = (o, (v', w'))
       ∧ end_ (v, w) = (match o with Done _ => Done (size v) | _ => o end, (v', w'))
       ∧ match o with
         | Done r =>
             r = 0 ∧ size v' = size v ∧ shows N v' w' l c false
             ∧ copies w' = copies w + size v
         | Fault => ∃ k, budget w = Some k ∧ k < size v
         | Thrown | OutOfFuel => False
         end
       ∧ (∀ k, budget w = Some k → k < size v → o = Fault)).
Proof.
  intros Hwf Hsh.
  destruct (wf_shows N v w l c sh Hwf Hsh) as (Hv & Hsz & Hc & HN & Hl & Hcap & Hs).
  pose proof (wf_full N _ _ Hwf) as Hfull.
  destruct w as [h bd c0]. simpl in *. unfold size in *. subst l c.
  unfold begin, end_, noexcept, bind, ret, this, gets. split.
  - intros ->. rewrite data_unshared_eq by done. simpl. by destruct v.
  - intros ->. rewrite data_shared_eq by (done || lia). rewrite Hfull.
    destruct bd as [k|]; simpl.
    + destruct (Nat.leb_spec (_size v) k) as [Hle|Hgt].
      * eexists _, _, _. split; [done|]. split; [done|].
        split; [|intros k' [= <-]; lia].
        split; [done|]. split; [done|].
        split; [apply (shows_dyn N _ _ _ 1)|done].
      * eexists _, _, _. split; [done|]. split; [done|].
        split; [by exists k|done].
    + eexists _, _, _. split; [done|]. split; [done|].
      split; [|done].
      split; [done|]. split; [done|].
      split; [apply (shows_dyn N _ _ _ 1)|done].
Qed.

End iterators.

(** * The further properties on concrete vectors of numbers, [N = 4] *)

(** [ex_A] after push_back(6) in [ex_one]: in place. *)
Definition ex_six : @socow_vector nat := mk_vector 6 (Dynamic 1%positive).
Definition ex_six_world : @world nat :=
  mk_world {[1%positive := mk_storage 8 1 [1; 2; 3; 4; 5; 6]]} None 10.


Example ex_six_reached : push_back 4 6 (ex_A, ex_one) = (Done tt, (ex_six, ex_six_world)).
Proof. vm_compute. reflexivity. Qed.


(** A program that pushes 1 to 5 on a new vector and constructs a copy
    of it holds two handles on the buffer of [ex_two]. *)
Lemma ex_two_program : reached 4 (mk_system [ex_A; ex_A] ex_two).
Proof.
  assert (∀ (hs : @socow_vector nat) w x v' w',
            reached 4 (mk_system [hs] w) →
            push_back 4 x (hs, w) = (Done tt, (v', w')) →
            reached 4 (mk_system [v'] w')) as Hpush.
  { intros hs w x v' w' Hr Hrun. eapply reached_call; [exact Hr|].
    by apply (call_mutate 4 [hs] w 0 hs (Mut_push_back x) (Done tt) v' w');
      [| | |left]. }
  eapply reached_call.
  - apply (Hpush (mk_vector 4 (Static [1; 2; 3; 4])) (mk_world ∅ None 4) 5 ex_A ex_one);
      [|vm_compute; reflexivity].
    apply (Hpush (mk_vector 3 (Static [1; 2; 3])) (mk_world ∅ None 3) 4);
      [|vm_compute; reflexivity].
    apply (Hpush (mk_vector 2 (Static [1; 2])) (mk_world ∅ None 2) 3);
      [|vm_compute; reflexivity].
    apply (Hpush (mk_vector 1 (Static [1])) (mk_world ∅ None 1) 2);
      [|vm_compute; reflexivity].
    apply (Hpush socow_vector_new (mk_world ∅ None 0) 1);
      [|vm_compute; reflexivity].
    eapply reached_call; [apply (reached_start 4 None)|].
    apply (call_construct 4 [] (mk_world ∅ None 0)).
  - apply (call_copy 4 [ex_A] ex_one 0 ex_A ex_A ex_two); [reflexivity|].
    exact ex_two_reached.
Qed.

Lemma at_const_spec_witness :
  ∃ x, [1; 2; 3; 4; 5] !! 2 = Some x ∧ at_const ex_A 2 ex_one = (Done x, ex_one).
Proof.
  destruct (at_const_spec 4 ex_A ex_one [1; 2; 3; 4; 5] 2) as (_ & Hin & _);
    [reflexivity..|].
  apply Hin. unfold size. simpl. lia.
Defined.

Lemma front_back_const_spec_witness :
  front_const ex_A ex_one = (Done 1, ex_one)
  ∧ back_const ex_A ex_one = (Done 5, ex_one).
Proof.
  apply (front_back_const_spec 4 ex_A ex_one [1; 2; 3; 4; 5]); reflexivity.
Defined.

Lemma front_back_spec_witness :
  ends (back 4 (ex_A, ex_two)) ex_A ex_two (λ _ v' w',
    size v' = size ex_A ∧ shows 4 v' w' [1; 2; 3; 4; 5] 8 false
    ∧ ∃ x, last [1; 2; 3; 4; 5] = Some x
           ∧ at_const v' (size ex_A - 1) w' = (Done x, w')).
Proof.
  destruct (front_back_spec 4 ex_A ex_two [1; 2; 3; 4; 5] 8 true) as [Hin _];
    [reflexivity|repeat split|].
  apply Hin. unfold size. simpl. lia.
Defined.

Lemma data_spec_witness :
  ends (data 4 (ex_A, ex_two)) ex_A ex_two (λ _ v' w',
    size v' = size ex_A
    ∧ shows 4 v' w' [1; 2; 3; 4; 5] 8 false
    ∧ copies w' = copies ex_two + size ex_A
    ∧ (true = false → v' = ex_A ∧ w' = ex_two)).
Proof.
  apply (data_spec 4 ex_A ex_two [1; 2; 3; 4; 5] 8 true);
    [reflexivity|repeat split].
Defined.

Lemma assign_at_spec_witness :
  ends (assign_at 4 1 9 (ex_A, ex_one)) ex_A ex_one (λ _ v' w',
    size v' = size ex_A
    ∧ shows 4 v' w' [1; 9; 3; 4; 5] 8 false
    ∧ copies w' = copies ex_one + 0
    ∧ (false = false → is_small v' = is_small ex_A
                     ∧ ∀ p, _store ex_A = Dynamic p → _store v' = Dynamic p)).
Proof.
  destruct (assign_at_spec 4 ex_A ex_one [1; 2; 3; 4; 5] 8 false 1 9) as [Hin _];
    [reflexivity|repeat split|].
  apply Hin. unfold size. simpl. lia.
Defined.

Lemma pop_back_spec_witness :
  ends (pop_back 4 (ex_A, ex_two)) ex_A ex_two (λ _ v' w',
    size v' = size ex_A - 1
    ∧ shows 4 v' w' [1; 2; 3; 4] 8 false
    ∧ copies w' = copies ex_two + (size ex_A - 1)
    ∧ (true = false → is_small v' = is_small ex_A
                    ∧ ∀ p, _store ex_A = Dynamic p → _store v' = Dynamic p)).
Proof.
  destruct (pop_back_spec 4 ex_A ex_two [1; 2; 3; 4; 5] 8 true) as [Hin _];
    [reflexivity|repeat split|].
  apply Hin. unfold size. simpl. lia.
Defined.




Lemma swap_twice_witness :
  ∃ w1 w2,
    swap 4 (ex_inline, (ex_A, ex_one)) = (Done tt, (ex_A, (ex_inline, w1)))
    ∧ swap 4 (ex_A, (ex_inline, w1)) = (Done tt, (ex_inline, (ex_A, w2)))
    ∧ heap w2 = heap ex_one.
Proof.
  apply (swap_twice 4 ex_A ex_inline ex_one); reflexivity.
Defined.


Lemma copy_construct_spec_witness :
  ∃ o w',
    socow_vector_copy 4 ex_A ex_one = (o, w')
    ∧ match o with
      | Done B =>
          B = ex_A
          ∧ shows 4 B w' [1; 2; 3; 4; 5] 8 (negb (is_small ex_A))
          ∧ copies w' = copies ex_one + (if is_small ex_A then size ex_A else 0)
      | Thrown => heap w' = heap ex_one ∧ is_small ex_A = true
      | Fault | OutOfFuel => False
      end
    ∧ (is_small ex_A = true → heap w' = heap ex_one)
    ∧ (budget ex_one = None → o ≠ Thrown).
Proof.
  apply (copy_construct_spec 4 ex_A ex_one [1; 2; 3; 4; 5] 8 false);
    [reflexivity|repeat split].
Defined.

Lemma destroy_spec_witness :
  ∃ w',
    destroy ex_A ex_two = (Done tt, w')
    ∧ heap w' !! 1%positive = Some (mk_storage 8 1 [1; 2; 3; 4; 5]).
Proof.
  destruct (destroy_spec 4 ex_A ex_two) as (w' & Hrun & _ & _ & _ & Hheap);
    [reflexivity|].
  exists w'. split; [exact Hrun|].
  destruct (Hheap 1%positive (mk_storage 8 2 [1; 2; 3; 4; 5])) as [_ Hp];
    [reflexivity..|].
  exact Hp.
Defined.

Lemma copy_then_destroy_witness :
  ∃ w'', destroy ex_A ex_two = (Done tt, w'') ∧ heap w'' = heap ex_one.
Proof.
  apply (copy_then_destroy 4 ex_A ex_one ex_A ex_two); [reflexivity|].
  exact ex_two_reached.
Defined.


Lemma shrink_to_fit_spec_witness :
  ends (shrink_to_fit 4 (ex_short, ex_short_world)) ex_short ex_short_world
    (λ _ v' w',
      size v' = size ex_short
      ∧ shows 4 v' w' [1; 2; 3] (4 `max` size ex_short)
          (false && (size ex_short =? 8))
      ∧ is_small v' = (size ex_short <=? 4)
      ∧ copies w' = copies ex_short_world
                    + (if is_small ex_short || (size ex_short =? 8)
                       then 0 else size ex_short)
      ∧ (is_small ex_short || (size ex_short =? 8) = true →
         v' = ex_short ∧ w' = ex_short_world)).
Proof.
  apply (shrink_to_fit_spec 4 ex_short ex_short_world [1; 2; 3] 8 false);
    [reflexivity|repeat split].
Defined.


Lemma push_back_then_pop_back_witness :
  ends (pop_back 4 (ex_six, ex_six_world)) ex_six ex_six_world (λ _ v2 w2,
    size v2 = size ex_A ∧ data_const v2 w2 = (Done [1; 2; 3; 4; 5], w2)).
Proof.
  apply (push_back_then_pop_back 4 ex_A ex_one [1; 2; 3; 4; 5] 6);
    [reflexivity|lia|reflexivity|].
  exact ex_six_reached.
Defined.



Lemma reached_consistent_witness :
  wf 4 ex_A (heap ex_two) = true
  ∧ _references (mk_storage 8 2 [1; 2; 3; 4; 5]) = holders [ex_A; ex_A] 1%positive.
Proof.
  destruct (reached_consistent 4 (mk_system [ex_A; ex_A] ex_two))
    as (Hwf & Hcount & _); [lia|exact ex_two_program|].
  split.
  - apply (Hwf 1 ex_A). reflexivity.
  - apply (Hcount 1%positive (mk_storage 8 2 [1; 2; 3; 4; 5])). reflexivity.
Defined.

Lemma reached_no_leak_witness :
  ∃ i v, [ex_A; ex_A] !! i = Some v ∧ _store v = Dynamic 1%positive.
Proof.
  destruct (reached_no_leak 4 (mk_system [ex_A; ex_A] ex_two))
    as (Hown & _); [lia|exact ex_two_program|].
  apply (Hown 1%positive (mk_storage 8 2 [1; 2; 3; 4; 5])). reflexivity.
Defined.


(** Writing 9 at index 0 through the first handle of [ex_two] moves it
    to a buffer of its own. *)
Definition ex_written : @socow_vector nat := mk_vector 5 (Dynamic 2%positive).
Definition ex_written_world : @world nat :=
  mk_world {[1%positive := mk_storage 8 1 [1; 2; 3; 4; 5];
             2%positive := mk_storage 8 1 [9; 2; 3; 4; 5]]} None 14.

Example ex_written_reached :
  mutate 4 (Mut_assign_at 0 9) (ex_A, ex_two)
  = (Done tt, (ex_written, ex_written_world)).
Proof. vm_compute. reflexivity. Qed.

Lemma reached_isolated_witness :
  data_const ex_A ex_written_world = (Done [1; 2; 3; 4; 5], ex_written_world)
  ∧ capacity 4 ex_A ex_written_world = (Done 8, ex_written_world).
Proof.
  destruct (reached_isolated 4 (mk_system [ex_A; ex_A] ex_two) 0 1 ex_A ex_A
              [1; 2; 3; 4; 5] 8)
    as (Hmut & _); [lia|exact ex_two_program|lia|reflexivity..|].
  apply (Hmut (Mut_assign_at 0 9) (Done tt) ex_written ex_written_world);
    [reflexivity|exact ex_written_reached].
Defined.


Lemma push_back_without_inline_capacity_witness :
  push_back 0 7 (socow_vector_new, ex_empty) = (Fault, (socow_vector_new, ex_empty))
  ∧ insert 0 0 7 (socow_vector_new, ex_empty)
    = (Fault, (socow_vector_new, ex_empty)).
Proof.
  apply (push_back_without_inline_capacity socow_vector_new ex_empty 7);
    reflexivity.
Defined.

Lemma begin_end_spec_witness :
  ∃ v' w', begin 4 (ex_A, ex_two_throwing) = (Fault, (v', w')).
Proof.
  destruct (begin_end_spec 4 ex_A ex_two_throwing [1; 2; 3; 4; 5] 8 true)
    as [_ Hshared]; [reflexivity|repeat split|].
  destruct (Hshared eq_refl) as (o & v' & w' & Hbegin & _ & _ & Hthrows).
  exists v', w'. rewrite Hbegin.
  rewrite (Hthrows 2 eq_refl); [reflexivity|]. unfold size. simpl. lia.
Defined.
